(** * pydian: path resolution, in-place mutation and pruning of nested data

    A shallow embedding of [pydian/dicts.py] ([get], [_nested_get],
    [_nested_set], [_get_tokenized_keypath], [drop_keys],
    [impute_enum_values]) and of [Mapper._unpack_tuple_keys] and
    [Mapper._get_keys_to_drop_set] from [pydian/mapping.py], together with
    the part of the [jmespath] library that [_nested_get] calls. *)

From Stdlib Require Import ZArith Ascii String List Bool Lia.
From stdpp Require Import base decidable countable gmap strings list.

Set Warnings "-register-all".

Local Open Scope string_scope.
Local Open Scope Z_scope.

(** ** Data model *)

(** A member of a tokenized key path, [str | int] in the source.  The same
    type serves as the key type of Python dictionaries: [res[k] = target]
    stores under whatever token it is given. *)
Inductive token : Type :=
  | TStr (s : string)
  | TInt (i : Z).

#[global] Instance token_eq_dec : EqDecision token.
Proof. solve_decision. Defined.

#[global] Instance token_countable : Countable token.
Proof.
  refine (inj_countable'
    (fun t => match t with TStr s => inl s | TInt i => inr i end)
    (fun x => match x with inl s => TStr s | inr i => TInt i end) _).
  intros []; reflexivity.
Defined.

(** Modelled from the spec: the payload of a literal wrapper.  The class
    [KEEP] lives in [pydian/lib/types.py], which is not part of the sources
    at hand; the spec describes it as a value that wraps an underlying
    literal, read through [.value]. *)
Inductive literal : Type :=
  | LNone
  | LBool (b : bool)
  | LInt (i : Z)
  | LStr (s : string).

(** Python values that occur in the trees handled by the library.
    Dictionaries keep insertion order, hence association lists.

    Modelled from the spec: [VDrop] and [VKeep] stand for instances of
    [DROP] (called [RelativeObjectLevel] in [mapping.py]) and [KEEP], both
    declared in [pydian/lib], which is not part of the sources at hand.  A
    prune directive carries an integer level read through [.value]; it is a
    plain enumeration member, so it is truthy and supports neither
    subscripting nor [.get]. *)
Inductive value : Type :=
  | VNone
  | VBool (b : bool)
  | VInt (i : Z)
  | VStr (s : string)
  | VList (l : list value)
  | VTuple (l : list value)
  | VDict (d : list (token * value))
  | VDrop (level : Z)
  | VKeep (payload : literal).

Definition value_of_literal (p : literal) : value :=
  match p with
  | LNone => VNone
  | LBool b => VBool b
  | LInt i => VInt i
  | LStr s => VStr s
  end.

(** Induction over values that also reaches inside lists, tuples and
    dictionaries. *)
Section value_induction.
Variable P : value -> Prop.
Hypothesis HNone : P VNone.
Hypothesis HBool : forall b, P (VBool b).
Hypothesis HInt : forall i, P (VInt i).
Hypothesis HStr : forall s, P (VStr s).
Hypothesis HList : forall l, Forall P l -> P (VList l).
Hypothesis HTuple : forall l, Forall P l -> P (VTuple l).
Hypothesis HDict : forall d, Forall (fun kv => P (snd kv)) d -> P (VDict d).
Hypothesis HDrop : forall z, P (VDrop z).
Hypothesis HKeep : forall p, P (VKeep p).

Fixpoint value_ind' (v : value) : P v :=
  match v with
  | VNone => HNone
  | VBool b => HBool b
  | VInt i => HInt i
  | VStr s => HStr s
  | VList l =>
      HList l ((fix go (l : list value) : Forall P l :=
                  match l with
                  | [] => List.Forall_nil P
                  | x :: r => List.Forall_cons P x r (value_ind' x) (go r)
                  end) l)
  | VTuple l =>
      HTuple l ((fix go (l : list value) : Forall P l :=
                   match l with
                   | [] => List.Forall_nil P
                   | x :: r => List.Forall_cons P x r (value_ind' x) (go r)
                   end) l)
  | VDict d =>
      HDict d ((fix go (d : list (token * value))
                  : Forall (fun kv => P (snd kv)) d :=
                  match d with
                  | [] => List.Forall_nil _
                  | kv :: r =>
                      List.Forall_cons (fun kv => P (snd kv)) kv r
                        (value_ind' (snd kv)) (go r)
                  end) d)
  | VDrop z => HDrop z
  | VKeep p => HKeep p
  end.
End value_induction.

(** Exceptions that can leave the modelled functions. *)
Inductive exn : Type :=
  | JMESPathError
      (* [jmespath] rejected the expression, or the expression uses a
         construct outside the modelled part of the language *)
  | KeyError (k : token)
  | TypeError
  | UserError (msg : string)
      (* raised by a caller-supplied function *)
  | ApplyFailed (fn : string) (val : value) (key : string) (cause : exn)
      (* RuntimeError(f"`apply` call {fn} failed for value: {res} at key: {key}, {e}") *)
  | DropLevelInvalid (level : Z) (key : string).
      (* RuntimeError(f"Error: DROP level {v} at {key} is invalid") *)

Inductive result (A : Type) : Type :=
  | Ok (a : A)
  | Raise (e : exn).
Arguments Ok {A} a.
Arguments Raise {A} e.

#[global] Instance result_ret : MRet result := fun A a => Ok a.

#[global] Instance result_bind : MBind result := fun A B f r =>
  match r with
  | Ok a => f a
  | Raise e => Raise e
  end.

(** Python truthiness ([if v: ...]). *)
Definition truthy (v : value) : bool :=
  match v with
  | VNone => false
  | VBool b => b
  | VInt i => negb (i =? 0)
  | VStr s => negb (String.eqb s "")
  | VList l => match l with [] => false | _ => true end
  | VTuple l => match l with [] => false | _ => true end
  | VDict d => match d with [] => false | _ => true end
  | VDrop _ => true
  | VKeep _ => true
  end.

Definition is_none (v : value) : bool :=
  match v with VNone => true | _ => false end.

(** ** Python string operations used on keys *)

Module PyStr.

(** [c in s] for a one-character [c]. *)
Fixpoint contains (c : ascii) (s : string) : bool :=
  match s with
  | EmptyString => false
  | String a r => if Ascii.eqb a c then true else contains c r
  end.

(** [s.replace(a, b)] for one-character [a] and [b]. *)
Fixpoint replace (a b : ascii) (s : string) : string :=
  match s with
  | EmptyString => EmptyString
  | String c r => String (if Ascii.eqb c a then b else c) (replace a b r)
  end.

(** [s.replace(a, "")] for a one-character [a]. *)
Fixpoint remove (a : ascii) (s : string) : string :=
  match s with
  | EmptyString => EmptyString
  | String c r => if Ascii.eqb c a then remove a r else String c (remove a r)
  end.

(** [s.endswith(suf)]: some tail of [s] is [suf]. *)
Fixpoint endswith (s suf : string) : bool :=
  if String.eqb s suf then true
  else match s with
       | EmptyString => false
       | String _ r => endswith r suf
       end.

(** [s.removesuffix(suf)]. *)
Definition removesuffix (s suf : string) : string :=
  if endswith s suf
  then String.substring 0 (String.length s - String.length suf) s
  else s.

(** [s.removeprefix(pre)]. *)
Definition removeprefix (s pre : string) : string :=
  if String.prefix pre s
  then String.substring (String.length pre)
         (String.length s - String.length pre) s
  else s.

(** [s.split(sep)] for a one-character [sep]; never returns the empty
    list. *)
Fixpoint split (sep : ascii) (s : string) : list string :=
  match s with
  | EmptyString => [EmptyString]
  | String c r =>
      if Ascii.eqb c sep then EmptyString :: split sep r
      else match split sep r with
           | [] => [String c EmptyString]
           | w :: ws => String c w :: ws
           end
  end.

Definition is_digit (c : ascii) : bool :=
  let n := nat_of_ascii c in (48 <=? n)%nat && (n <=? 57)%nat.

Fixpoint all_digits (s : string) : bool :=
  match s with
  | EmptyString => true
  | String c r => is_digit c && all_digits r
  end.

(** [s.isnumeric()] on ASCII text: non-empty and made of decimal digits.
    Python's method also holds of numeric characters outside ASCII
    (superscripts, the digits of other scripts), on some of which [int]
    raises; the strings of this development stand for ASCII text, and a
    statement about names that are not otherwise constrained asks for it
    ([ascii_text]). *)
Definition isnumeric (s : string) : bool :=
  match s with
  | EmptyString => false
  | _ => all_digits s
  end.

Fixpoint digits_value (acc : Z) (s : string) : Z :=
  match s with
  | EmptyString => acc
  | String c r => digits_value (10 * acc + (Z.of_nat (nat_of_ascii c) - 48)) r
  end.

(** [int(s)] where [s] is an optional minus sign followed by digits. *)
Definition to_int (s : string) : Z :=
  match s with
  | String "-"%char r => - digits_value 0 r
  | _ => digits_value 0 s
  end.

Definition digit_char (n : nat) : ascii := ascii_of_nat (48 + n).

Fixpoint nat_digits (fuel n : nat) (acc : string) : string :=
  match fuel with
  | O => acc
  | S fuel' =>
      let acc' := String (digit_char (n mod 10)) acc in
      match (n / 10)%nat with
      | O => acc'
      | q => nat_digits fuel' q acc'
      end
  end.

(** [str(n)] for a natural number. *)
Definition of_nat (n : nat) : string := nat_digits (S n) n EmptyString.

(** [str(i)] for an integer. *)
Definition of_Z (i : Z) : string :=
  if i <? 0 then String "-"%char (of_nat (Z.to_nat (- i)))
  else of_nat (Z.to_nat i).

End PyStr.

(** ** Tokenized key paths *)

(** [_get_tokenized_keypath]: brackets become dots, the key is split on
    dots, and the pieces that read as integers become integers. *)
Definition _get_tokenized_keypath (key : string) : list token :=
  let tokenized_key := PyStr.remove "]" (PyStr.replace "[" "." key) in
  let keypath := PyStr.split "." tokenized_key in
  map (fun k => if PyStr.isnumeric (PyStr.removeprefix k "-")
                then TInt (PyStr.to_int k) else TStr k) keypath.

Example tokenized_docstring :
  _get_tokenized_keypath "a[0].b[-1].c"
  = [TStr "a"; TInt 0; TStr "b"; TInt (-1); TStr "c"].
Proof. reflexivity. Qed.

(** ** Python containers *)

(** [d[k]] / [d.get(k)]: first binding of [k]. *)
Fixpoint dict_get (k : token) (d : list (token * value)) : option value :=
  match d with
  | [] => None
  | (k', v) :: r => if decide (k' = k) then Some v else dict_get k r
  end.

(** [d[k] = v]: overwrite in place, or append a new binding. *)
Fixpoint dict_set (k : token) (v : value) (d : list (token * value))
  : list (token * value) :=
  match d with
  | [] => [(k, v)]
  | (k', v') :: r =>
      if decide (k' = k) then (k, v) :: r else (k', v') :: dict_set k v r
  end.

(** Position denoted by a Python index in a sequence of length [n]
    ([None] stands for [IndexError]). *)
Definition py_position (n : nat) (i : Z) : option nat :=
  if (0 <=? i) && (i <? Z.of_nat n) then Some (Z.to_nat i)
  else if (i <? 0) && (- Z.of_nat n <=? i) then Some (Z.to_nat (Z.of_nat n + i))
  else None.

(** [l[i]] on a list or tuple. *)
Definition py_index (l : list value) (i : Z) : option value :=
  n ← py_position (length l) i; l !! n.

(** Bound of a slice, clamped as [slice.indices] does for step 1. *)
Definition py_slice_bound (n : nat) (dflt : nat) (b : option Z) : nat :=
  match b with
  | None => dflt
  | Some i =>
      if i <? 0 then Z.to_nat (Z.max 0 (Z.of_nat n + i))
      else Nat.min n (Z.to_nat i)
  end.

(** [l[start:stop]]. *)
Definition py_slice (l : list value) (start stop : option Z) : list value :=
  let n := length l in
  let a := py_slice_bound n 0%nat start in
  let b := py_slice_bound n n stop in
  take (b - a)%nat (drop a l).

(** [l[:stop]] on a key path. *)
Definition keypath_upto (kp : list token) (stop : Z) : list token :=
  let n := length kp in
  take (if stop <? 0 then Z.to_nat (Z.max 0 (Z.of_nat n + stop))
        else Nat.min n (Z.to_nat stop)) kp.

(** ** The part of [jmespath] reached by the path grammar

    [jmespath.search(expression, data)] lexes and parses the expression and
    interprets the tree on the data.  The lexer, the Pratt parser and the
    interpreter below follow [jmespath/lexer.py], [jmespath/parser.py] and
    [jmespath/visitor.py] for identifiers, [.], [*], [[n]], [[a:b]], [[*]],
    [[]] and multi-select lists.  The other constructs of the language
    (quoted identifiers, literals, pipes, filters, comparisons, functions,
    hashes, slice steps) are outside the model: an expression that uses them
    is reported as [JMESPathError], exactly like one that the library
    rejects. *)
Module JMESPath.

Inductive jtoken : Type :=
  | TkIdent (s : string)
  | TkNumber (n : Z)
  | TkDot
  | TkStar
  | TkLBracket
  | TkRBracket
  | TkComma
  | TkColon
  | TkFlatten.

Inductive expr : Type :=
  | EField (name : string)
  | EIndex (i : Z)
  | ESlice (start stop : option Z)
  | EIdentity
  | ESubexpression (children : list expr)
  | EIndexExpression (children : list expr)
  | EProjection (lhs rhs : expr)
  | EValueProjection (lhs rhs : expr)
  | EFlatten (node : expr)
  | EMultiSelectList (children : list expr).

(** *** Lexer *)

Definition is_letter (c : ascii) : bool :=
  let n := nat_of_ascii c in
  ((65 <=? n) && (n <=? 90) || (97 <=? n) && (n <=? 122))%nat.

Definition start_identifier (c : ascii) : bool :=
  is_letter c || Ascii.eqb c "_".

Definition valid_identifier (c : ascii) : bool :=
  is_letter c || PyStr.is_digit c || Ascii.eqb c "_".

Definition whitespace (c : ascii) : bool :=
  let n := nat_of_ascii c in
  ((n =? 32) || (n =? 9) || (n =? 10) || (n =? 13))%nat.

Definition simple_token (c : ascii) : option jtoken :=
  if Ascii.eqb c "." then Some TkDot
  else if Ascii.eqb c "*" then Some TkStar
  else if Ascii.eqb c "]" then Some TkRBracket
  else if Ascii.eqb c "," then Some TkComma
  else if Ascii.eqb c ":" then Some TkColon
  else None.

Inductive lex_state : Type :=
  | LxStart
  | LxIdent (buff : string)
  | LxNumber (buff : string).

Definition snoc (s : string) (c : ascii) : string :=
  String.append s (String c EmptyString).

(** Token for a consumed number; a lone minus sign is a lexer error. *)
Definition number_token (buff : string) : option jtoken :=
  if String.eqb buff "-" then None else Some (TkNumber (PyStr.to_int buff)).

Fixpoint tokenize_from (st : lex_state) (s : string) : option (list jtoken) :=
  match s with
  | EmptyString =>
      match st with
      | LxStart => Some []
      | LxIdent buff => Some [TkIdent buff]
      | LxNumber buff => t ← number_token buff; Some [t]
      end
  | String c r =>
      let start : option (list jtoken) :=
        match simple_token c with
        | Some t => cons t <$> tokenize_from LxStart r
        | None =>
            if start_identifier c
            then tokenize_from (LxIdent (String c EmptyString)) r
            else if whitespace c then tokenize_from LxStart r
            else if Ascii.eqb c "["
            then match r with
                 | String "]"%char r' => cons TkFlatten <$> tokenize_from LxStart r'
                 | String "?"%char _ => None
                 | _ => cons TkLBracket <$> tokenize_from LxStart r
                 end
            else if PyStr.is_digit c
            then tokenize_from (LxNumber (String c EmptyString)) r
            else if Ascii.eqb c "-"
            then tokenize_from (LxNumber (String c EmptyString)) r
            else None
        end in
      match st with
      | LxStart => start
      | LxIdent buff =>
          if valid_identifier c then tokenize_from (LxIdent (snoc buff c)) r
          else cons (TkIdent buff) <$> start
      | LxNumber buff =>
          if PyStr.is_digit c then tokenize_from (LxNumber (snoc buff c)) r
          else t ← number_token buff; cons t <$> start
      end
  end.

Definition tokenize (expression : string) : option (list jtoken) :=
  match expression with
  | EmptyString => None
  | _ => tokenize_from LxStart expression
  end.

(** *** Parser *)

Definition bp_flatten : nat := 9.
Definition bp_star : nat := 20.
Definition bp_dot : nat := 40.
Definition bp_lbracket : nat := 55.
Definition projection_stop : nat := 10.

(** Binding power of the current token; the end of input counts as
    [eof]. *)
Definition binding_power (ts : list jtoken) : nat :=
  match ts with
  | TkFlatten :: _ => bp_flatten
  | TkStar :: _ => bp_star
  | TkDot :: _ => bp_dot
  | TkLBracket :: _ => bp_lbracket
  | _ => 0
  end.

Definition parsed : Type := option (expr * list jtoken).

(** [_parse_slice_expression]: up to two colons, numbers fill the part
    under the cursor. *)
Fixpoint parse_slice_expression (ts : list jtoken) (index : nat)
    (start stop step : option Z) : parsed :=
  match ts with
  | TkRBracket :: ts' =>
      match step with
      | None => Some (ESlice start stop, ts')
      | Some _ => None
      end
  | TkColon :: ts' =>
      if (S index =? 3)%nat then None
      else parse_slice_expression ts' (S index) start stop step
  | TkNumber n :: ts' =>
      match index with
      | 0%nat => parse_slice_expression ts' index (Some n) stop step
      | 1%nat => parse_slice_expression ts' index start (Some n) step
      | _ => parse_slice_expression ts' index start stop (Some n)
      end
  | _ => None
  end.

(** [_parse_index_expression], entered after the opening bracket. *)
Definition parse_index_expression (ts : list jtoken) : parsed :=
  match ts with
  | TkColon :: _ | _ :: TkColon :: _ =>
      parse_slice_expression ts 0 None None None
  | TkNumber n :: TkRBracket :: ts' => Some (EIndex n, ts')
  | _ => None
  end.

Definition is_slice (e : expr) : bool :=
  match e with ESlice _ _ => true | _ => false end.

Fixpoint expression (fuel : nat) (bp : nat) (ts : list jtoken) {struct fuel}
  : parsed :=
  match fuel with
  | O => None
  | S f =>
      match ts with
      | [] => None
      | t :: ts1 =>
          '(lhs, ts2) ← token_nud f t ts1;
          led_loop f bp lhs ts2
      end
  end

with token_nud (fuel : nat) (t : jtoken) (ts : list jtoken) {struct fuel}
  : parsed :=
  match fuel with
  | O => None
  | S f =>
      match t with
      | TkIdent s => Some (EField s, ts)
      | TkStar =>
          match ts with
          | TkRBracket :: _ => Some (EValueProjection EIdentity EIdentity, ts)
          | _ =>
              '(rhs, ts') ← parse_projection_rhs f bp_star ts;
              Some (EValueProjection EIdentity rhs, ts')
          end
      | TkLBracket =>
          match ts with
          | TkNumber _ :: _ | TkColon :: _ =>
              '(rhs, ts') ← parse_index_expression ts;
              project_if_slice f EIdentity rhs ts'
          | TkStar :: TkRBracket :: ts' =>
              '(rhs, ts'') ← parse_projection_rhs f bp_star ts';
              Some (EProjection EIdentity rhs, ts'')
          | _ => parse_multi_select_list f ts []
          end
      | TkFlatten =>
          '(rhs, ts') ← parse_projection_rhs f bp_flatten ts;
          Some (EProjection (EFlatten EIdentity) rhs, ts')
      | _ => None
      end
  end

with led_loop (fuel : nat) (bp : nat) (lhs : expr) (ts : list jtoken)
    {struct fuel} : parsed :=
  match fuel with
  | O => None
  | S f =>
      if (bp <? binding_power ts)%nat then
        match ts with
        | TkDot :: ts1 =>
            match ts1 with
            | TkStar :: ts2 =>
                '(rhs, ts') ← parse_projection_rhs f bp_dot ts2;
                led_loop f bp (EValueProjection lhs rhs) ts'
            | _ =>
                '(rhs, ts') ← parse_dot_rhs f bp_dot ts1;
                match lhs with
                | ESubexpression cs =>
                    led_loop f bp (ESubexpression (cs ++ [rhs])) ts'
                | _ => led_loop f bp (ESubexpression [lhs; rhs]) ts'
                end
            end
        | TkLBracket :: ts1 =>
            match ts1 with
            | TkNumber _ :: _ | TkColon :: _ =>
                '(rhs, ts') ← parse_index_expression ts1;
                match lhs with
                | EIndexExpression cs =>
                    led_loop f bp (EIndexExpression (cs ++ [rhs])) ts'
                | _ =>
                    '(lhs', ts'') ← project_if_slice f lhs rhs ts';
                    led_loop f bp lhs' ts''
                end
            | TkStar :: TkRBracket :: ts2 =>
                '(rhs, ts') ← parse_projection_rhs f bp_star ts2;
                led_loop f bp (EProjection lhs rhs) ts'
            | _ => None
            end
        | TkFlatten :: ts1 =>
            '(rhs, ts') ← parse_projection_rhs f bp_flatten ts1;
            led_loop f bp (EProjection (EFlatten lhs) rhs) ts'
        | _ => None
        end
      else Some (lhs, ts)
  end

with project_if_slice (fuel : nat) (lhs rhs : expr) (ts : list jtoken)
    {struct fuel} : parsed :=
  match fuel with
  | O => None
  | S f =>
      let index_expr := EIndexExpression [lhs; rhs] in
      if is_slice rhs then
        '(rhs, ts') ← parse_projection_rhs f bp_star ts;
        Some (EProjection index_expr rhs, ts')
      else Some (index_expr, ts)
  end

with parse_projection_rhs (fuel : nat) (bp : nat) (ts : list jtoken)
    {struct fuel} : parsed :=
  match fuel with
  | O => None
  | S f =>
      if (binding_power ts <? projection_stop)%nat then Some (EIdentity, ts)
      else match ts with
           | TkLBracket :: _ => expression f bp ts
           | TkDot :: ts1 => parse_dot_rhs f bp ts1
           | _ => None
           end
  end

with parse_dot_rhs (fuel : nat) (bp : nat) (ts : list jtoken) {struct fuel}
  : parsed :=
  match fuel with
  | O => None
  | S f =>
      match ts with
      | TkIdent _ :: _ | TkStar :: _ => expression f bp ts
      | TkLBracket :: ts1 => parse_multi_select_list f ts1 []
      | _ => None
      end
  end

with parse_multi_select_list (fuel : nat) (ts : list jtoken)
    (expressions : list expr) {struct fuel} : parsed :=
  match fuel with
  | O => None
  | S f =>
      '(e, ts1) ← expression f 0 ts;
      match ts1 with
      | TkRBracket :: ts2 => Some (EMultiSelectList (expressions ++ [e]), ts2)
      | TkComma :: ts2 => parse_multi_select_list f ts2 (expressions ++ [e])
      | _ => None
      end
  end.

(** [Parser.parse]: one expression, then the end of input. *)
Definition parse (expression_text : string) : option expr :=
  ts ← tokenize expression_text;
  '(e, rest) ← expression (8 * length ts + 8) 0 ts;
  match rest with
  | [] => Some e
  | _ => None
  end.

(** *** Interpreter *)

Definition omit_none (l : list value) : list value :=
  List.filter (fun v => negb (is_none v)) l.

Definition flatten_once (l : list value) : list value :=
  List.concat (List.map (fun el => match el with
                                   | VList inner => inner
                                   | _ => [el]
                                   end) l).

Fixpoint visit (node : expr) (v : value) {struct node} : value :=
  match node with
  | EField name =>
      match v with
      | VDict d => default VNone (dict_get (TStr name) d)
      | _ => VNone
      end
  | EIndex i =>
      match v with
      | VList l => default VNone (py_index l i)
      | _ => VNone
      end
  | ESlice start stop =>
      match v with
      | VList l => VList (py_slice l start stop)
      | _ => VNone
      end
  | EIdentity => v
  | ESubexpression children | EIndexExpression children =>
      (fix visit_all (cs : list expr) (acc : value) : value :=
         match cs with
         | [] => acc
         | c :: r => visit_all r (visit c acc)
         end) children v
  | EProjection lhs rhs =>
      match visit lhs v with
      | VList base => VList (omit_none (List.map (visit rhs) base))
      | _ => VNone
      end
  | EValueProjection lhs rhs =>
      match visit lhs v with
      | VDict d => VList (omit_none (List.map (fun kv => visit rhs (snd kv)) d))
      | _ => VNone
      end
  | EFlatten node' =>
      match visit node' v with
      | VList base => VList (flatten_once base)
      | _ => VNone
      end
  | EMultiSelectList children =>
      if is_none v then VNone
      else VList (List.map (fun c => visit c v) children)
  end.

(** [jmespath.search(expression, data)]. *)
Definition search (expression_text : string) (data : value) : result value :=
  match parse expression_text with
  | Some e => Ok (visit e data)
  | None => Raise JMESPathError
  end.

End JMESPath.

Example parse_chain :
  JMESPath.parse "a.b[0].c"
  = Some (JMESPath.ESubexpression
            [JMESPath.EField "a";
             JMESPath.EIndexExpression [JMESPath.EField "b"; JMESPath.EIndex 0];
             JMESPath.EField "c"]).
Proof. vm_compute. reflexivity. Qed.

Example parse_wildcard :
  JMESPath.parse "l[*].x"
  = Some (JMESPath.EProjection (JMESPath.EField "l") (JMESPath.EField "x")).
Proof. vm_compute. reflexivity. Qed.

(** ** [pydian/dicts.py] *)

(** Lines 79-88 of [_nested_get]: the key loses a trailing [[*]],
    parentheses become brackets, [jmespath.search] does the resolution, and
    a list found through a parenthesised key becomes a tuple. *)
Definition _nested_search (source : value) (key : string) : result value :=
  let key := if PyStr.endswith key "[*]" then PyStr.removesuffix key "[*]"
             else key in
  let has_tuple := PyStr.contains "(" key && PyStr.contains ")" key in
  if has_tuple then
    let key := PyStr.replace ")" "]" (PyStr.replace "(" "[" key) in
    res ← JMESPath.search key source;
    mret (match res with VList l => VTuple l | _ => res end)
  else JMESPath.search key source.

(** [_nested_get]: [default] replaces a null result, or the null members of
    a list result. *)
Definition _nested_get (source : value) (key : string) (default : value)
  : result value :=
  res ← _nested_search source key;
  let res := match res with
             | VList l =>
                 VList (List.map (fun r => if is_none r then default else r) l)
             | _ => res
             end in
  mret (if is_none res then default else res).

(** Modelled from the spec: [flatten_list] of [pydian/lib/util.py], which is
    not part of the sources at hand; it recursively flattens nested
    sequences into one flat sequence, preserving order. *)
Fixpoint flatten_value (v : value) : list value :=
  match v with
  | VList l =>
      (fix go (l : list value) : list value :=
         match l with
         | [] => []
         | x :: r => (flatten_value x ++ go r)%list
         end) l
  | _ => [v]
  end.

Definition flatten_list (l : list value) : list value :=
  flatten_value (VList l).

(** A caller-supplied unary function: its printed name and what a call
    returns or raises. *)
Record ApplyFunc : Type := {
  fn_name : string;
  fn_call : value -> result value
}.

(** One invocation of a caller-supplied function: which one, on what. *)
Definition call : Type := (string * value)%type.

(** The [for fn in apply] loop of [get]: the calls made, in order, and the
    value or the error the loop ends with. *)
Fixpoint apply_loop (key : string) (fns : list ApplyFunc) (res : value)
  : list call * result value :=
  match fns with
  | [] => ([], Ok res)
  | fn :: rest =>
      match fn_call fn res with
      | Raise e =>
          ([(fn_name fn, res)], Raise (ApplyFailed (fn_name fn) res key e))
      | Ok res' =>
          if is_none res' then ([(fn_name fn, res)], Ok res')
          else let '(calls, r) := apply_loop key rest res' in
               ((fn_name fn, res) :: calls, r)
      end
  end.

(** The first statement of [get]: a list source is put under the key
    ["_"], and the key is prefixed accordingly. *)
Definition list_source (source : value) (key : string) : value * string :=
  match source with
  | VList _ => (VDict [(TStr "_", source)], String.append "_" key)
  | _ => (source, key)
  end.

(** [get] up to the [apply] chain: resolution, [flatten], [only_if]. *)
Definition get_before_apply (source : value) (key : string) (default : value)
    (only_if : option (value -> result bool)) (flatten : bool)
  : result value :=
  res ← _nested_get source key default;
  let res := if flatten
             then match res with
                  | VList l => VList (flatten_list l)
                  | _ => res
                  end
             else res in
  match only_if with
  | Some cond =>
      if is_none res then Ok res
      else b ← cond res; mret (if b : bool then res else VNone)
  | None => Ok res
  end.

(** [get].  [apply] is the sequence of functions to chain ([[]] for
    [None], one element for a single function); [drop_level] is the level
    of the [DROP] member, if one is given.  The result comes with the calls
    made to the [apply] functions. *)
Definition get (source : value) (key : string) (default : value)
    (apply : list ApplyFunc) (only_if : option (value -> result bool))
    (drop_level : option Z) (flatten : bool) : list call * result value :=
  let '(source, key) := list_source source key in
  match get_before_apply source key default only_if flatten with
  | Raise e => ([], Raise e)
  | Ok res =>
      let '(calls, r) :=
        match apply with
        | [] => ([], Ok res)
        | _ => if is_none res then ([], Ok res)
               else apply_loop key apply res
        end in
      (calls,
       res ← r;
       mret (match drop_level with
             | Some level => if is_none res then VDrop level else res
             | None => res
             end))
  end.

(** How an indexing step of [_nested_set] ends. *)
Inductive outcome : Type :=
  | Assigned
  | CaughtIndexError
  | Uncaught (e : exn).

Definition string_index (s : string) (i : Z) : option value :=
  n ← py_position (String.length s) i;
  c ← String.get n s;
  Some (VStr (String c EmptyString)).

(** [obj[k]]: the member, or the exception raised. *)
Definition getitem (obj : value) (k : token) : value + outcome :=
  match obj, k with
  | VDict d, _ =>
      match dict_get k d with
      | Some child => inl child
      | None => inr (Uncaught (KeyError k))
      end
  | VList l, TInt i | VTuple l, TInt i =>
      match py_index l i with
      | Some child => inl child
      | None => inr CaughtIndexError
      end
  | VStr s, TInt i =>
      match string_index s i with
      | Some child => inl child
      | None => inr CaughtIndexError
      end
  | _, _ => inr (Uncaught TypeError)
  end.

(** [obj[k] = target]: the object afterwards, and how the statement
    ended. *)
Definition setitem (obj : value) (k : token) (target : value)
  : value * outcome :=
  match obj, k with
  | VDict d, _ => (VDict (dict_set k target d), Assigned)
  | VList l, TInt i =>
      match py_position (length l) i with
      | Some n => (VList (<[n:=target]> l), Assigned)
      | None => (obj, CaughtIndexError)
      end
  | _, _ => (obj, Uncaught TypeError)
  end.

(** The object [obj] once its member under [k], reached by [getitem], is in
    state [child].  Members read out of a string are fresh objects. *)
Definition with_member (obj : value) (k : token) (child : value) : value :=
  match obj, k with
  | VDict d, _ => VDict (dict_set k child d)
  | VList l, TInt i =>
      match py_position (length l) i with
      | Some n => VList (<[n:=child]> l)
      | None => obj
      end
  | VTuple l, TInt i =>
      match py_position (length l) i with
      | Some n => VTuple (<[n:=child]> l)
      | None => obj
      end
  | _, _ => obj
  end.

(** The body of the [try] block of [_nested_set], run on the object [obj]:
    [res = res[k]] for all tokens but the last, then [res[last] = target].
    Returns the state of [obj] afterwards; the trees are free of sharing,
    so the state of an object is the state of its members. *)
Fixpoint walk_assign (obj : value) (toks : list token) (target : value)
  : value * outcome :=
  match toks with
  | [] => (obj, CaughtIndexError)
  | [k] => setitem obj k target
  | k :: (_ :: _) as rest =>
      match getitem obj k with
      | inl child =>
          let '(child', o) := walk_assign child rest target in
          (with_member obj k child', o)
      | inr o => (obj, o)
      end
  end.

(** [_nested_set]: the state of the [source] object after the call, and
    what the call returns ([Some] root, or [None]) or raises. *)
Definition _nested_set (source : value) (tokenized_key_list : list token)
    (target : value) : value * result (option value) :=
  let '(source', o) := walk_assign source tokenized_key_list target in
  (source',
   match o with
   | Assigned => Ok (Some source')
   | CaughtIndexError => Ok None
   | Uncaught e => Raise e
   end).

(** How one turn of the [for key in keys_to_drop] loop ends. *)
Inductive loop_step : Type :=
  | Next (res : value) (seen_keys : gset (list token))
  | Return (v : value)
  | Raised (e : exn).

(** The body of the loop of [drop_keys].  [res] names the [source] object
    throughout: [_nested_set] returns that very object, so after
    [res = updated] the name denotes the state the call left it in. *)
Definition drop_keys_body (res : value) (seen_keys : gset (list token))
    (key : string) : loop_step :=
  let curr_keypath := _get_tokenized_keypath key in
  if decide (curr_keypath ∉ seen_keys) then
    match _nested_get res key VNone with
    | Raise e => Raised e
    | Ok v =>
        if truthy v then
          let set_null (curr_keypath : list token) : loop_step :=
            let '(res', r) := _nested_set res curr_keypath VNone in
            match r with
            | Raise e => Raised e
            | Ok updated =>
                let res := match updated with
                           | Some u => if truthy u then u else res'
                           | None => res'
                           end in
                Next res ({[curr_keypath]} ∪ seen_keys)
            end in
          match v with
          | VDrop level =>
              if (level >? 0) || (-1 * level >? Z.of_nat (length curr_keypath))
              then Raised (DropLevelInvalid level key)
              else
                let curr_keypath := keypath_upto curr_keypath level in
                if (length curr_keypath =? 0)%nat then Return (VDict [])
                else set_null curr_keypath
          | _ => set_null curr_keypath
          end
        else Next res seen_keys
    end
  else Next res ({[curr_keypath]} ∪ seen_keys).

(** [drop_keys], from the state reached after some of the keys. *)
Fixpoint drop_keys_from (res : value) (seen_keys : gset (list token))
    (keys_to_drop : list string) : result value :=
  match keys_to_drop with
  | [] => Ok res
  | key :: rest =>
      match drop_keys_body res seen_keys key with
      | Next res' seen_keys' => drop_keys_from res' seen_keys' rest
      | Return v => Ok v
      | Raised e => Raise e
      end
  end.

Definition drop_keys (source : value) (keys_to_drop : list string)
  : result value :=
  drop_keys_from source ∅ keys_to_drop.

(** [impute_enum_values]; the set of keys is iterated in some order, given
    here as a list. *)
Fixpoint impute_enum_values (source : value) (keys_to_impute : list string)
  : result value :=
  match keys_to_impute with
  | [] => Ok source
  | key :: rest =>
      curr_val ← _nested_get source key VNone;
      match curr_val with
      | VKeep literal_val =>
          let '(_, r) := _nested_set source (_get_tokenized_keypath key)
                           (value_of_literal literal_val) in
          res ← r;
          impute_enum_values (default VNone res) rest
      | _ => impute_enum_values source rest
      end
  end.

(** ** [pydian/mapping.py] *)

(** [f"{k}"] for a dictionary key or a key prefix. *)
Definition format_token (k : token) : string :=
  match k with
  | TStr s => s
  | TInt i => PyStr.of_Z i
  end.

(** [isinstance(v, ROL)]. *)
Definition is_rol (v : value) : bool :=
  match v with VDrop _ => true | _ => false end.

(** [Mapper._get_keys_to_drop_set].  The method iterates [source.items()];
    it is only ever called on dictionaries, and on anything else the model
    yields the empty set. *)
Fixpoint _get_keys_to_drop_set (source : value) (key_prefix : token)
    {struct source} : gset token :=
  match source with
  | VDict d =>
      (fix items (d : list (token * value)) : gset token :=
         match d with
         | [] => ∅
         | (k, v) :: d' =>
             let curr_key :=
               if decide (key_prefix ≠ TStr "")
               then TStr (format_token key_prefix +:+ "." +:+ format_token k)
               else k in
             match v with
             | VDict _ => _get_keys_to_drop_set v curr_key
             | VList l =>
                 (fix elements (l : list value) (i : nat) : gset token :=
                    match l with
                    | [] => ∅
                    | item :: l' =>
                        let indexed_keypath :=
                          TStr (format_token curr_key +:+ "["
                                +:+ PyStr.of_nat i +:+ "]") in
                        match item with
                        | VDict _ => _get_keys_to_drop_set item indexed_keypath
                        | _ =>
                            (* [elif isinstance(v, ROL)]: the test is on the
                               list [v], not on [item] *)
                            if is_rol v then {[indexed_keypath]} else ∅
                        end ∪ elements l' (S i)
                    end) l 0%nat
             | VDrop _ => {[curr_key]}
             | _ => ∅
             end ∪ items d'
         end) d
  | _ => ∅
  end.

(** ** [Mapper._unpack_tuple_keys] *)

(** The dictionary a mapping function returns may have tuples as keys; the
    trees of [value] have none, so this method gets trees of its own.  A
    key is a name, an integer, or a tuple of names and integers. *)
Inductive mkey : Type :=
  | KTok (t : token)
  | KTuple (ks : list token).

#[global] Instance mkey_eq_dec : EqDecision mkey.
Proof. solve_decision. Defined.

Inductive mvalue : Type :=
  | MLit (p : literal)
  | MDrop (level : Z)
  | MList (l : list mvalue)
  | MTuple (l : list mvalue)
  | MDict (d : list (mkey * mvalue)).

(** [bool(v)]. *)
Definition mtruthy (v : mvalue) : bool :=
  match v with
  | MLit p => truthy (value_of_literal p)
  | MDrop _ => true
  | MList l | MTuple l => match l with [] => false | _ => true end
  | MDict d => match d with [] => false | _ => true end
  end.

(** [d[k]]: first binding of [k]. *)
Fixpoint mdict_get (k : mkey) (d : list (mkey * mvalue)) : option mvalue :=
  match d with
  | [] => None
  | (k', v) :: r => if decide (k' = k) then Some v else mdict_get k r
  end.

(** [d[k] = v]: overwrite in place, or append a new binding. *)
Fixpoint mdict_set (k : mkey) (v : mvalue) (d : list (mkey * mvalue))
  : list (mkey * mvalue) :=
  match d with
  | [] => [(k, v)]
  | (k', v') :: r =>
      if decide (k' = k) then (k, v) :: r else (k', v') :: mdict_set k v r
  end.

(** [d.pop(k)]: the value and what is left, [None] for [KeyError]. *)
Fixpoint mdict_pop (k : mkey) (d : list (mkey * mvalue))
  : option (mvalue * list (mkey * mvalue)) :=
  match d with
  | [] => None
  | (k', v') :: r =>
      if decide (k' = k) then Some (v', r)
      else '(v, r') ← mdict_pop k r; Some (v, (k', v') :: r')
  end.

(** A key as a value, for the iteration over a dictionary. *)
Definition token_value (t : token) : mvalue :=
  match t with
  | TStr s => MLit (LStr s)
  | TInt i => MLit (LInt i)
  end.

Definition key_value (k : mkey) : mvalue :=
  match k with
  | KTok t => token_value t
  | KTuple ks => MTuple (List.map token_value ks)
  end.

Fixpoint characters (s : string) : list mvalue :=
  match s with
  | EmptyString => []
  | String c r => MLit (LStr (String c EmptyString)) :: characters r
  end.

(** [for obj in x]: the objects the iteration yields, [None] for the
    [TypeError] of an object that is not iterable. *)
Definition py_iter (x : mvalue) : option (list mvalue) :=
  match x with
  | MList l | MTuple l => Some l
  | MDict d => Some (List.map (fun kv => key_value (fst kv)) d)
  | MLit (LStr s) => Some (characters s)
  | MLit _ | MDrop _ => None
  end.

Inductive unpack_exn : Type :=
  | AttributeError
      (* [source.items()] on an object that is not a dictionary *)
  | NotIterable
      (* TypeError of [for obj in res[k]] *)
  | MissingKey (k : mkey)
      (* KeyError of [res[k]] or [res.pop(k)] *)
  | TupleKeyMismatch (k : list token) (vals : mvalue).
      (* RuntimeError(f"For tuple-based keys, expecting tuple of same length
         as {k}, got: {vals}") *)

(** Outcome of a call: a result, an exception, or the recursion allowance
    of the model used up. *)
Inductive unpacked (A : Type) : Type :=
  | Unpacked (a : A)
  | UnpackRaise (e : unpack_exn)
  | OutOfFuel.
Arguments Unpacked {A} a.
Arguments UnpackRaise {A} e.
Arguments OutOfFuel {A}.

(** The list comprehension over [res[k]]: dictionaries are unpacked, other
    objects are kept. *)
Fixpoint unpack_members (rec : mvalue -> unpacked mvalue)
    (objs : list mvalue) : unpacked (list mvalue) :=
  match objs with
  | [] => Unpacked []
  | obj :: r =>
      match match obj with MDict _ => rec obj | _ => Unpacked obj end with
      | Unpacked obj' =>
          match unpack_members rec r with
          | Unpacked r' => Unpacked (obj' :: r')
          | UnpackRaise e => UnpackRaise e
          | OutOfFuel => OutOfFuel
          end
      | UnpackRaise e => UnpackRaise e
      | OutOfFuel => OutOfFuel
      end
  end.

(** [for i, new_key in enumerate(k): res[new_key] = vals[i]], for [k] and
    [vals] of the same length. *)
Fixpoint insert_back (ks : list token) (vs : list mvalue)
    (res : list (mkey * mvalue)) : list (mkey * mvalue) :=
  match ks, vs with
  | new_key :: ks', v :: vs' => insert_back ks' vs' (mdict_set (KTok new_key) v res)
  | _, _ => res
  end.

(** The loop over [source.items()]; [res] is the copy being rewritten and
    [rec] the recursive call. *)
Fixpoint unpack_loop (rec : mvalue -> unpacked mvalue)
    (items : list (mkey * mvalue)) (res : list (mkey * mvalue))
    : unpacked mvalue :=
  match items with
  | [] => Unpacked (MDict res)
  | (k, v) :: rest =>
      match v with
      | MDict _ =>
          match mdict_get k res with
          | None => UnpackRaise (MissingKey k)
          | Some x =>
              match rec x with
              | Unpacked x' => unpack_loop rec rest (mdict_set k x' res)
              | UnpackRaise e => UnpackRaise e
              | OutOfFuel => OutOfFuel
              end
          end
      | MList _ =>
          match mdict_get k res with
          | None => UnpackRaise (MissingKey k)
          | Some x =>
              match py_iter x with
              | None => UnpackRaise NotIterable
              | Some objs =>
                  match unpack_members rec objs with
                  | Unpacked objs' =>
                      unpack_loop rec rest (mdict_set k (MList objs') res)
                  | UnpackRaise e => UnpackRaise e
                  | OutOfFuel => OutOfFuel
                  end
              end
          end
      | _ =>
          match k with
          | KTuple ks =>
              match mdict_pop k res with
              | None => UnpackRaise (MissingKey k)
              | Some (vals, res') =>
                  if mtruthy vals then
                    match vals with
                    | MTuple vs =>
                        if (length ks =? length vs)%nat
                        then unpack_loop rec rest (insert_back ks vs res')
                        else UnpackRaise (TupleKeyMismatch ks vals)
                    | _ => UnpackRaise (TupleKeyMismatch ks vals)
                    end
                  else unpack_loop rec rest res'
              end
          | KTok _ => unpack_loop rec rest res
          end
      end
  end.

(** [Mapper._unpack_tuple_keys] with an allowance [fuel] of nested calls:
    the method recurses on [res[k]], an object of the copy, not on a part of
    its argument. *)
Fixpoint _unpack_tuple_keys_fuel (fuel : nat) (source : mvalue)
    : unpacked mvalue :=
  match source with
  | MDict d =>
      match fuel with
      | O => OutOfFuel
      | S fuel' => unpack_loop (_unpack_tuple_keys_fuel fuel') d d
      end
  | _ => UnpackRaise AttributeError
  end.

(** Nesting depth of a tree. *)
Fixpoint mdepth (m : mvalue) : nat :=
  match m with
  | MLit _ | MDrop _ => O
  | MList l | MTuple l =>
      S ((fix deepest (l : list mvalue) : nat :=
            match l with
            | [] => O
            | x :: r => Nat.max (mdepth x) (deepest r)
            end) l)
  | MDict d =>
      S ((fix deepest (d : list (mkey * mvalue)) : nat :=
            match d with
            | [] => O
            | (_, x) :: r => Nat.max (mdepth x) (deepest r)
            end) d)
  end.

(** [Mapper._unpack_tuple_keys]: the allowance is the depth of the
    argument, which the nested calls never exceed. *)
Definition _unpack_tuple_keys (source : mvalue) : unpacked mvalue :=
  _unpack_tuple_keys_fuel (mdepth source) source.

(** * Vocabulary of the statements *)

(** A path is missing when its resolution comes back null. *)
Definition path_missing (source : value) (key : string) : Prop :=
  _nested_search (fst (list_source source key)) (snd (list_source source key))
  = Ok VNone.

(** Induction over expressions that also reaches the children of
    subexpressions, index expressions and multi-select lists. *)
Section expr_induction.
Import JMESPath.
Variable P : expr -> Prop.
Hypothesis HField : forall name, P (EField name).
Hypothesis HIndex : forall i, P (EIndex i).
Hypothesis HSlice : forall a b, P (ESlice a b).
Hypothesis HIdentity : P EIdentity.
Hypothesis HSub : forall cs, Forall P cs -> P (ESubexpression cs).
Hypothesis HIndexExpr : forall cs, Forall P cs -> P (EIndexExpression cs).
Hypothesis HProj : forall l r, P l -> P r -> P (EProjection l r).
Hypothesis HValueProj : forall l r, P l -> P r -> P (EValueProjection l r).
Hypothesis HFlatten : forall e, P e -> P (EFlatten e).
Hypothesis HMulti : forall cs, Forall P cs -> P (EMultiSelectList cs).

Fixpoint expr_ind' (e : expr) : P e :=
  let all :=
    fix all (cs : list expr) : Forall P cs :=
      match cs with
      | [] => List.Forall_nil P
      | c :: r => List.Forall_cons P c r (expr_ind' c) (all r)
      end in
  match e with
  | EField name => HField name
  | EIndex i => HIndex i
  | ESlice a b => HSlice a b
  | EIdentity => HIdentity
  | ESubexpression cs => HSub cs (all cs)
  | EIndexExpression cs => HIndexExpr cs (all cs)
  | EProjection l r => HProj l r (expr_ind' l) (expr_ind' r)
  | EValueProjection l r => HValueProj l r (expr_ind' l) (expr_ind' r)
  | EFlatten e' => HFlatten e' (expr_ind' e')
  | EMultiSelectList cs => HMulti cs (all cs)
  end.
End expr_induction.

(** One step of resolution by a token: a name looks into a mapping, an
    integer into a list; anything else yields null. *)
Definition jm_step (v : value) (k : token) : value :=
  match k with
  | TStr name => JMESPath.visit (JMESPath.EField name) v
  | TInt i => JMESPath.visit (JMESPath.EIndex i) v
  end.

(** Resolution along a sequence of tokens. *)
Definition jm_walk (v : value) (toks : list token) : value :=
  fold_left jm_step toks v.

(** The token sequence of an expression made of names and indices only. *)
Fixpoint linear (e : JMESPath.expr) : option (list token) :=
  match e with
  | JMESPath.EField name => Some [TStr name]
  | JMESPath.EIndex i => Some [TInt i]
  | JMESPath.ESubexpression cs | JMESPath.EIndexExpression cs =>
      (fix all (cs : list JMESPath.expr) : option (list token) :=
         match cs with
         | [] => Some []
         | c :: r => a ← linear c; b ← all r; Some (a ++ b)%list
         end) cs
  | _ => None
  end.

(** A plain path: no trailing wildcard, no group, and an expression that
    reads exactly the location its tokenized key path names. *)
Definition plain_key (key : string) : bool :=
  negb (PyStr.endswith key "[*]")
  && negb (PyStr.contains "(" key && PyStr.contains ")" key)
  && match JMESPath.parse key with
     | Some e => bool_decide (linear e = Some (_get_tokenized_keypath key))
     | None => false
     end.

(** The calls made and the value reached when every function of [fns]
    returns, none of them null. *)
Fixpoint chain_values (fns : list ApplyFunc) (v : value)
  : option (list call * value) :=
  match fns with
  | [] => Some ([], v)
  | fn :: rest =>
      match fn_call fn v with
      | Ok v' =>
          if is_none v' then None
          else '(calls, w) ← chain_values rest v';
               Some ((fn_name fn, v) :: calls, w)
      | Raise _ => None
      end
  end.

(** Two functions for trying the chain out. *)
Definition fn_succ : ApplyFunc :=
  {| fn_name := "succ";
     fn_call := fun v => match v with
                         | VInt i => Ok (VInt (i + 1))
                         | _ => Raise (UserError "not an int")
                         end |}.

Definition fn_none : ApplyFunc :=
  {| fn_name := "none"; fn_call := fun _ => Ok VNone |}.

Definition fn_str_only : ApplyFunc :=
  {| fn_name := "upper";
     fn_call := fun v => match v with
                         | VStr s => Ok (VStr s)
                         | _ => Raise (UserError "not a str")
                         end |}.

(** Manual indexing, [obj[k1][k2]...]. *)
Fixpoint py_walk (obj : value) (toks : list token) : value + outcome :=
  match toks with
  | [] => inl obj
  | k :: rest =>
      match getitem obj k with
      | inl child => py_walk child rest
      | inr o => inr o
      end
  end.

(** What C3 asks of every call: it either returns the root or returns the
    failure value with the tree as it was. *)
Definition set_succeeds_or_fails_quietly (source : value)
    (tokenized_key_list : list token) (target : value) : Prop :=
  let '(source', r) := _nested_set source tokenized_key_list target in
  r = Ok (Some source') \/ (r = Ok None /\ source' = source).

(** [imputes t t']: [t'] is [t] with some literal wrappers replaced, where
    they stand, by their payload.  Nothing else differs: same entries in
    the same order, same lengths, same values elsewhere. *)
Inductive imputes : value -> value -> Prop :=
  | imputes_same v : imputes v v
  | imputes_keep p : imputes (VKeep p) (value_of_literal p)
  | imputes_list l l' :
      Forall2 imputes l l' -> imputes (VList l) (VList l')
  | imputes_tuple l l' :
      Forall2 imputes l l' -> imputes (VTuple l) (VTuple l')
  | imputes_dict d d' :
      Forall2 (fun kv kv' => fst kv = fst kv' /\ imputes (snd kv) (snd kv'))
        d d' ->
      imputes (VDict d) (VDict d').

(** The relation between two entries of imputed mappings. *)
Definition entry_imputes (kv kv' : token * value) : Prop :=
  fst kv = fst kv' /\ imputes (snd kv) (snd kv').

(** [isinstance(v, KEEP)]. *)
Definition is_keep (v : value) : bool :=
  match v with VKeep _ => true | _ => false end.

(** The reading of C9 that the code does not meet: for every key set the
    pass returns the tree with wrappers replaced where they stand, and
    nothing else changed. *)
Definition imputes_in_place (source : value) (keys_to_impute : list string)
  : Prop :=
  exists res,
    impute_enum_values source keys_to_impute = Ok res /\ imputes source res.

(** [nulled t t']: as far as resolution can see, [t'] is [t] with some
    subtrees replaced by null, possibly with new null entries in
    mappings. *)
Inductive nulled : value -> value -> Prop :=
  | nulled_same v : nulled v v
  | nulled_none v : nulled v VNone
  | nulled_list l l' :
      length l = length l' ->
      (forall n, nulled (default VNone (l !! n)) (default VNone (l' !! n))) ->
      nulled (VList l) (VList l')
  | nulled_tuple l l' : nulled (VTuple l) (VTuple l')
  | nulled_dict d d' :
      (forall k, nulled (default VNone (dict_get k d))
                        (default VNone (dict_get k d'))) ->
      nulled (VDict d) (VDict d').

(** Whether a prune marker occurs anywhere in a value. *)
Fixpoint has_rol (v : value) : bool :=
  match v with
  | VDrop _ => true
  | VList l | VTuple l =>
      (fix any (l : list value) : bool :=
         match l with
         | [] => false
         | x :: r => has_rol x || any r
         end) l
  | VDict d =>
      (fix any (d : list (token * value)) : bool :=
         match d with
         | [] => false
         | (_, x) :: r => has_rol x || any r
         end) d
  | _ => false
  end.

(** The text of a path the way [Mapper._get_keys_to_drop_set] writes it, and
    the docstring of [_get_tokenized_keypath] reads it: names are joined by
    dots, an index [i] is written [[i]]. *)
Fixpoint render_tail (path : list token) : string :=
  match path with
  | [] => ""
  | TStr name :: r => "." +:+ name +:+ render_tail r
  | TInt i :: r => "[" +:+ PyStr.of_Z i +:+ "]" +:+ render_tail r
  end.

Definition render_path (name : string) (path : list token) : string :=
  name +:+ render_tail path.

(** A name that the tokenizer leaves in one piece and does not read as an
    integer. *)
Definition plain_name (s : string) : bool :=
  negb (PyStr.contains "." s) && negb (PyStr.contains "[" s)
  && negb (PyStr.contains "]" s)
  && negb (PyStr.isnumeric (PyStr.removeprefix s "-")).

(** [s.isascii()]: every character is below 128. *)
Fixpoint ascii_text (s : string) : bool :=
  match s with
  | EmptyString => true
  | String c r => (nat_of_ascii c <? 128)%nat && ascii_text r
  end.

(** [ascii_text] for the names of a path. *)
Definition ascii_names (path : list token) : bool :=
  forallb (fun t => match t with TStr s => ascii_text s | TInt _ => true end)
    path.

(** [plain_name] for the names of a path; indices are free. *)
Definition plain_names (path : list token) : bool :=
  forallb (fun t => match t with TStr s => plain_name s | TInt _ => true end)
    path.

(** The pieces between the dots, once brackets are rewritten. *)
Fixpoint dotted_tail (path : list token) : string :=
  match path with
  | [] => ""
  | t :: r => "." +:+ format_token t +:+ dotted_tail r
  end.


(** Names that [jmespath] lexes as unquoted identifiers. *)
Fixpoint all_valid_identifier (s : string) : bool :=
  match s with
  | EmptyString => true
  | String c r => JMESPath.valid_identifier c && all_valid_identifier r
  end.

Definition identifier (s : string) : bool :=
  match s with
  | EmptyString => false
  | String c r => JMESPath.start_identifier c && all_valid_identifier r
  end.

(** [identifier] for the names of a path; indices are free. *)
Definition identifiers (path : list token) : bool :=
  forallb (fun t => match t with TStr s => identifier s | TInt _ => true end)
    path.

(** The tokens [jmespath] sees after the first name of a rendered path. *)
Fixpoint lex_tail (path : list token) : list JMESPath.jtoken :=
  match path with
  | [] => []
  | TStr name :: r => JMESPath.TkDot :: JMESPath.TkIdent name :: lex_tail r
  | TInt i :: r =>
      JMESPath.TkLBracket :: JMESPath.TkNumber i :: JMESPath.TkRBracket
      :: lex_tail r
  end.

(** The indices a path starts with, and what follows them. *)
Fixpoint leading_indices (path : list token) : list token :=
  match path with
  | TInt i :: r => TInt i :: leading_indices r
  | _ => []
  end.

Fixpoint after_indices (path : list token) : list token :=
  match path with
  | TInt _ :: r => after_indices r
  | _ => path
  end.

(** The key a turn of the outer loop of [_get_keys_to_drop_set] works
    with, the paths its inner loop gathers from the tail [l] of the list [v]
    starting at index [i], and the paths one item of the mapping gives. *)
Definition curr_key_of (key_prefix k : token) : token :=
  if decide (key_prefix ≠ TStr "")
  then TStr (format_token key_prefix +:+ "." +:+ format_token k)
  else k.

Definition list_keys (v : value) (curr_key : token)
    : list value -> nat -> gset token :=
  fix elements (l : list value) (i : nat) : gset token :=
    match l with
    | [] => ∅
    | item :: l' =>
        let indexed_keypath :=
          TStr (format_token curr_key +:+ "[" +:+ PyStr.of_nat i +:+ "]") in
        match item with
        | VDict _ => _get_keys_to_drop_set item indexed_keypath
        | _ => if is_rol v then {[indexed_keypath]} else ∅
        end ∪ elements l' (S i)
    end.

Definition item_keys (v : value) (curr_key : token) : gset token :=
  match v with
  | VDict _ => _get_keys_to_drop_set v curr_key
  | VList l => list_keys v curr_key l 0%nat
  | VDrop _ => {[curr_key]}
  | _ => ∅
  end.

(** Paths along which [_get_keys_to_drop_set] descends: names, and
    indices from the front of a list that are followed by a name. *)
Fixpoint collectable (path : list token) : bool :=
  match path with
  | [] => true
  | TStr _ :: r => collectable r
  | TInt i :: r =>
      (0 <=? i) && match r with TStr _ :: _ => collectable r | _ => false end
  end.

(** Trees whose mappings are keyed by distinct identifiers, in the
    mappings and lists the traversal enters. *)
Fixpoint well_keyed (v : value) : bool :=
  match v with
  | VDict d =>
      bool_decide (NoDup (List.map fst d))
      && (fix all (d : list (token * value)) : bool :=
            match d with
            | [] => true
            | (k, x) :: r =>
                match k with TStr s => identifier s | TInt _ => false end
                && well_keyed x && all r
            end) d
  | VList l =>
      (fix all (l : list value) : bool :=
         match l with
         | [] => true
         | x :: r => well_keyed x && all r
         end) l
  | _ => true
  end.

(** Trees all of whose mappings have distinct keys, as every Python
    dictionary has. *)
Fixpoint distinct_keys (m : mvalue) : bool :=
  match m with
  | MLit _ | MDrop _ => true
  | MList l | MTuple l =>
      (fix all (l : list mvalue) : bool :=
         match l with
         | [] => true
         | x :: r => distinct_keys x && all r
         end) l
  | MDict d =>
      bool_decide (NoDup (List.map fst d))
      && (fix all (d : list (mkey * mvalue)) : bool :=
            match d with
            | [] => true
            | (_, x) :: r => distinct_keys x && all r
            end) d
  end.

(** Trees without a tuple key, in the mappings and lists
    [_unpack_tuple_keys] enters; what a tuple holds is not looked at. *)
Fixpoint no_tuple_keys (m : mvalue) : bool :=
  match m with
  | MLit _ | MDrop _ | MTuple _ => true
  | MList l =>
      (fix all (l : list mvalue) : bool :=
         match l with
         | [] => true
         | x :: r => no_tuple_keys x && all r
         end) l
  | MDict d =>
      (fix all (d : list (mkey * mvalue)) : bool :=
         match d with
         | [] => true
         | (k, x) :: r =>
             match k with KTok _ => true | KTuple _ => false end
             && no_tuple_keys x && all r
         end) d
  end.

(** Mappings and lists, the values [_unpack_tuple_keys] looks into. *)
Definition is_container (v : mvalue) : bool :=
  match v with
  | MDict _ | MList _ => true
  | _ => false
  end.

(** Items the loop of [_unpack_tuple_keys] passes over: a name or an
    integer bound to something that is neither a mapping nor a list. *)
Definition flat_items (d : list (mkey * mvalue)) : bool :=
  forallb (fun kv =>
             match fst kv with KTok _ => true | KTuple _ => false end
             && negb (is_container (snd kv))) d.

(** The first character of a numeral: a digit or a minus sign. *)
Definition numeral_start (c : ascii) : bool :=
  PyStr.is_digit c || Ascii.eqb c "-".

(** * Properties *)

(** ** The examples of the documentation *)

Example get_wildcard_example :
  get (VDict [(TStr "a", VDict [(TStr "b",
         VList [VDict [(TStr "c", VInt 1)]; VDict [(TStr "c", VInt 2)]])])])
      "a.b[*].c" VNone [] None None false
  = ([], Ok (VList [VInt 1; VInt 2])).
Proof. vm_compute. reflexivity. Qed.

Example get_group_example :
  get (VDict [(TStr "a", VInt 1); (TStr "b", VInt 2)]) "(a,b)" VNone []
      None None false
  = ([], Ok (VTuple [VInt 1; VInt 2])).
Proof. vm_compute. reflexivity. Qed.

Example get_list_source_example :
  get (VList [VDict [(TStr "x", VInt 1)]; VDict [(TStr "x", VInt 2)]])
      "[-1].x" VNone [] None None false
  = ([], Ok (VInt 2)).
Proof. vm_compute. reflexivity. Qed.

Example get_drop_level_example :
  get (VDict [(TStr "a", VInt 1)]) "b" VNone [] None (Some (-1)) false
  = ([], Ok (VDrop (-1))).
Proof. vm_compute. reflexivity. Qed.

Example drop_keys_example :
  drop_keys (VDict [(TStr "a", VDict [(TStr "b", VDrop (-1)); (TStr "c", VInt 1)]);
                    (TStr "d", VInt 2)])
    ["a.b"]
  = Ok (VDict [(TStr "a", VNone); (TStr "d", VInt 2)]).
Proof. vm_compute. reflexivity. Qed.

(** ** Resolution *)

Lemma default_members_none (l : list value) :
  List.map (fun r => if is_none r then VNone else r) l = l.
Proof.
  induction l as [|x l IH]; simpl; [reflexivity|].
  rewrite IH. destruct x; reflexivity.
Qed.

(** With [None] as the default, [_nested_get] is the bare search. *)
Lemma _nested_get_default_none (source : value) (key : string) :
  _nested_get source key VNone = _nested_search source key.
Proof.
  unfold _nested_get. destruct (_nested_search source key) as [res|e]; simpl;
    [|reflexivity].
  destruct res; simpl; try reflexivity.
  rewrite default_members_none. reflexivity.
Qed.

(** C1. For every tree, every path whose resolution in the tree yields
    nothing, and every default, [get] with that default and neither
    [apply], [only_if], [drop_level] nor [flatten] returns the default, and
    does not raise. *)
Theorem get_missing_returns_default (T : value) (p : string) (D : value) :
  path_missing T p ->
  get T p D [] None None false = ([], Ok D).
Proof.
  unfold path_missing, get, get_before_apply, _nested_get.
  destruct (list_source T p) as [source key]; simpl.
  intros ->. reflexivity.
Qed.

Lemma get_missing_returns_default_witness :
  path_missing
    (VDict [(TStr "a", VDict [(TStr "b", VList [VDict [(TStr "c", VInt 1)]])])])
    "a.b[5].c"
  /\ get (VDict [(TStr "a", VDict [(TStr "b", VList [VDict [(TStr "c", VInt 1)]])])])
       "a.b[5].c" (VInt 0) [] None None false
     = ([], Ok (VInt 0)).
Proof.
  assert (H : path_missing
    (VDict [(TStr "a", VDict [(TStr "b", VList [VDict [(TStr "c", VInt 1)]])])])
    "a.b[5].c") by (vm_compute; reflexivity).
  split; [exact H|].
  exact (get_missing_returns_default _ _ (VInt 0) H).
Defined.

(** *** Plain paths: dotted names and bracketed indices *)

Example plain_key_chain : plain_key "a.b[0].c" = true.
Proof. vm_compute. reflexivity. Qed.

Example plain_key_group : plain_key "a(0)" = false.
Proof. vm_compute. reflexivity. Qed.

Lemma jm_walk_app (v : value) (a b : list token) :
  jm_walk v (a ++ b) = jm_walk (jm_walk v a) b.
Proof. apply fold_left_app. Qed.

Lemma jm_step_none (k : token) : jm_step VNone k = VNone.
Proof. destruct k; reflexivity. Qed.

Lemma jm_walk_none (toks : list token) : jm_walk VNone toks = VNone.
Proof.
  induction toks as [|k toks IH]; simpl; [reflexivity|].
  rewrite jm_step_none. exact IH.
Qed.

Lemma visit_linear (e : JMESPath.expr) :
  forall toks v, linear e = Some toks -> JMESPath.visit e v = jm_walk v toks.
Proof.
  induction e using expr_ind'; intros toks v Hl; simpl in Hl;
    try discriminate.
  - injection Hl as <-. reflexivity.
  - injection Hl as <-. reflexivity.
  - simpl. revert toks v Hl.
    induction H as [|c r Hc _ IH]; intros toks v Hl.
    + injection Hl as <-. reflexivity.
    + destruct (linear c) as [a|] eqn:Ha; [|discriminate]. simpl in Hl.
      match type of Hl with
      | context [mbind _ ?m] => destruct m as [b|] eqn:Hb; [|discriminate]
      end.
      injection Hl as <-.
      rewrite jm_walk_app, <- (Hc a v eq_refl). apply IH. reflexivity.
  - simpl. revert toks v Hl.
    induction H as [|c r Hc _ IH]; intros toks v Hl.
    + injection Hl as <-. reflexivity.
    + destruct (linear c) as [a|] eqn:Ha; [|discriminate]. simpl in Hl.
      match type of Hl with
      | context [mbind _ ?m] => destruct m as [b|] eqn:Hb; [|discriminate]
      end.
      injection Hl as <-.
      rewrite jm_walk_app, <- (Hc a v eq_refl). apply IH. reflexivity.
Qed.

(** Resolving a plain path walks its tokens. *)
Lemma plain_key_search (key : string) (source : value) :
  plain_key key = true ->
  _nested_search source key = Ok (jm_walk source (_get_tokenized_keypath key)).
Proof.
  unfold plain_key, _nested_search, JMESPath.search. intros H.
  apply andb_prop in H as [H Hp]. apply andb_prop in H as [He Ht].
  apply negb_true_iff in He. apply negb_true_iff in Ht.
  rewrite He, Ht.
  destruct (JMESPath.parse key) as [e|]; [|discriminate].
  apply bool_decide_eq_true in Hp.
  rewrite (visit_linear e _ source Hp). reflexivity.
Qed.

Lemma plain_key_get (key : string) (source : value) :
  plain_key key = true ->
  _nested_get source key VNone
  = Ok (jm_walk source (_get_tokenized_keypath key)).
Proof.
  intros H. rewrite _nested_get_default_none. apply plain_key_search, H.
Qed.

(** *** Wildcards *)

Lemma omit_none_no_default (D : value) (l : list value) :
  List.map (fun r => if is_none r then D else r) (JMESPath.omit_none l)
  = JMESPath.omit_none l.
Proof.
  unfold JMESPath.omit_none.
  induction l as [|x l IH]; simpl; [reflexivity|].
  destruct (is_none x) eqn:Hx; simpl; [exact IH|].
  rewrite Hx, IH. reflexivity.
Qed.

(** What [get] makes of ["l[*].x"]: the members of [l] whose [x] is null
    or absent leave no trace in the result, so the default is never used
    for them. *)
Lemma get_wildcard_field (d : list (token * value)) (l : list value)
    (D : value) :
  dict_get (TStr "l") d = Some (VList l) ->
  get (VDict d) "l[*].x" D [] None None false
  = ([], Ok (VList (JMESPath.omit_none
                      (List.map (fun el => jm_step el (TStr "x")) l)))).
Proof.
  intros Hl. unfold get, list_source, get_before_apply, _nested_get.
  assert (Hs : _nested_search (VDict d) "l[*].x"
               = Ok (VList (JMESPath.omit_none
                       (List.map (fun el => jm_step el (TStr "x")) l)))).
  { unfold _nested_search, JMESPath.search.
    change (PyStr.endswith "l[*].x" "[*]") with false.
    change (PyStr.contains "(" "l[*].x" && PyStr.contains ")" "l[*].x")
      with false.
    cbv iota. rewrite parse_wildcard. simpl. rewrite Hl. reflexivity. }
  rewrite Hs. simpl. rewrite omit_none_no_default. reflexivity.
Qed.

(** C2. On the tree [{"l": [{"x": 1}, {}, {"x": 3}]}], [get] with the key
    ["l[*].x"] and the default [0] returns [[1, 3]]: two members for a
    sequence of three, the member without [x] is skipped instead of being
    given the default. *)
Theorem get_wildcard_skips_member_without_field :
  get (VDict [(TStr "l", VList [VDict [(TStr "x", VInt 1)];
                                 VDict [];
                                 VDict [(TStr "x", VInt 3)]])])
      "l[*].x" (VInt 0) [] None None false
  = ([], Ok (VList [VInt 1; VInt 3])).
Proof. vm_compute. reflexivity. Qed.

(** ** The [apply] chain *)

Lemma apply_loop_app (key : string) (pre rest : list ApplyFunc) :
  forall v calls w,
    chain_values pre v = Some (calls, w) ->
    apply_loop key (pre ++ rest) v
    = ((calls ++ fst (apply_loop key rest w))%list,
       snd (apply_loop key rest w)).
Proof.
  induction pre as [|fn pre IH]; intros v calls w H; simpl in H.
  - injection H as <- <-. simpl. destruct (apply_loop key rest v); reflexivity.
  - simpl. destruct (fn_call fn v) as [v'|e]; [|discriminate].
    destruct (is_none v'); [discriminate|].
    destruct (chain_values pre v') as [[calls' w']|] eqn:Hc; [|discriminate].
    simpl in H. injection H as <- <-.
    rewrite (IH _ _ _ Hc). reflexivity.
Qed.

(** C7. In the [apply] chain of [get], once the functions before [fn] have
    returned non-null values: if [fn] raises, [get] raises one error that
    carries the name of [fn], the value it was called on and the key; if
    [fn] returns null, the chain stops there.  Either way the calls made are
    those up to [fn], and no function after it is invoked. *)
Theorem get_apply_chain (source : value) (key : string) (default : value)
    (pre : list ApplyFunc) (fn : ApplyFunc) (post : list ApplyFunc)
    (only_if : option (value -> result bool)) (drop_level : option Z)
    (flatten : bool) (source' : value) (key' : string)
    (v0 : value) (calls : list call) (v : value) :
  list_source source key = (source', key') ->
  get_before_apply source' key' default only_if flatten = Ok v0 ->
  is_none v0 = false ->
  chain_values pre v0 = Some (calls, v) ->
  (forall e, fn_call fn v = Raise e ->
     get source key default (pre ++ fn :: post) only_if drop_level flatten
     = ((calls ++ [(fn_name fn, v)])%list,
        Raise (ApplyFailed (fn_name fn) v key' e)))
  /\ (fn_call fn v = Ok VNone ->
      get source key default (pre ++ fn :: post) only_if drop_level flatten
      = ((calls ++ [(fn_name fn, v)])%list,
         Ok (match drop_level with
             | Some level => VDrop level
             | None => VNone
             end))).
Proof.
  intros Hs Hb Hn Hc.
  assert (Hget : forall c r,
    apply_loop key' (fn :: post) v = (c, r) ->
    get source key default (pre ++ fn :: post) only_if drop_level flatten
    = ((calls ++ c)%list,
       res ← r;
       mret (match drop_level with
             | Some level => if is_none res then VDrop level else res
             | None => res
             end))).
  { intros c r Hl. unfold get. rewrite Hs, Hb, Hn.
    rewrite (apply_loop_app key' pre (fn :: post) v0 calls v Hc), Hl.
    destruct pre; reflexivity. }
  split.
  - intros e He.
    rewrite (Hget [(fn_name fn, v)] (Raise (ApplyFailed (fn_name fn) v key' e))).
    + reflexivity.
    + simpl. rewrite He. reflexivity.
  - intros He. rewrite (Hget [(fn_name fn, v)] (Ok VNone)).
    + destruct drop_level; reflexivity.
    + simpl. rewrite He. reflexivity.
Qed.

Lemma get_apply_chain_witness :
  get (VDict [(TStr "a", VInt 1)]) "a" VNone [fn_succ; fn_str_only; fn_succ]
      None None false
  = ([("succ", VInt 1); ("upper", VInt 2)],
     Raise (ApplyFailed "upper" (VInt 2) "a" (UserError "not a str")))
  /\ get (VDict [(TStr "a", VInt 1)]) "a" VNone [fn_succ; fn_none; fn_succ]
       None (Some (-1)) false
     = ([("succ", VInt 1); ("none", VInt 2)], Ok (VDrop (-1))).
Proof.
  split.
  - refine (proj1 (get_apply_chain (VDict [(TStr "a", VInt 1)]) "a" VNone
             [fn_succ] fn_str_only [fn_succ] None None false
             (VDict [(TStr "a", VInt 1)]) "a" (VInt 1)
             [("succ", VInt 1)] (VInt 2) _ _ _ _) (UserError "not a str") _);
      vm_compute; reflexivity.
  - refine (proj2 (get_apply_chain (VDict [(TStr "a", VInt 1)]) "a" VNone
             [fn_succ] fn_none [fn_succ] None (Some (-1)) false
             (VDict [(TStr "a", VInt 1)]) "a" (VInt 1)
             [("succ", VInt 1)] (VInt 2) _ _ _ _) _);
      vm_compute; reflexivity.
Defined.

(** ** The mutation engine *)

Lemma dict_set_same (k : token) (v : value) (d : list (token * value)) :
  dict_get k d = Some v -> dict_set k v d = d.
Proof.
  induction d as [|[k' v'] d IH]; simpl; [discriminate|].
  destruct (decide (k' = k)) as [->|Hne]; intros H.
  - injection H as ->. reflexivity.
  - rewrite (IH H). reflexivity.
Qed.

Lemma dict_get_set (k : token) (v : value) (d : list (token * value)) :
  dict_get k (dict_set k v d) = Some v.
Proof.
  induction d as [|[k' v'] d IH]; simpl.
  - destruct (decide (k = k)); [reflexivity|contradiction].
  - destruct (decide (k' = k)) as [->|Hne]; simpl.
    + destruct (decide (k = k)); [reflexivity|contradiction].
    + destruct (decide (k' = k)); [contradiction|exact IH].
Qed.

Lemma dict_get_set_ne (k k' : token) (v : value) (d : list (token * value)) :
  k' <> k -> dict_get k' (dict_set k v d) = dict_get k' d.
Proof.
  intros Hne. induction d as [|[k0 v0] d IH]; simpl.
  - destruct (decide (k = k')); [congruence|reflexivity].
  - destruct (decide (k0 = k)) as [->|Hne0]; simpl.
    + destruct (decide (k = k')); [congruence|reflexivity].
    + destruct (decide (k0 = k')); [reflexivity|exact IH].
Qed.

Lemma py_position_lt (n : nat) (i : Z) (m : nat) :
  py_position n i = Some m -> (m < n)%nat.
Proof.
  unfold py_position.
  destruct ((0 <=? i) && (i <? Z.of_nat n)) eqn:H1.
  - intros [= <-]. apply andb_prop in H1 as [? ?]. lia.
  - destruct ((i <? 0) && (- Z.of_nat n <=? i)) eqn:H2; [|discriminate].
    intros [= <-]. apply andb_prop in H2 as [? ?]. lia.
Qed.

Lemma py_index_some (l : list value) (i : Z) (v : value) :
  py_index l i = Some v ->
  exists n, py_position (length l) i = Some n /\ l !! n = Some v.
Proof.
  unfold py_index. destruct (py_position (length l) i) as [n|]; simpl;
    [|discriminate].
  intros H. exists n. split; [reflexivity|exact H].
Qed.

Lemma with_member_same (obj : value) (k : token) (child : value) :
  getitem obj k = inl child -> with_member obj k child = obj.
Proof.
  destruct obj, k; simpl; try discriminate; try reflexivity.
  - destruct (py_index l i) as [c|] eqn:Hc; [|discriminate].
    intros [= ->]. apply py_index_some in Hc as (n & -> & Hn).
    rewrite (list_insert_id _ _ _ Hn). reflexivity.
  - destruct (py_index l i) as [c|] eqn:Hc; [|discriminate].
    intros [= ->]. apply py_index_some in Hc as (n & -> & Hn).
    rewrite (list_insert_id _ _ _ Hn). reflexivity.
  - destruct (dict_get (TStr s) d) as [c|] eqn:Hc; [|discriminate].
    intros [= ->]. rewrite (dict_set_same _ _ _ Hc). reflexivity.
  - destruct (dict_get (TInt i) d) as [c|] eqn:Hc; [|discriminate].
    intros [= ->]. rewrite (dict_set_same _ _ _ Hc). reflexivity.
Qed.

Lemma setitem_unchanged (obj : value) (k : token) (target obj' : value)
    (o : outcome) :
  setitem obj k target = (obj', o) -> o <> Assigned -> obj' = obj.
Proof.
  destruct obj, k; simpl; try (intros [= <- <-]; congruence).
  destruct (py_position (length l) i); intros [= <- <-]; congruence.
Qed.

Lemma walk_assign_step (obj : value) (k k2 : token) (rest : list token)
    (target : value) :
  walk_assign obj (k :: k2 :: rest) target
  = match getitem obj k with
    | inl child =>
        let '(child', o) := walk_assign child (k2 :: rest) target in
        (with_member obj k child', o)
    | inr o => (obj, o)
    end.
Proof. reflexivity. Qed.

Lemma walk_assign_last (obj : value) (k : token) (target : value) :
  walk_assign obj [k] target = setitem obj k target.
Proof. reflexivity. Qed.

Arguments walk_assign : simpl never.

(** The steps before the assignment only read: however the walk ends short
    of the assignment, the object is as it was. *)
Lemma walk_assign_unchanged (toks : list token) :
  forall obj target obj' o,
    walk_assign obj toks target = (obj', o) -> o <> Assigned -> obj' = obj.
Proof.
  induction toks as [|k rest IH]; intros obj target obj' o H Ho.
  - injection H as <- <-. reflexivity.
  - destruct rest as [|k2 rest].
    + rewrite walk_assign_last in H. eapply setitem_unchanged; eassumption.
    + rewrite walk_assign_step in H.
      destruct (getitem obj k) as [child|o'] eqn:Hg.
      * destruct (walk_assign child (k2 :: rest) target) as [child' o'] eqn:Hw.
        injection H as <- <-.
        rewrite (IH _ _ _ _ Hw Ho). apply with_member_same, Hg.
      * injection H as <- <-. reflexivity.
Qed.

Lemma getitem_errors (obj : value) (k : token) (e : exn) :
  getitem obj k = inr (Uncaught e) -> e = TypeError \/ exists k', e = KeyError k'.
Proof.
  destruct obj, k; simpl; try (intros [= <-]; auto);
    repeat match goal with
           | |- context [match ?x with _ => _ end] => destruct x
           end; try discriminate; intros [= <-]; eauto.
Qed.

Lemma setitem_errors (obj : value) (k : token) (target obj' : value) (e : exn) :
  setitem obj k target = (obj', Uncaught e) -> e = TypeError.
Proof.
  destruct obj, k; simpl; try discriminate; try (intros [= _ <-]; reflexivity).
  destruct (py_position (length l) i); discriminate.
Qed.

Lemma walk_assign_errors (toks : list token) :
  forall obj target obj' e,
    walk_assign obj toks target = (obj', Uncaught e) ->
    e = TypeError \/ exists k', e = KeyError k'.
Proof.
  induction toks as [|k rest IH]; intros obj target obj' e H.
  - discriminate.
  - destruct rest as [|k2 rest].
    + rewrite walk_assign_last in H. left. eapply setitem_errors, H.
    + rewrite walk_assign_step in H.
      destruct (getitem obj k) as [child|o'] eqn:Hg.
      * destruct (walk_assign child (k2 :: rest) target) as [child' o'] eqn:Hw.
        injection H as _ ->. eapply IH, Hw.
      * injection H as _ ->. eapply getitem_errors, Hg.
Qed.

Lemma getitem_str (s : string) (k : token) (child : value) :
  getitem (VStr s) k = inl child -> exists c, child = VStr c.
Proof.
  destruct k as [name|i]; simpl; [discriminate|].
  unfold string_index.
  destruct (py_position (String.length s) i) as [n|]; simpl; [|discriminate].
  destruct (String.get n s) as [c|]; simpl; [|discriminate].
  intros [= <-]. eauto.
Qed.

(** No assignment ever lands in a string: indexing a string yields a fresh
    string, which takes no item assignment. *)
Lemma walk_assign_str (toks : list token) :
  forall s target obj' o,
    walk_assign (VStr s) toks target = (obj', o) -> o <> Assigned.
Proof.
  induction toks as [|k rest IH]; intros s target obj' o H.
  - injection H as _ <-. discriminate.
  - destruct rest as [|k2 rest].
    + rewrite walk_assign_last in H.
      destruct k; injection H as _ <-; discriminate.
    + rewrite walk_assign_step in H.
      destruct (getitem (VStr s) k) as [child|o'] eqn:Hg.
      * destruct (getitem_str _ _ _ Hg) as [c ->].
        destruct (walk_assign (VStr c) (k2 :: rest) target)
          as [child' o'] eqn:Hw.
        injection H as _ <-. eapply IH, Hw.
      * injection H as _ <-. destruct k as [name|i]; simpl in Hg.
        -- injection Hg as <-. discriminate.
        -- destruct (string_index s i); [discriminate|].
           injection Hg as <-. discriminate.
Qed.

Lemma getitem_with_member (obj : value) (k : token) (child child' : value) :
  getitem obj k = inl child ->
  (forall s, obj <> VStr s) ->
  getitem (with_member obj k child') k = inl child'.
Proof.
  destruct obj, k; simpl; try discriminate; intros Hg Hs;
    try (exfalso; eapply Hs; reflexivity).
  - destruct (py_index l i) as [c|] eqn:Hc; [|discriminate].
    apply py_index_some in Hc as (n & Hp & Hn). rewrite Hp. simpl.
    unfold py_index. rewrite length_insert, Hp. simpl.
    rewrite list_lookup_insert_eq; [reflexivity|].
    eapply py_position_lt, Hp.
  - destruct (py_index l i) as [c|] eqn:Hc; [|discriminate].
    apply py_index_some in Hc as (n & Hp & Hn). rewrite Hp. simpl.
    unfold py_index. rewrite length_insert, Hp. simpl.
    rewrite list_lookup_insert_eq; [reflexivity|].
    eapply py_position_lt, Hp.
  - rewrite dict_get_set. reflexivity.
  - rewrite dict_get_set. reflexivity.
Qed.

Lemma getitem_not_assigned (obj : value) (k : token) :
  getitem obj k <> inr Assigned.
Proof.
  destruct obj, k; simpl; try discriminate;
    repeat match goal with
           | |- context [match ?x with _ => _ end] => destruct x
           end; discriminate.
Qed.

Lemma setitem_read_back (obj : value) (k : token) (target obj' : value) :
  setitem obj k target = (obj', Assigned) -> getitem obj' k = inl target.
Proof.
  destruct obj, k; simpl; try discriminate.
  - destruct (py_position (length l) i) as [n|] eqn:Hp; [|discriminate].
    intros [= <-]. simpl. unfold py_index.
    rewrite length_insert, Hp. simpl.
    rewrite list_lookup_insert_eq; [reflexivity|].
    eapply py_position_lt, Hp.
  - intros [= <-]. simpl. rewrite dict_get_set. reflexivity.
  - intros [= <-]. simpl. rewrite dict_get_set. reflexivity.
Qed.

(** After a successful assignment the target is read back at the path. *)
Lemma walk_assign_read_back (toks : list token) :
  forall obj target obj',
    walk_assign obj toks target = (obj', Assigned) ->
    py_walk obj' toks = inl target.
Proof.
  induction toks as [|k rest IH]; intros obj target obj' H.
  - discriminate.
  - destruct rest as [|k2 rest].
    + rewrite walk_assign_last in H. simpl.
      rewrite (setitem_read_back _ _ _ _ H). reflexivity.
    + rewrite walk_assign_step in H.
      destruct (getitem obj k) as [child|o'] eqn:Hg.
      2:{ injection H as _ ->. exfalso. eapply getitem_not_assigned, Hg. }
      destruct (walk_assign child (k2 :: rest) target) as [child' o'] eqn:Hw.
      injection H as <- ->.
      assert (Hs : forall s, obj <> VStr s).
      { intros s ->. destruct (getitem_str _ _ _ Hg) as [c ->].
        eapply walk_assign_str; [exact Hw|reflexivity]. }
      change (py_walk (with_member obj k child') (k :: k2 :: rest))
        with (match getitem (with_member obj k child') k with
              | inl c => py_walk c (k2 :: rest)
              | inr o => inr o
              end).
      rewrite (getitem_with_member _ _ _ child' Hg Hs). eapply IH, Hw.
Qed.

(** A sequence index out of range, wherever on the path, ends the call
    with the object untouched. *)
Lemma walk_assign_out_of_range (pre : list token) :
  forall obj l i post target,
    py_walk obj pre = inl (VList l) ->
    py_position (length l) i = None ->
    walk_assign obj (pre ++ TInt i :: post) target = (obj, CaughtIndexError).
Proof.
  induction pre as [|k pre IH]; intros obj l i post target Hw Hp.
  - simpl in Hw. injection Hw as ->. destruct post as [|k2 post]; simpl.
    + rewrite walk_assign_last. simpl. rewrite Hp. reflexivity.
    + rewrite walk_assign_step. simpl. unfold py_index. rewrite Hp.
      reflexivity.
  - simpl in Hw. destruct (getitem obj k) as [child|] eqn:Hg; [|discriminate].
    specialize (IH child l i post target Hw Hp).
    simpl. destruct (pre ++ TInt i :: post)%list as [|k2 rest] eqn:Hr.
    { destruct pre; discriminate. }
    rewrite walk_assign_step, Hg, IH, (with_member_same _ _ _ Hg).
    reflexivity.
Qed.

(** A mapping key missing before the last token ends the call with a
    [KeyError], the object untouched. *)
Lemma walk_assign_missing_key (pre : list token) :
  forall obj d k k2 post target,
    py_walk obj pre = inl (VDict d) ->
    dict_get k d = None ->
    walk_assign obj (pre ++ k :: k2 :: post) target
    = (obj, Uncaught (KeyError k)).
Proof.
  induction pre as [|k0 pre IH]; intros obj d k k2 post target Hw Hk.
  - simpl in Hw. injection Hw as ->. simpl.
    rewrite walk_assign_step. simpl. rewrite Hk. reflexivity.
  - simpl in Hw. destruct (getitem obj k0) as [child|] eqn:Hg; [|discriminate].
    specialize (IH child d k k2 post target Hw Hk).
    simpl. destruct (pre ++ k :: k2 :: post)%list as [|k3 rest] eqn:Hr.
    { destruct pre; discriminate. }
    rewrite walk_assign_step, Hg, IH, (with_member_same _ _ _ Hg).
    reflexivity.
Qed.

(** C3. [_nested_set({"a": {"b": 1}}, ("x", "b"), None)]: the
    intermediate step [res["x"]] finds no such key, and the [KeyError]
    leaves the function, whose docstring promises the failure value
    whenever the assignment does not succeed: the handler names
    [IndexError] only.  The sibling miss, an index out of range in a list,
    is caught and gives the failure value. *)
Theorem nested_set_key_error_escapes :
  _nested_set (VDict [(TStr "a", VDict [(TStr "b", VInt 1)])])
    [TStr "x"; TStr "b"] VNone
  = (VDict [(TStr "a", VDict [(TStr "b", VInt 1)])],
     Raise (KeyError (TStr "x")))
  /\ ~ set_succeeds_or_fails_quietly
         (VDict [(TStr "a", VDict [(TStr "b", VInt 1)])])
         [TStr "x"; TStr "b"] VNone
  /\ _nested_set (VDict [(TStr "a", VList [VDict [(TStr "b", VInt 1)]])])
       [TStr "a"; TInt 1; TStr "b"] VNone
     = (VDict [(TStr "a", VList [VDict [(TStr "b", VInt 1)]])], Ok None).
Proof.
  split; [reflexivity|]. split; [|reflexivity].
  unfold set_succeeds_or_fails_quietly.
  change (_nested_set (VDict [(TStr "a", VDict [(TStr "b", VInt 1)])])
            [TStr "x"; TStr "b"] VNone)
    with (VDict [(TStr "a", VDict [(TStr "b", VInt 1)])],
          @Raise (option value) (KeyError (TStr "x"))).
  intros [H|[H _]]; discriminate.
Qed.

(** How a call of [_nested_set] can end: it returns the root, which then
    holds the value at the path; or it returns the failure value; or a
    [KeyError] or a [TypeError] leaves it.  In the last two cases the tree
    is as it was before the call, so no call mutates the tree part of the
    way.  A sequence index out of range, before or at the last token, gives
    the failure value; a mapping key missing before the last token gives
    the [KeyError]. *)
Lemma nested_set_outcomes (source : value)
    (tokenized_key_list : list token) (target : value) :
  ((exists root,
      _nested_set source tokenized_key_list target = (root, Ok (Some root))
      /\ py_walk root tokenized_key_list = inl target)
   \/ _nested_set source tokenized_key_list target = (source, Ok None)
   \/ (exists e,
         _nested_set source tokenized_key_list target = (source, Raise e)
         /\ (e = TypeError \/ exists k, e = KeyError k)))
  /\ (forall pre l i post,
        tokenized_key_list = (pre ++ TInt i :: post)%list ->
        py_walk source pre = inl (VList l) ->
        py_position (length l) i = None ->
        _nested_set source tokenized_key_list target = (source, Ok None))
  /\ (forall pre d k k2 post,
        tokenized_key_list = (pre ++ k :: k2 :: post)%list ->
        py_walk source pre = inl (VDict d) ->
        dict_get k d = None ->
        _nested_set source tokenized_key_list target
        = (source, Raise (KeyError k))).
Proof.
  unfold _nested_set. split; [|split].
  - destruct (walk_assign source tokenized_key_list target) as [source' o]
      eqn:Hw.
    destruct o as [| |e].
    + left. exists source'. split; [reflexivity|].
      eapply walk_assign_read_back, Hw.
    + right; left.
      rewrite (walk_assign_unchanged _ _ _ _ _ Hw); [reflexivity|discriminate].
    + right; right. exists e. split.
      * rewrite (walk_assign_unchanged _ _ _ _ _ Hw);
          [reflexivity|discriminate].
      * eapply walk_assign_errors, Hw.
  - intros pre l i post -> Hw Hp.
    rewrite (walk_assign_out_of_range pre _ _ _ post target Hw Hp).
    reflexivity.
  - intros pre d k k2 post -> Hw Hk.
    rewrite (walk_assign_missing_key pre _ _ _ k2 post target Hw Hk).
    reflexivity.
Qed.

Lemma nested_set_outcomes_witness :
  _nested_set (VDict [(TStr "a", VList [])]) [TStr "a"; TInt 3; TStr "b"] VNone
  = (VDict [(TStr "a", VList [])], Ok None)
  /\ _nested_set (VDict [(TStr "a", VDict [])]) [TStr "a"; TStr "x"; TStr "b"]
       VNone
     = (VDict [(TStr "a", VDict [])], Raise (KeyError (TStr "x"))).
Proof.
  split.
  - exact (proj1 (proj2 (nested_set_outcomes
             (VDict [(TStr "a", VList [])])
             [TStr "a"; TInt 3; TStr "b"] VNone))
           [TStr "a"] [] 3 [TStr "b"] eq_refl eq_refl eq_refl).
  - exact (proj2 (proj2 (nested_set_outcomes
             (VDict [(TStr "a", VDict [])])
             [TStr "a"; TStr "x"; TStr "b"] VNone))
           [TStr "a"] [] (TStr "x") (TStr "b") [] eq_refl eq_refl eq_refl).
Defined.

(** ** Pruning *)

Lemma split_not_nil (sep : ascii) (s : string) : PyStr.split sep s <> [].
Proof.
  destruct s as [|c r]; simpl; [discriminate|].
  destruct (Ascii.eqb c sep); [discriminate|].
  destruct (PyStr.split sep r); discriminate.
Qed.

(** A tokenized key path has at least one token. *)
Lemma tokenized_keypath_length (key : string) :
  (1 <= length (_get_tokenized_keypath key))%nat.
Proof.
  unfold _get_tokenized_keypath. rewrite length_map.
  destruct (PyStr.split "." _) eqn:H; [|simpl; lia].
  exfalso. eapply split_not_nil, H.
Qed.

(** The object named [res] after [res = updated] is the object
    [_nested_set] worked on, in the state the call left it in. *)
Lemma drop_keys_body_set_null (res : value) (kp : list token) :
  forall res' r,
    _nested_set res kp VNone = (res', Ok r) ->
    match r with
    | Some u => if truthy u then u else res'
    | None => res'
    end = res'.
Proof.
  unfold _nested_set. intros res' r.
  destruct (walk_assign res kp VNone) as [s o].
  destruct o; intros [= <- <-]; [|reflexivity].
  destruct (truthy s); reflexivity.
Qed.

(** C10. When the value a requested path resolves to is falsy ([None],
    [0], [False], the empty string, an empty mapping or an empty sequence),
    the turn of the loop for that path changes neither the tree nor the set
    of processed paths: nothing is assigned, nothing is pruned, and the path
    is not recorded. *)
Theorem drop_keys_falsy_untouched (res : value)
    (seen_keys : gset (list token)) (key : string) (rest : list string)
    (v : value) :
  _nested_get res key VNone = Ok v ->
  In v [VNone; VInt 0; VBool false; VStr ""; VDict []; VList []] ->
  drop_keys_body res seen_keys key = Next res seen_keys
  /\ drop_keys_from res seen_keys (key :: rest)
     = drop_keys_from res seen_keys rest.
Proof.
  intros Hv Hf.
  assert (Ht : truthy v = false).
  { simpl in Hf. repeat (destruct Hf as [<-|Hf]; [reflexivity|]).
    contradiction. }
  assert (Hb : drop_keys_body res seen_keys key = Next res seen_keys).
  { unfold drop_keys_body.
    destruct (decide (_get_tokenized_keypath key ∉ seen_keys)) as [Hn|Hin].
    - rewrite Hv, Ht. reflexivity.
    - f_equal. apply dec_stable in Hin.
      apply subseteq_union_1_L, singleton_subseteq_l, Hin. }
  split; [exact Hb|]. simpl. rewrite Hb. reflexivity.
Qed.

Lemma drop_keys_falsy_untouched_witness :
  drop_keys_body (VDict [(TStr "a", VDict [(TStr "b", VInt 0)])]) ∅ "a.b"
  = Next (VDict [(TStr "a", VDict [(TStr "b", VInt 0)])]) ∅
  /\ drop_keys_from (VDict [(TStr "a", VDict [(TStr "b", VInt 0)])]) ∅
       ["a.b"; "a"]
     = drop_keys_from (VDict [(TStr "a", VDict [(TStr "b", VInt 0)])]) ∅ ["a"].
Proof.
  apply (drop_keys_falsy_untouched
           (VDict [(TStr "a", VDict [(TStr "b", VInt 0)])]) ∅ "a.b" ["a"]
           (VInt 0)).
  - vm_compute. reflexivity.
  - simpl. auto.
Defined.

(** C4. When a path of depth [d], not yet recorded, resolves to a prune
    directive: a positive level, or the level [-(d+1)], makes [drop_keys]
    raise at once; the level [-d] makes it return the empty mapping. *)
Theorem drop_keys_level_bounds (res : value) (seen_keys : gset (list token))
    (key : string) (rest : list string) (level : Z) :
  _get_tokenized_keypath key ∉ seen_keys ->
  _nested_get res key VNone = Ok (VDrop level) ->
  let d := Z.of_nat (length (_get_tokenized_keypath key)) in
  (level > 0 \/ level = - (d + 1) ->
   drop_keys_from res seen_keys (key :: rest)
   = Raise (DropLevelInvalid level key))
  /\ (level = - d ->
      drop_keys_from res seen_keys (key :: rest) = Ok (VDict [])).
Proof.
  intros Hn Hv d. pose proof (tokenized_keypath_length key) as Hlen.
  split; intros Hl; simpl; unfold drop_keys_body;
    (destruct (decide (_get_tokenized_keypath key ∉ seen_keys));
     [|contradiction]); rewrite Hv; simpl.
  - replace ((level >? 0)
             || (-1 * level >? Z.of_nat (length (_get_tokenized_keypath key))))
      with true; [reflexivity|].
    symmetry. apply orb_true_iff. subst d. destruct Hl as [Hl|Hl]; [left|right];
      apply Z.gtb_lt; lia.
  - replace ((level >? 0)
             || (-1 * level >? Z.of_nat (length (_get_tokenized_keypath key))))
      with false.
    + unfold keypath_upto.
      replace (level <? 0) with true by (symmetry; apply Z.ltb_lt; subst d; lia).
      replace (Z.to_nat (Z.max 0
                 (Z.of_nat (length (_get_tokenized_keypath key)) + level)))
        with 0%nat by (subst d; lia).
      reflexivity.
    + symmetry. apply orb_false_iff. subst d.
      split; rewrite Z.gtb_ltb; apply Z.ltb_ge; lia.
Qed.

Lemma drop_keys_level_bounds_witness :
  drop_keys (VDict [(TStr "a", VDict [(TStr "b", VDrop (-3))])]) ["a.b"; "a"]
  = Raise (DropLevelInvalid (-3) "a.b")
  /\ drop_keys (VDict [(TStr "a", VDict [(TStr "b", VDrop (-2))])]) ["a.b"; "a"]
     = Ok (VDict []).
Proof.
  split.
  - refine (proj1 (drop_keys_level_bounds
             (VDict [(TStr "a", VDict [(TStr "b", VDrop (-3))])]) ∅ "a.b" ["a"]
             (-3) _ _) _).
    + apply not_elem_of_empty.
    + vm_compute. reflexivity.
    + right. vm_compute. reflexivity.
  - refine (proj2 (drop_keys_level_bounds
             (VDict [(TStr "a", VDict [(TStr "b", VDrop (-2))])]) ∅ "a.b" ["a"]
             (-2) _ _) _).
    + apply not_elem_of_empty.
    + vm_compute. reflexivity.
    + vm_compute. reflexivity.
Defined.

(** *** Resolution and manual indexing along plain paths *)

Lemma jm_step_found (v : value) (k : token) :
  jm_step v k <> VNone -> getitem v k = inl (jm_step v k).
Proof.
  destruct k as [name|i]; destruct v; simpl; try congruence.
  - destruct (dict_get (TStr name) d); simpl; congruence.
  - destruct (py_index l i); simpl; congruence.
Qed.

Lemma jm_step_found_setitem (v : value) (k : token) (target : value) :
  jm_step v k <> VNone -> exists v', setitem v k target = (v', Assigned).
Proof.
  destruct k as [name|i]; destruct v; simpl; try congruence; eauto.
  unfold py_index. destruct (py_position (length l) i); simpl; [eauto|congruence].
Qed.

(** Where resolution finds something, the assignment goes through. *)
Lemma walk_assign_found (toks : list token) :
  forall v target,
    toks <> [] -> jm_walk v toks <> VNone ->
    exists v', walk_assign v toks target = (v', Assigned).
Proof.
  induction toks as [|k rest IH]; intros v target Hne Hf; [contradiction|].
  destruct rest as [|k2 rest].
  - rewrite walk_assign_last. apply jm_step_found_setitem, Hf.
  - assert (Hk : jm_step v k <> VNone).
    { intros Hk. apply Hf. simpl. rewrite Hk. apply (jm_walk_none (k2 :: rest)). }
    rewrite walk_assign_step, (jm_step_found _ _ Hk).
    destruct (IH (jm_step v k) target) as [c' Hc']; [discriminate|exact Hf|].
    rewrite Hc'. eauto.
Qed.

Lemma jm_walk_prefix_found (v : value) (toks : list token) (n : nat) :
  jm_walk v toks <> VNone -> jm_walk v (take n toks) <> VNone.
Proof.
  intros Hf Hp. apply Hf.
  rewrite <- (take_drop n toks), jm_walk_app, Hp. apply jm_walk_none.
Qed.

Lemma getitem_jm_step (obj : value) (k : token) (child : value) :
  getitem obj k = inl child -> jm_step obj k = child \/ jm_step obj k = VNone.
Proof.
  destruct obj, k; simpl; try discriminate; auto.
  - destruct (py_index l i); [|discriminate]. intros [= <-]. auto.
  - destruct (dict_get (TStr s) d); [|discriminate]. intros [= <-]. auto.
Qed.

(** Resolution reads what manual indexing reads, or nothing. *)
Lemma py_walk_jm_walk (toks : list token) :
  forall obj x,
    py_walk obj toks = inl x -> jm_walk obj toks = x \/ jm_walk obj toks = VNone.
Proof.
  induction toks as [|k toks IH]; intros obj x H; simpl in *.
  - injection H as <-. auto.
  - destruct (getitem obj k) as [child|] eqn:Hg; [|discriminate].
    destruct (getitem_jm_step _ _ _ Hg) as [-> | ->].
    + apply IH, H.
    + right. apply jm_walk_none.
Qed.

Lemma getitem_fails_jm_step (obj : value) (k : token) (o : outcome) :
  getitem obj k = inr o -> jm_step obj k = VNone.
Proof.
  destruct obj, k; simpl; try reflexivity.
  - destruct (py_index l i); [discriminate|reflexivity].
  - destruct (dict_get (TStr s) d); [discriminate|reflexivity].
Qed.

(** Where manual indexing [T[k1][k2]...] fails (missing key, index out of
    range, wrong shape), resolution yields null. *)
Lemma py_walk_fails_jm_walk (toks : list token) :
  forall obj o, py_walk obj toks = inr o -> jm_walk obj toks = VNone.
Proof.
  induction toks as [|k toks IH]; intros obj o H; simpl in *; [discriminate|].
  destruct (getitem obj k) as [child|o'] eqn:Hg.
  - destruct (getitem_jm_step _ _ _ Hg) as [-> | ->];
      [eapply IH, H|apply jm_walk_none].
  - rewrite (getitem_fails_jm_step _ _ _ Hg). apply jm_walk_none.
Qed.

(** A plain path along which a mapping cannot be indexed by hand is a
    missing path. *)
Lemma plain_path_unindexable_missing (d : list (token * value))
    (key : string) (o : outcome) :
  plain_key key = true ->
  py_walk (VDict d) (_get_tokenized_keypath key) = inr o ->
  path_missing (VDict d) key.
Proof.
  intros Hp Hw. unfold path_missing. simpl.
  rewrite (plain_key_search key (VDict d) Hp).
  rewrite (py_walk_fails_jm_walk _ _ _ Hw). reflexivity.
Qed.

Lemma keypath_upto_minus_one (kp : list token) :
  keypath_upto kp (-1) = removelast kp.
Proof.
  unfold keypath_upto. simpl.
  rewrite removelast_firstn_len. f_equal. lia.
Qed.

(** ** Collecting the paths to prune *)

(** A list none of whose members is a mapping contributes no path, whatever
    its members are: the test made on a member that is not a mapping looks
    at the list. *)
Lemma keys_to_drop_list_without_mappings (k : token) (l : list value)
    (key_prefix : token) :
  Forall (fun item => forall d, item <> VDict d) l ->
  _get_keys_to_drop_set (VDict [(k, VList l)]) key_prefix = ∅.
Proof.
  intros Hl. simpl.
  match goal with
  | |- (?f l 0%nat) ∪ ∅ = ∅ =>
      assert (H : forall i, f l i = ∅); [|rewrite H; apply union_empty_r_L]
  end.
  induction Hl as [|item l Hitem _ IH]; intros i; [reflexivity|].
  destruct item; try (rewrite IH; apply union_empty_r_L).
  exfalso. eapply Hitem. reflexivity.
Qed.

(** C8. For [{"a": [DROP(-1)]}], where a marker sits directly in a
    sequence, [_get_keys_to_drop_set] returns the empty set: the path
    ["a[0]"] of that marker is not collected. *)
Theorem keys_to_drop_misses_marker_in_sequence :
  _get_keys_to_drop_set (VDict [(TStr "a", VList [VDrop (-1)])]) (TStr "") = ∅
  /\ TStr "a[0]" ∉ _get_keys_to_drop_set
                     (VDict [(TStr "a", VList [VDrop (-1)])]) (TStr "").
Proof.
  assert (H : _get_keys_to_drop_set (VDict [(TStr "a", VList [VDrop (-1)])])
                (TStr "") = ∅).
  { apply keys_to_drop_list_without_mappings.
    constructor; [discriminate|constructor]. }
  split; [exact H|]. rewrite H. apply not_elem_of_empty.
Qed.

(** A marker that is the value of a mapping entry is collected, under the
    dotted path of the entry. *)
Example keys_to_drop_marker_in_mapping :
  _get_keys_to_drop_set
    (VDict [(TStr "a", VDict [(TStr "b", VDrop (-1))])]) (TStr "")
  = {[TStr "a.b"]}.
Proof.
  simpl. rewrite !union_empty_r_L. reflexivity.
Qed.

(** ** Literal imputation *)

Lemma imputes_from_literal (p : literal) (c : value) :
  imputes (value_of_literal p) c -> c = value_of_literal p.
Proof. intros H. destruct p; inversion H; reflexivity. Qed.

Lemma Forall2_imputes_same (l : list value) : Forall2 imputes l l.
Proof. induction l; constructor; [apply imputes_same|assumption]. Qed.

Lemma Forall2_entries_same (d : list (token * value)) :
  Forall2 (fun kv kv' => fst kv = fst kv' /\ imputes (snd kv) (snd kv')) d d.
Proof.
  induction d; constructor; [split; [reflexivity|apply imputes_same]|assumption].
Qed.

Lemma Forall2_trans_pointwise {A : Type} (R : A -> A -> Prop) (l : list A) :
  Forall (fun x => forall u w, R x u -> R u w -> R x w) l ->
  forall l1 l2, Forall2 R l l1 -> Forall2 R l1 l2 -> Forall2 R l l2.
Proof.
  induction 1 as [|x l Hx _ IH]; intros l1 l2 H1 H2.
  - inversion H1; subst. inversion H2; subst. constructor.
  - inversion H1; subst. inversion H2; subst. constructor; eauto.
Qed.

Lemma imputes_trans (a : value) :
  forall u w, imputes a u -> imputes u w -> imputes a w.
Proof.
  induction a as [| | | |l IH|l IH|d IH| |] using value_ind';
    intros u w Hab Hbc; inversion Hab; subst; try exact Hbc.
  - inversion Hbc; subst; [exact Hab|]. apply imputes_list.
    eapply Forall2_trans_pointwise; eassumption.
  - inversion Hbc; subst; [exact Hab|]. apply imputes_tuple.
    eapply Forall2_trans_pointwise; eassumption.
  - inversion Hbc; subst; [exact Hab|]. apply imputes_dict.
    eapply (Forall2_trans_pointwise entry_imputes); [|eassumption..].
    eapply Forall_impl; [exact IH|].
    intros kv Hkv x y [Hk1 Hv1] [Hk2 Hv2]. split; [congruence|eauto].
  - rewrite (imputes_from_literal _ _ Hbc). apply imputes_keep.
Qed.

Lemma Forall2_imputes_lookup (l l' : list value) (n : nat) :
  Forall2 imputes l l' ->
  imputes (default VNone (l !! n)) (default VNone (l' !! n)).
Proof.
  intros H. revert n. induction H as [|x y l l' Hxy _ IH]; intros n.
  - apply imputes_same.
  - destruct n; simpl; [exact Hxy|apply IH].
Qed.

Lemma Forall2_entries_get (k : token) (d d' : list (token * value)) :
  Forall2 entry_imputes d d' ->
  imputes (default VNone (dict_get k d)) (default VNone (dict_get k d')).
Proof.
  induction 1 as [|[k1 v1] [k2 v2] d d' [Hk Hv] _ IH]; simpl.
  - apply imputes_same.
  - simpl in Hk, Hv. subst k2. destruct (decide (k1 = k)); [exact Hv|exact IH].
Qed.

(** Resolution steps commute with imputation: what a step reads in the
    imputed tree is the imputation of what it reads in the original. *)
Lemma imputes_step (t t' : value) (k : token) :
  imputes t t' -> imputes (jm_step t k) (jm_step t' k).
Proof.
  intros H. inversion H as [|p|l l' Hl|l l' Hl|d d' Hd]; subst.
  - apply imputes_same.
  - replace (jm_step (value_of_literal p) k) with VNone
      by (destruct p, k; reflexivity).
    destruct k; apply imputes_same.
  - destruct k as [name|i]; simpl; [apply imputes_same|].
    unfold py_index. rewrite <- (Forall2_length _ _ _ Hl).
    destruct (py_position (length l) i) as [n|]; simpl;
      [|apply imputes_same].
    apply Forall2_imputes_lookup, Hl.
  - destruct k; apply imputes_same.
  - destruct k as [name|i]; simpl; [|apply imputes_same].
    apply Forall2_entries_get, Hd.
Qed.

(** A wrapper found in the imputed tree was there, at the same path, in the
    original. *)
Lemma imputes_keep_reflects (toks : list token) :
  forall t t' q,
    imputes t t' -> jm_walk t' toks = VKeep q -> jm_walk t toks = VKeep q.
Proof.
  induction toks as [|k toks IH]; intros t t' q H Hq; simpl in *.
  - subst t'. inversion H as [|p| | |]; subst; [reflexivity|].
    destruct p; discriminate.
  - eapply IH; [|exact Hq]. apply imputes_step, H.
Qed.

Lemma imputes_dict_set (k : token) (d : list (token * value))
    (x x' : value) :
  dict_get k d = Some x -> imputes x x' ->
  imputes (VDict d) (VDict (dict_set k x' d)).
Proof.
  intros Hg Hx. apply imputes_dict. revert Hg.
  induction d as [|[k1 v1] d IH]; simpl; [discriminate|].
  destruct (decide (k1 = k)) as [->|Hne]; intros Hg.
  - injection Hg as ->. constructor; [split; [reflexivity|exact Hx]|].
    apply Forall2_entries_same.
  - constructor; [split; [reflexivity|apply imputes_same]|]. apply IH, Hg.
Qed.

Lemma imputes_list_insert (n : nat) (l : list value) (x x' : value) :
  l !! n = Some x -> imputes x x' -> Forall2 imputes l (<[n:=x']> l).
Proof.
  revert n. induction l as [|y l IH]; intros n Hn Hx; [discriminate|].
  destruct n; simpl in *.
  - injection Hn as ->. constructor; [exact Hx|apply Forall2_imputes_same].
  - constructor; [apply imputes_same|]. apply IH; assumption.
Qed.

(** Replacing the member that a resolution step reads by an imputation of
    it imputes the container, and the step then reads the new member. *)
Lemma imputes_member (v : value) (k : token) (child' : value) :
  jm_step v k <> VNone ->
  imputes (jm_step v k) child' ->
  imputes v (with_member v k child')
  /\ jm_step (with_member v k child') k = child'
  /\ setitem v k child' = (with_member v k child', Assigned).
Proof.
  destruct k as [name|i]; destruct v; simpl; try congruence.
  - destruct (dict_get (TStr name) d) as [x|] eqn:Hg; simpl; [|congruence].
    intros _ Hx. split; [|split].
    + eapply imputes_dict_set; eassumption.
    + rewrite dict_get_set. reflexivity.
    + reflexivity.
  - destruct (py_index l i) as [x|] eqn:Hg; simpl; [|congruence].
    apply py_index_some in Hg as (n & Hp & Hn). rewrite Hp.
    intros _ Hx. split; [|split].
    + apply imputes_list. eapply imputes_list_insert; eassumption.
    + simpl. unfold py_index. rewrite length_insert, Hp. simpl.
      rewrite list_lookup_insert_eq; [reflexivity|].
      eapply py_position_lt, Hp.
    + reflexivity.
Qed.

(** Where resolution finds a wrapper, the assignment of its payload along
    the same tokens succeeds, imputes the tree, and leaves the payload at
    the path. *)
Lemma walk_assign_imputes (toks : list token) :
  forall v p,
    toks <> [] -> jm_walk v toks = VKeep p ->
    exists v',
      walk_assign v toks (value_of_literal p) = (v', Assigned)
      /\ imputes v v'
      /\ jm_walk v' toks = value_of_literal p.
Proof.
  induction toks as [|k rest IH]; intros v p Hne Hf; [contradiction|].
  destruct rest as [|k2 rest].
  - simpl in Hf.
    destruct (imputes_member v k (value_of_literal p)) as (Hi & Hr & Hs).
    { rewrite Hf. discriminate. }
    { rewrite Hf. apply imputes_keep. }
    exists (with_member v k (value_of_literal p)).
    rewrite walk_assign_last. split; [exact Hs|]. split; [exact Hi|].
    simpl. exact Hr.
  - assert (Hk : jm_step v k <> VNone).
    { intros Hk. simpl in Hf. rewrite Hk in Hf.
      pose proof (jm_walk_none (k2 :: rest)) as Hn. simpl in Hn.
      rewrite Hn in Hf. discriminate. }
    destruct (IH (jm_step v k) p) as (c' & Hw & Hi & Hr);
      [discriminate|exact Hf|].
    destruct (imputes_member v k c' Hk Hi) as (Hi' & Hr' & _).
    exists (with_member v k c').
    rewrite walk_assign_step, (jm_step_found _ _ Hk), Hw.
    split; [reflexivity|]. split; [exact Hi'|].
    change (jm_walk (with_member v k c') (k :: k2 :: rest))
      with (jm_walk (jm_step (with_member v k c') k) (k2 :: rest)).
    rewrite Hr'. exact Hr.
Qed.

Lemma tokenized_keypath_not_nil (key : string) :
  _get_tokenized_keypath key <> [].
Proof.
  pose proof (tokenized_keypath_length key) as H.
  destruct (_get_tokenized_keypath key); [simpl in H; lia|discriminate].
Qed.

(** One pass over plain keys succeeds, imputes the tree, and leaves no
    wrapper at any of the keys. *)
Lemma impute_pass (keys : list string) :
  forall source,
    Forall (fun key => plain_key key = true) keys ->
    exists res,
      impute_enum_values source keys = Ok res
      /\ imputes source res
      /\ Forall (fun key =>
                   is_keep (jm_walk res (_get_tokenized_keypath key)) = false)
           keys.
Proof.
  induction keys as [|key keys IH]; intros source Hp.
  - exists source. split; [reflexivity|]. split; [apply imputes_same|constructor].
  - inversion Hp as [|? ? Hkey Hkeys]; subst.
    set (kp := _get_tokenized_keypath key).
    assert (Hstep : exists s1,
      impute_enum_values source (key :: keys) = impute_enum_values s1 keys
      /\ imputes source s1 /\ is_keep (jm_walk s1 kp) = false).
    { simpl. rewrite (plain_key_get key source Hkey). fold kp. simpl.
      destruct (jm_walk source kp) as [| | | | | | | |p] eqn:Hf;
        try (exists source; split; [reflexivity|];
             split; [apply imputes_same|rewrite Hf; reflexivity]).
      destruct (walk_assign_imputes kp source p) as (s1 & Hw & Hi & Hr);
        [apply tokenized_keypath_not_nil|exact Hf|].
      exists s1. unfold _nested_set. rewrite Hw. simpl.
      split; [reflexivity|]. split; [exact Hi|].
      rewrite Hr. destruct p; reflexivity. }
    destruct Hstep as (s1 & Heq & Hi1 & Hk1).
    destruct (IH s1 Hkeys) as (res & Hres & Hi & Hall).
    exists res. split; [rewrite Heq; exact Hres|].
    split; [eapply imputes_trans; eassumption|].
    constructor; [|exact Hall]. cbv beta. fold kp.
    destruct (jm_walk res kp) as [| | | | | | | |q] eqn:Hq; try reflexivity.
    rewrite (imputes_keep_reflects kp s1 res q Hi Hq) in Hk1. discriminate.
Qed.

(** A pass over plain keys none of which holds a wrapper changes
    nothing. *)
Lemma impute_nothing_left (keys : list string) (source : value) :
  Forall (fun key => plain_key key = true) keys ->
  Forall (fun key =>
            is_keep (jm_walk source (_get_tokenized_keypath key)) = false)
    keys ->
  impute_enum_values source keys = Ok source.
Proof.
  induction keys as [|key keys IH]; intros Hp Hk; [reflexivity|].
  inversion Hp; subst. inversion Hk as [|? ? Hkey Hrest]; subst.
  simpl. rewrite (plain_key_get key source) by assumption. simpl.
  destruct (jm_walk source (_get_tokenized_keypath key)); try discriminate;
    apply IH; assumption.
Qed.

(** C9, counterexample. On [{"a": [KEEP(1)]}] with the key ["a(0)"], which
    resolves to the wrapper (parentheses become brackets) but tokenizes to
    the single name ["a(0)"], the pass leaves the wrapper where it is and
    adds the entry ["a(0)": 1] to the root. *)
Lemma impute_group_key_adds_entry :
  impute_enum_values (VDict [(TStr "a", VList [VKeep (LInt 1)])]) ["a(0)"]
  = Ok (VDict [(TStr "a", VList [VKeep (LInt 1)]); (TStr "a(0)", VInt 1)])
  /\ ~ imputes_in_place (VDict [(TStr "a", VList [VKeep (LInt 1)])]) ["a(0)"].
Proof.
  assert (H : impute_enum_values
                (VDict [(TStr "a", VList [VKeep (LInt 1)])]) ["a(0)"]
              = Ok (VDict [(TStr "a", VList [VKeep (LInt 1)]);
                           (TStr "a(0)", VInt 1)]))
    by (vm_compute; reflexivity).
  split; [exact H|].
  intros (res & Hr & Hi). rewrite H in Hr. injection Hr as <-.
  inversion Hi as [| | | |d d' Hd]; subst.
  inversion Hd as [|? ? ? ? _ Hd']; subst. inversion Hd'.
Qed.

(** C9, amended. For every tree and every set of plain dotted/indexed
    keys, in whatever order the set is iterated: the pass returns a tree
    that differs from the source only in that literal wrappers are
    replaced, where they stand, by their payload, nothing being deleted;
    and a second pass over that tree returns it unchanged. *)
Theorem impute_plain_keys_idempotent (source : value)
    (keys_to_impute : list string) :
  Forall (fun key => plain_key key = true) keys_to_impute ->
  exists res,
    impute_enum_values source keys_to_impute = Ok res
    /\ imputes source res
    /\ impute_enum_values res keys_to_impute = Ok res.
Proof.
  intros Hp. destruct (impute_pass keys_to_impute source Hp)
    as (res & Hr & Hi & Hall).
  exists res. split; [exact Hr|]. split; [exact Hi|].
  apply impute_nothing_left; assumption.
Qed.

Lemma impute_plain_keys_idempotent_witness :
  exists res,
    impute_enum_values
      (VDict [(TStr "a", VList [VKeep (LInt 1); VInt 2]);
              (TStr "b", VDict [(TStr "c", VKeep (LStr "x"))])])
      ["b.c"; "a[0]"; "a[1]"; "z"] = Ok res
    /\ imputes
         (VDict [(TStr "a", VList [VKeep (LInt 1); VInt 2]);
                 (TStr "b", VDict [(TStr "c", VKeep (LStr "x"))])]) res
    /\ impute_enum_values res ["b.c"; "a[0]"; "a[1]"; "z"] = Ok res.
Proof.
  apply impute_plain_keys_idempotent.
  repeat constructor.
Defined.

(** ** Duplicate paths in a prune pass *)

Lemma nulled_step (t t' : value) (k : token) :
  nulled t t' -> nulled (jm_step t k) (jm_step t' k).
Proof.
  intros H. inversion H as [|?|l l' Hlen Hl|l l'|d d' Hd]; subst.
  - apply nulled_same.
  - rewrite jm_step_none. apply nulled_none.
  - destruct k as [name|i]; simpl; [apply nulled_same|].
    unfold py_index. rewrite <- Hlen.
    destruct (py_position (length l) i) as [n|]; simpl;
      [apply Hl|apply nulled_same].
  - destruct k; apply nulled_same.
  - destruct k as [name|i]; simpl; [apply Hd|apply nulled_same].
Qed.

(** Null stays null: a path that resolves to nothing still does after
    subtrees have been nulled. *)
Lemma nulled_keeps_none (toks : list token) :
  forall t t',
    nulled t t' -> jm_walk t toks = VNone -> jm_walk t' toks = VNone.
Proof.
  induction toks as [|k toks IH]; intros t t' H Hn; simpl in *.
  - subst t. inversion H; reflexivity.
  - eapply IH; [|exact Hn]. apply nulled_step, H.
Qed.

Lemma nulled_list_insert (l : list value) (n : nat) (x x' : value) :
  l !! n = Some x -> nulled x x' -> nulled (VList l) (VList (<[n:=x']> l)).
Proof.
  intros Hn Hx. apply nulled_list; [symmetry; apply length_insert|].
  intros m. destruct (decide (n = m)) as [<-|Hne].
  - rewrite list_lookup_insert_eq by (eapply lookup_lt_Some, Hn).
    rewrite Hn. exact Hx.
  - rewrite list_lookup_insert_ne by exact Hne. apply nulled_same.
Qed.

Lemma nulled_dict_set (d : list (token * value)) (k : token) (x' : value) :
  nulled (default VNone (dict_get k d)) x' ->
  nulled (VDict d) (VDict (dict_set k x' d)).
Proof.
  intros Hx. apply nulled_dict. intros k'.
  destruct (decide (k' = k)) as [->|Hne].
  - rewrite dict_get_set. exact Hx.
  - rewrite dict_get_set_ne by exact Hne. apply nulled_same.
Qed.

Lemma nulled_with_member (obj : value) (k : token) (child child' : value) :
  getitem obj k = inl child -> nulled child child' ->
  nulled obj (with_member obj k child').
Proof.
  destruct obj, k; simpl; try discriminate; intros Hg Hc;
    try apply nulled_same; try apply nulled_tuple.
  - destruct (py_index l i) as [c|] eqn:Hi; [|discriminate].
    injection Hg as ->. apply py_index_some in Hi as (n & -> & Hn).
    eapply nulled_list_insert; eassumption.
  - destruct (py_position (length l) i); apply nulled_tuple.
  - destruct (dict_get (TStr s) d) as [c|] eqn:Hd; [|discriminate].
    injection Hg as ->. apply nulled_dict_set. rewrite Hd. exact Hc.
  - destruct (dict_get (TInt i) d) as [c|] eqn:Hd; [|discriminate].
    injection Hg as ->. apply nulled_dict_set. rewrite Hd. exact Hc.
Qed.

Lemma setitem_nulled (obj : value) (k : token) (obj' : value) (o : outcome) :
  setitem obj k VNone = (obj', o) -> nulled obj obj'.
Proof.
  destruct obj, k; simpl; try (intros [= <- <-]; apply nulled_same).
  - destruct (py_position (length l) i) as [n|] eqn:Hp;
      intros [= <- <-]; [|apply nulled_same].
    destruct (l !! n) as [x|] eqn:Hn.
    + eapply nulled_list_insert; [exact Hn|apply nulled_none].
    + apply py_position_lt in Hp. apply lookup_ge_None in Hn. lia.
  - intros [= <- <-]. apply nulled_dict_set, nulled_none.
  - intros [= <- <-]. apply nulled_dict_set, nulled_none.
Qed.

(** Whatever a call that assigns null does to the tree, it only nulls. *)
Lemma walk_assign_nulled (toks : list token) :
  forall obj obj' o,
    walk_assign obj toks VNone = (obj', o) -> nulled obj obj'.
Proof.
  induction toks as [|k rest IH]; intros obj obj' o H.
  - injection H as <- <-. apply nulled_same.
  - destruct rest as [|k2 rest].
    + rewrite walk_assign_last in H. eapply setitem_nulled, H.
    + rewrite walk_assign_step in H.
      destruct (getitem obj k) as [child|o'] eqn:Hg.
      * destruct (walk_assign child (k2 :: rest) VNone) as [child' o'] eqn:Hw.
        injection H as <- <-.
        eapply nulled_with_member; [exact Hg|]. eapply IH, Hw.
      * injection H as <- <-. apply nulled_same.
Qed.

(** How one turn of the loop can change the state: the set of seen key
    paths grows, and the tree is only nulled. *)
Lemma drop_keys_body_next (res : value) (seen_keys : gset (list token))
    (key : string) (res' : value) (seen_keys' : gset (list token)) :
  drop_keys_body res seen_keys key = Next res' seen_keys' ->
  seen_keys ⊆ seen_keys' /\ nulled res res'.
Proof.
  unfold drop_keys_body.
  assert (Hset : forall kp,
    (let '(r1, r) := _nested_set res kp VNone in
     match r with
     | Raise e => Raised e
     | Ok updated =>
         Next match updated with
              | Some u => if truthy u then u else r1
              | None => r1
              end ({[kp]} ∪ seen_keys)
     end) = Next res' seen_keys' ->
    seen_keys ⊆ seen_keys' /\ nulled res res').
  { intros kp. destruct (_nested_set res kp VNone) as [r1 r] eqn:Hs.
    destruct r as [updated|e]; [|discriminate].
    rewrite (drop_keys_body_set_null res kp r1 updated Hs).
    intros [= <- <-]. split; [apply union_subseteq_r|].
    unfold _nested_set in Hs.
    destruct (walk_assign res kp VNone) as [s o] eqn:Hw.
    injection Hs as <- _. eapply walk_assign_nulled, Hw. }
  destruct (decide (_get_tokenized_keypath key ∉ seen_keys)).
  - destruct (_nested_get res key VNone) as [v|e]; [|discriminate].
    destruct (truthy v).
    + destruct v; try apply Hset.
      destruct ((level >? 0)
                || (-1 * level >? Z.of_nat (length (_get_tokenized_keypath key))));
        [discriminate|].
      destruct (length (keypath_upto (_get_tokenized_keypath key) level) =? 0)%nat;
        [discriminate|apply Hset].
    + intros [= <- <-]. split; [reflexivity|apply nulled_same].
  - intros [= <- <-]. split; [apply union_subseteq_r|apply nulled_same].
Qed.

(** A plain key whose key path is already recorded, or resolves to nothing,
    passes through the loop without any effect, wherever it comes in the
    remaining keys. *)
Lemma drop_keys_skip (key' : string) (rest : list string) (mid : list string) :
  forall res seen_keys,
    plain_key key' = true ->
    _get_tokenized_keypath key' ∈ seen_keys
    \/ jm_walk res (_get_tokenized_keypath key') = VNone ->
    drop_keys_from res seen_keys (mid ++ key' :: rest)
    = drop_keys_from res seen_keys (mid ++ rest).
Proof.
  induction mid as [|m mid IH]; intros res seen_keys Hp HJ; simpl.
  - replace (drop_keys_body res seen_keys key') with (Next res seen_keys);
      [reflexivity|].
    symmetry. unfold drop_keys_body.
    destruct (decide (_get_tokenized_keypath key' ∉ seen_keys)) as [Hn|Hin].
    + destruct HJ as [Hin|Hnone]; [contradiction|].
      rewrite (plain_key_get key' res Hp), Hnone. reflexivity.
    + f_equal. apply dec_stable in Hin.
      apply subseteq_union_1_L, singleton_subseteq_l, Hin.
  - destruct (drop_keys_body res seen_keys m) as [res2 seen2| |] eqn:Hb;
      try reflexivity.
    apply drop_keys_body_next in Hb as [Hsub Hnull].
    apply IH; [exact Hp|].
    destruct HJ as [Hin|Hnone]; [left; apply Hsub, Hin|right].
    eapply nulled_keeps_none; eassumption.
Qed.

(** C5, counterexample. On [{"a": [{"c": DROP(-1)}], "z": 1}] the key
    ["a(0).c"] resolves, like ["a[0].c"], to the directive of level [-1],
    but the tokenizer does not know the parentheses: the pass assigns null
    at a new entry ["a(0)"] and leaves the parent entry [a[0]] of the leaf
    as it was, the directive included. *)
Lemma drop_keys_group_key_keeps_parent :
  _nested_get
    (VDict [(TStr "a", VList [VDict [(TStr "c", VDrop (-1))]]);
            (TStr "z", VInt 1)]) "a(0).c" VNone
  = Ok (VDrop (-1))
  /\ drop_keys
       (VDict [(TStr "a", VList [VDict [(TStr "c", VDrop (-1))]]);
               (TStr "z", VInt 1)]) ["a(0).c"]
     = Ok (VDict [(TStr "a", VList [VDict [(TStr "c", VDrop (-1))]]);
                  (TStr "z", VInt 1); (TStr "a(0)", VNone)])
  /\ _nested_get
       (VDict [(TStr "a", VList [VDict [(TStr "c", VDrop (-1))]]);
               (TStr "z", VInt 1); (TStr "a(0)", VNone)]) "a[0]" VNone
     = Ok (VDict [(TStr "c", VDrop (-1))]).
Proof. repeat split; vm_compute; reflexivity. Qed.

(** C5, amended. When a plain path, not yet recorded, resolves to a prune
    directive of level [-1], the pass deletes the parent entry of the leaf
    entirely.  On a path of two tokens or more, null is assigned in place at
    the path without its last token, so that the parent entry reads null and
    the leaf can no longer be reached (the tree differs from the one before
    by nulling only); that shortened path is recorded and the pass goes on.
    On a path of one token the parent is the tree itself, and [drop_keys]
    returns the empty mapping. *)
Theorem drop_keys_level_minus_one (res : value)
    (seen_keys : gset (list token)) (key : string) (rest : list string) :
  plain_key key = true ->
  _get_tokenized_keypath key ∉ seen_keys ->
  _nested_get res key VNone = Ok (VDrop (-1)) ->
  ((2 <= length (_get_tokenized_keypath key))%nat ->
   exists res',
     _nested_set res (removelast (_get_tokenized_keypath key)) VNone
     = (res', Ok (Some res'))
     /\ py_walk res' (removelast (_get_tokenized_keypath key)) = inl VNone
     /\ jm_walk res' (_get_tokenized_keypath key) = VNone
     /\ nulled res res'
     /\ drop_keys_from res seen_keys (key :: rest)
        = drop_keys_from res'
            ({[removelast (_get_tokenized_keypath key)]} ∪ seen_keys) rest)
  /\ (length (_get_tokenized_keypath key) = 1%nat ->
      drop_keys_from res seen_keys (key :: rest) = Ok (VDict [])).
Proof.
  intros Hp Hn Hv.
  set (kp := _get_tokenized_keypath key) in *.
  assert (Hf : jm_walk res kp = VDrop (-1)).
  { pose proof Hv as Hv'. rewrite (plain_key_get key res Hp) in Hv'.
    injection Hv' as Hv'. exact Hv'. }
  assert (Hbody : forall n, length kp = S n ->
            drop_keys_body res seen_keys key
            = if (length (removelast kp) =? 0)%nat
              then Return (VDict [])
              else let '(r1, r) := _nested_set res (removelast kp) VNone in
                   match r with
                   | Raise e => Raised e
                   | Ok updated =>
                       Next match updated with
                            | Some u => if truthy u then u else r1
                            | None => r1
                            end ({[removelast kp]} ∪ seen_keys)
                   end).
  { intros n Hl. unfold drop_keys_body. fold kp.
    destruct (decide (kp ∉ seen_keys)); [|contradiction].
    rewrite Hv. simpl. change (-1 * -1) with 1.
    replace (1 >? Z.of_nat (length kp)) with false
      by (symmetry; rewrite Z.gtb_ltb; apply Z.ltb_ge; lia).
    rewrite keypath_upto_minus_one. reflexivity. }
  split.
  - intros Hlen.
    assert (Hne : removelast kp <> []).
    { rewrite removelast_firstn_len. destruct kp as [|a [|b kp']];
        simpl in *; try lia; discriminate. }
    destruct (walk_assign_found (removelast kp) res VNone Hne) as [res' Hw].
    { rewrite removelast_firstn_len. apply jm_walk_prefix_found.
      rewrite Hf. discriminate. }
    pose proof (walk_assign_read_back _ _ _ _ Hw) as Hback.
    exists res'. split; [|split; [|split; [|split]]].
    + unfold _nested_set. rewrite Hw. reflexivity.
    + exact Hback.
    + assert (Hrl : removelast kp = take (length kp - 1) kp)
        by (rewrite removelast_firstn_len; f_equal; lia).
      replace (jm_walk res' kp)
        with (jm_walk res' (take (length kp - 1) kp
                            ++ drop (length kp - 1) kp))
        by (rewrite take_drop; reflexivity).
      rewrite jm_walk_app, <- Hrl.
      destruct (py_walk_jm_walk _ _ _ Hback) as [-> | ->]; apply jm_walk_none.
    + eapply walk_assign_nulled, Hw.
    + destruct (length kp) as [|n] eqn:Hl; [lia|].
      simpl. rewrite (Hbody n eq_refl).
      destruct (length (removelast kp)) eqn:Hl'.
      { destruct (removelast kp); [contradiction|discriminate]. }
      simpl. unfold _nested_set. rewrite Hw.
      destruct (truthy res'); reflexivity.
  - intros Hlen. simpl. rewrite (Hbody 0%nat Hlen).
    destruct kp as [|a [|b kp']]; try discriminate. reflexivity.
Qed.

Lemma drop_keys_level_minus_one_witness :
  (exists res',
     _nested_set
       (VDict [(TStr "a", VList [VDict [(TStr "c", VDrop (-1))]]);
               (TStr "z", VInt 1)])
       (removelast (_get_tokenized_keypath "a[0].c")) VNone
     = (res', Ok (Some res'))
     /\ py_walk res' (removelast (_get_tokenized_keypath "a[0].c")) = inl VNone
     /\ jm_walk res' (_get_tokenized_keypath "a[0].c") = VNone
     /\ nulled
          (VDict [(TStr "a", VList [VDict [(TStr "c", VDrop (-1))]]);
                  (TStr "z", VInt 1)]) res'
     /\ drop_keys_from
          (VDict [(TStr "a", VList [VDict [(TStr "c", VDrop (-1))]]);
                  (TStr "z", VInt 1)]) ∅ ["a[0].c"; "z"]
        = drop_keys_from res'
            ({[removelast (_get_tokenized_keypath "a[0].c")]} ∪ ∅) ["z"])
  /\ drop_keys_from (VDict [(TStr "a", VDrop (-1)); (TStr "z", VInt 1)]) ∅
       ["a"; "z"]
     = Ok (VDict []).
Proof.
  split.
  - refine (proj1 (drop_keys_level_minus_one
             (VDict [(TStr "a", VList [VDict [(TStr "c", VDrop (-1))]]);
                     (TStr "z", VInt 1)]) ∅ "a[0].c" ["z"] _ _ _) _).
    + vm_compute. reflexivity.
    + apply not_elem_of_empty.
    + vm_compute. reflexivity.
    + vm_compute. lia.
  - refine (proj2 (drop_keys_level_minus_one
             (VDict [(TStr "a", VDrop (-1)); (TStr "z", VInt 1)]) ∅ "a" ["z"]
             _ _ _) _).
    + vm_compute. reflexivity.
    + apply not_elem_of_empty.
    + vm_compute. reflexivity.
    + vm_compute. reflexivity.
Defined.

(** Duplicates among plain keys.  When two plain keys of a prune pass
    have the same tokenized key path and the first one, not yet recorded,
    resolves to a truthy value, the pass gives the same result as the pass
    without the second occurrence, wherever that occurrence comes later in
    the requested paths: the path is in the set of recorded paths, or the
    lookup of the second occurrence finds nothing. *)
Lemma drop_keys_duplicate_skipped (res : value)
    (seen_keys : gset (list token)) (key key' : string)
    (mid rest : list string) (v : value) :
  plain_key key = true ->
  plain_key key' = true ->
  _get_tokenized_keypath key' = _get_tokenized_keypath key ->
  _get_tokenized_keypath key ∉ seen_keys ->
  _nested_get res key VNone = Ok v ->
  truthy v = true ->
  drop_keys_from res seen_keys (key :: mid ++ key' :: rest)
  = drop_keys_from res seen_keys (key :: mid ++ rest).
Proof.
  intros Hp Hp' Heq Hn Hv Ht. simpl.
  destruct (drop_keys_body res seen_keys key) as [res1 seen1| |] eqn:Hb;
    try reflexivity.
  apply drop_keys_skip; [exact Hp'|]. rewrite Heq.
  set (kp := _get_tokenized_keypath key) in *.
  assert (Hf : jm_walk res kp = v).
  { pose proof Hv as Hv'. rewrite (plain_key_get key res Hp) in Hv'.
    injection Hv' as Hv'. exact Hv'. }
  assert (Hset : forall m,
    take m kp <> [] ->
    (let '(r1, r) := _nested_set res (take m kp) VNone in
     match r with
     | Raise e => Raised e
     | Ok updated =>
         Next match updated with
              | Some u => if truthy u then u else r1
              | None => r1
              end ({[take m kp]} ∪ seen_keys)
     end) = Next res1 seen1 ->
    take m kp ∈ seen1 /\ jm_walk res1 kp = VNone).
  { intros m Hm. unfold _nested_set.
    destruct (walk_assign_found (take m kp) res VNone Hm) as [s Hw].
    { apply jm_walk_prefix_found. rewrite Hf. destruct v; discriminate. }
    assert (Hs : jm_walk s kp = VNone).
    { replace (jm_walk s kp) with (jm_walk s (take m kp ++ drop m kp))
        by (rewrite take_drop; reflexivity).
      rewrite jm_walk_app.
      destruct (py_walk_jm_walk _ _ _ (walk_assign_read_back _ _ _ _ Hw))
        as [-> | ->]; apply jm_walk_none. }
    rewrite Hw. destruct (truthy s); intros [= <- <-].
    all: split; [apply elem_of_union_l, elem_of_singleton; reflexivity|exact Hs]. }
  assert (Hwhole : take (length kp) kp = kp) by apply firstn_all.
  unfold drop_keys_body in Hb. fold kp in Hb.
  destruct (decide (kp ∉ seen_keys)); [|contradiction].
  rewrite Hv, Ht in Hb.
  destruct v;
    try (left; rewrite <- Hwhole; apply (Hset (length kp));
         [rewrite Hwhole; apply tokenized_keypath_not_nil
         |rewrite Hwhole; exact Hb]).
  destruct ((level >? 0) || (-1 * level >? Z.of_nat (length kp)));
    [discriminate|].
  destruct (length (keypath_upto kp level) =? 0)%nat eqn:Hlen; [discriminate|].
  right. unfold keypath_upto in Hb, Hlen.
  eapply Hset; [|exact Hb].
  intros Hnil. rewrite Hnil in Hlen. discriminate.
Qed.

Lemma drop_keys_duplicate_skipped_witness :
  drop_keys_from
    (VDict [(TStr "a", VList [VDict [(TStr "b", VDrop (-1))]; VInt 7]);
            (TStr "c", VInt 1)]) ∅
    ("a[0].b" :: ["c"] ++ "a[00].b" :: ["a[1]"])
  = drop_keys_from
      (VDict [(TStr "a", VList [VDict [(TStr "b", VDrop (-1))]; VInt 7]);
              (TStr "c", VInt 1)]) ∅
      ("a[0].b" :: ["c"] ++ ["a[1]"]).
Proof.
  apply (drop_keys_duplicate_skipped _ ∅ "a[0].b" "a[00].b" ["c"] ["a[1]"]
           (VDrop (-1))).
  - vm_compute. reflexivity.
  - vm_compute. reflexivity.
  - vm_compute. reflexivity.
  - apply not_elem_of_empty.
  - vm_compute. reflexivity.
  - reflexivity.
Defined.


(** * Further properties of the code *)

(** ** [_nested_get] and [get] beyond the missing path *)

(** X1. With a non-null default, [_nested_get] never returns null, and
    when the search finds a list, the result is a list of the same length
    none of whose members is null. *)
Theorem nested_get_default_fills_nulls (source : value) (key : string)
    (D v : value) :
  D <> VNone ->
  _nested_get source key D = Ok v ->
  v <> VNone
  /\ forall l, _nested_search source key = Ok (VList l) ->
       exists l', v = VList l' /\ length l' = length l
                  /\ Forall (fun x => x <> VNone) l'.
Proof.
  intros HD. unfold _nested_get.
  destruct (_nested_search source key) as [res|e]; [|discriminate].
  simpl. intros [= <-]. split.
  - destruct res; simpl; try discriminate. exact HD.
  - intros l [= ->]. simpl.
    exists (List.map (fun r => if is_none r then D else r) l).
    split; [reflexivity|]. split; [apply length_map|].
    apply Forall_forall. intros x Hx. apply list_elem_of_In in Hx.
    apply in_map_iff in Hx as (y & <- & _).
    destruct y; simpl; try discriminate. exact HD.
Qed.

Lemma nested_get_default_fills_nulls_witness :
  VInt 0 <> VNone
  /\ _nested_get (VDict [(TStr "l", VList [VInt 1; VNone; VInt 3])]) "l" (VInt 0)
     = Ok (VList [VInt 1; VInt 0; VInt 3])
  /\ VList [VInt 1; VInt 0; VInt 3] <> VNone.
Proof.
  assert (H1 : VInt 0 <> VNone) by discriminate.
  assert (H2 : _nested_get (VDict [(TStr "l", VList [VInt 1; VNone; VInt 3])])
                 "l" (VInt 0) = Ok (VList [VInt 1; VInt 0; VInt 3]))
    by (vm_compute; reflexivity).
  split; [exact H1|]. split; [exact H2|].
  exact (proj1 (nested_get_default_fills_nulls _ _ _ _ H1 H2)).
Defined.

(** X2. On a missing path, [drop_level] is returned only when the default
    is null: a non-null default wins over [drop_level]. *)
Theorem get_default_wins_over_drop_level (T : value) (p : string) (D : value)
    (level : Z) :
  path_missing T p ->
  get T p D [] None (Some level) false
  = ([], Ok (if is_none D then VDrop level else D)).
Proof.
  unfold path_missing, get, get_before_apply, _nested_get.
  destruct (list_source T p) as [source key]; simpl.
  intros ->. simpl. destruct D; reflexivity.
Qed.

Lemma get_default_wins_over_drop_level_witness :
  get (VDict [(TStr "a", VInt 1)]) "b" (VInt 0) [] None (Some (-1)) false
  = ([], Ok (VInt 0))
  /\ get (VDict [(TStr "a", VInt 1)]) "b" VNone [] None (Some (-1)) false
     = ([], Ok (VDrop (-1))).
Proof.
  assert (H : path_missing (VDict [(TStr "a", VInt 1)]) "b")
    by (vm_compute; reflexivity).
  split.
  - exact (get_default_wins_over_drop_level _ _ (VInt 0) (-1) H).
  - exact (get_default_wins_over_drop_level _ _ VNone (-1) H).
Defined.

(** X3. When [only_if] rejects the resolved value, [get] returns null, not
    the default (or [drop_level] if one is given), and calls none of the
    [apply] functions. *)
Theorem get_only_if_rejects (source : value) (key : string) (default : value)
    (apply : list ApplyFunc) (cond : value -> result bool)
    (drop_level : option Z) (v : value) :
  _nested_get (fst (list_source source key)) (snd (list_source source key))
    default = Ok v ->
  is_none v = false ->
  cond v = Ok false ->
  get source key default apply (Some cond) drop_level false
  = ([], Ok (match drop_level with
             | Some level => VDrop level
             | None => VNone
             end)).
Proof.
  unfold get, get_before_apply.
  destruct (list_source source key) as [source' key']; simpl.
  intros -> Hn Hc. simpl. rewrite Hn, Hc. simpl.
  destruct apply, drop_level; reflexivity.
Qed.

Lemma get_only_if_rejects_witness :
  get (VDict [(TStr "a", VInt 1)]) "a" (VInt 9) [fn_succ]
      (Some (fun v => match v with VInt i => Ok (2 <=? i) | _ => Ok false end)) None false
  = ([], Ok VNone).
Proof.
  apply (get_only_if_rejects (VDict [(TStr "a", VInt 1)]) "a" (VInt 9)
           [fn_succ] (fun v => match v with VInt i => Ok (2 <=? i) | _ => Ok false end) None (VInt 1)).
  - vm_compute. reflexivity.
  - reflexivity.
  - vm_compute. reflexivity.
Defined.

Lemma chain_values_not_none (fns : list ApplyFunc) :
  forall v calls w,
    is_none v = false -> chain_values fns v = Some (calls, w) ->
    is_none w = false.
Proof.
  induction fns as [|fn fns IH]; intros v calls w Hv H; simpl in H.
  - injection H as _ <-. exact Hv.
  - destruct (fn_call fn v) as [v'|]; [|discriminate].
    destruct (is_none v') eqn:Hv'; [discriminate|].
    destruct (chain_values fns v') as [[c w']|] eqn:Hc; [|discriminate].
    simpl in H. injection H as _ <-. eapply IH; eassumption.
Qed.

(** X4. When every function of the [apply] chain returns a non-null value,
    [get] returns the value of the last one, each function having been
    called once, in order, on the result of the one before;
    [drop_level] is not used. *)
Theorem get_apply_chain_composes (source : value) (key : string)
    (default : value) (apply : list ApplyFunc)
    (only_if : option (value -> result bool)) (drop_level : option Z)
    (flatten : bool) (v0 : value) (calls : list call) (w : value) :
  get_before_apply (fst (list_source source key)) (snd (list_source source key))
    default only_if flatten = Ok v0 ->
  is_none v0 = false ->
  chain_values apply v0 = Some (calls, w) ->
  get source key default apply only_if drop_level flatten = (calls, Ok w).
Proof.
  unfold get. destruct (list_source source key) as [source' key']; simpl.
  intros -> Hn Hc. pose proof (chain_values_not_none _ _ _ _ Hn Hc) as Hw.
  destruct apply as [|fn fns].
  - injection Hc as <- <-. simpl. rewrite Hn.
    destruct drop_level; reflexivity.
  - rewrite Hn.
    pose proof (apply_loop_app key' (fn :: fns) [] v0 calls w Hc) as Ha.
    rewrite app_nil_r in Ha. rewrite Ha. simpl. rewrite app_nil_r, Hw.
    destruct drop_level; reflexivity.
Qed.

Lemma get_apply_chain_composes_witness :
  get (VDict [(TStr "a", VInt 1)]) "a" VNone [fn_succ; fn_succ] None
      (Some (-1)) false
  = ([("succ", VInt 1); ("succ", VInt 2)], Ok (VInt 3)).
Proof.
  apply (get_apply_chain_composes (VDict [(TStr "a", VInt 1)]) "a" VNone
           [fn_succ; fn_succ] None (Some (-1)) false (VInt 1)).
  - vm_compute. reflexivity.
  - reflexivity.
  - vm_compute. reflexivity.
Defined.

(** ** [_nested_set]: when it succeeds, and what a second call does *)

Lemma py_walk_not_assigned (toks : list token) :
  forall obj, py_walk obj toks <> inr Assigned.
Proof.
  induction toks as [|k toks IH]; intros obj; simpl; [discriminate|].
  destruct (getitem obj k) as [child|o] eqn:Hg; [apply IH|].
  intros [= ->]. eapply getitem_not_assigned, Hg.
Qed.

(** The walk ends the way manual indexing of all tokens but the last,
    followed by the assignment, ends. *)
Lemma walk_assign_outcome (pre : list token) :
  forall obj k target,
    snd (walk_assign obj (pre ++ [k]) target)
    = match py_walk obj pre with
      | inl parent => snd (setitem parent k target)
      | inr o => o
      end.
Proof.
  induction pre as [|k0 pre IH]; intros obj k target; simpl.
  - rewrite walk_assign_last. reflexivity.
  - destruct (pre ++ [k])%list as [|k2 rest] eqn:Hr.
    { destruct pre; discriminate. }
    rewrite walk_assign_step.
    destruct (getitem obj k0) as [child|o] eqn:Hg; [|reflexivity].
    specialize (IH child k target). rewrite Hr in IH.
    destruct (walk_assign child (k2 :: rest) target) as [child' o].
    exact IH.
Qed.

(** X5. [_nested_set] returns the root exactly when the parent of the
    target location can be reached by indexing and accepts the assignment
    (a mapping, under any key, present or new; a list, at an index in
    range). *)
Theorem nested_set_succeeds_iff (source : value) (pre : list token)
    (k : token) (target : value) :
  (exists root,
     _nested_set source (pre ++ [k]) target = (root, Ok (Some root)))
  <-> (exists parent parent',
         py_walk source pre = inl parent
         /\ setitem parent k target = (parent', Assigned)).
Proof.
  pose proof (walk_assign_outcome pre source k target) as Ho.
  unfold _nested_set.
  destruct (walk_assign source (pre ++ [k]) target) as [s o] eqn:Hw.
  simpl in Ho. split.
  - intros [root Hr]. destruct o; try discriminate.
    destruct (py_walk source pre) as [parent|o'] eqn:Hp.
    + exists parent, (fst (setitem parent k target)). split; [reflexivity|].
      destruct (setitem parent k target) as [p' o']. simpl in *. congruence.
    + exfalso. eapply py_walk_not_assigned. rewrite Hp, Ho. reflexivity.
  - intros (parent & parent' & Hp & Hs). rewrite Hp, Hs in Ho. simpl in Ho.
    subst o. exists s. reflexivity.
Qed.

Lemma dict_set_set (k : token) (v : value) (d : list (token * value)) :
  dict_set k v (dict_set k v d) = dict_set k v d.
Proof.
  induction d as [|[k' v'] d IH]; simpl.
  - destruct (decide (k = k)); [reflexivity|contradiction].
  - destruct (decide (k' = k)) as [->|Hne]; simpl.
    + destruct (decide (k = k)); [reflexivity|contradiction].
    + destruct (decide (k' = k)); [contradiction|]. rewrite IH. reflexivity.
Qed.

Lemma setitem_again (obj : value) (k : token) (target obj' : value) :
  setitem obj k target = (obj', Assigned) ->
  setitem obj' k target = (obj', Assigned).
Proof.
  destruct obj, k; simpl; try discriminate.
  - destruct (py_position (length l) i) as [n|] eqn:Hp; [|discriminate].
    intros [= <-]. simpl. rewrite length_insert, Hp, list_insert_insert_eq.
    reflexivity.
  - intros [= <-]. simpl. rewrite dict_set_set. reflexivity.
  - intros [= <-]. simpl. rewrite dict_set_set. reflexivity.
Qed.

Lemma walk_assign_again (toks : list token) :
  forall obj target obj',
    walk_assign obj toks target = (obj', Assigned) ->
    walk_assign obj' toks target = (obj', Assigned).
Proof.
  induction toks as [|k rest IH]; intros obj target obj' H; [discriminate|].
  destruct rest as [|k2 rest].
  - rewrite walk_assign_last in *. eapply setitem_again, H.
  - rewrite walk_assign_step in H.
    destruct (getitem obj k) as [child|o'] eqn:Hg.
    2:{ injection H as _ ->. exfalso. eapply getitem_not_assigned, Hg. }
    destruct (walk_assign child (k2 :: rest) target) as [child' o'] eqn:Hw.
    injection H as <- ->.
    assert (Hs : forall s, obj <> VStr s).
    { intros s ->. destruct (getitem_str _ _ _ Hg) as [c ->].
      eapply walk_assign_str; [exact Hw|reflexivity]. }
    pose proof (getitem_with_member _ _ _ child' Hg Hs) as Hg'.
    rewrite walk_assign_step, Hg', (IH _ _ _ Hw).
    rewrite (with_member_same _ _ _ Hg'). reflexivity.
Qed.

(** X6. A successful [_nested_set] is idempotent: the same call on the
    tree it returned succeeds again and changes nothing. *)
Theorem nested_set_idempotent (source : value) (toks : list token)
    (target root : value) :
  _nested_set source toks target = (root, Ok (Some root)) ->
  _nested_set root toks target = (root, Ok (Some root)).
Proof.
  unfold _nested_set.
  destruct (walk_assign source toks target) as [s o] eqn:Hw.
  destruct o; try discriminate. intros [= <-].
  rewrite (walk_assign_again _ _ _ _ Hw). reflexivity.
Qed.

Lemma nested_set_idempotent_witness :
  _nested_set (VDict [(TStr "a", VList [VInt 1; VInt 2])]) [TStr "a"; TInt (-1)]
    VNone
  = (VDict [(TStr "a", VList [VInt 1; VNone])],
     Ok (Some (VDict [(TStr "a", VList [VInt 1; VNone])])))
  /\ _nested_set (VDict [(TStr "a", VList [VInt 1; VNone])])
       [TStr "a"; TInt (-1)] VNone
     = (VDict [(TStr "a", VList [VInt 1; VNone])],
        Ok (Some (VDict [(TStr "a", VList [VInt 1; VNone])]))).
Proof.
  assert (H : _nested_set (VDict [(TStr "a", VList [VInt 1; VInt 2])])
                [TStr "a"; TInt (-1)] VNone
              = (VDict [(TStr "a", VList [VInt 1; VNone])],
                 Ok (Some (VDict [(TStr "a", VList [VInt 1; VNone])]))))
    by reflexivity.
  split; [exact H|]. exact (nested_set_idempotent _ _ _ _ H).
Defined.

(** ** What a prune pass leaves behind *)

Lemma drop_keys_body_return (res : value) (seen_keys : gset (list token))
    (key : string) (v : value) :
  drop_keys_body res seen_keys key = Return v -> v = VDict [].
Proof.
  unfold drop_keys_body.
  assert (Hset : forall kp,
    (let '(r1, r) := _nested_set res kp VNone in
     match r with
     | Raise e => Raised e
     | Ok updated =>
         Next match updated with
              | Some u => if truthy u then u else r1
              | None => r1
              end ({[kp]} ∪ seen_keys)
     end) = Return v -> v = VDict []).
  { intros kp. destruct (_nested_set res kp VNone) as [r1 [u|e]]; discriminate. }
  destruct (decide (_get_tokenized_keypath key ∉ seen_keys)); [|discriminate].
  destruct (_nested_get res key VNone) as [x|e]; [|discriminate].
  destruct (truthy x); [|discriminate].
  destruct x; try apply Hset.
  destruct ((level >? 0)
            || (-1 * level >? Z.of_nat (length (_get_tokenized_keypath key))));
    [discriminate|].
  destruct (length (keypath_upto (_get_tokenized_keypath key) level) =? 0)%nat;
    [|apply Hset].
  intros [= <-]. reflexivity.
Qed.

Lemma jm_walk_empty_dict (toks : list token) :
  toks <> [] -> jm_walk (VDict []) toks = VNone.
Proof.
  destruct toks as [|k toks]; [contradiction|]. intros _. simpl.
  replace (jm_step (VDict []) k) with VNone by (destruct k; reflexivity).
  apply jm_walk_none.
Qed.

(** A token path that reads nothing before the rest of a pass reads nothing
    after it. *)
Lemma drop_keys_from_keeps_none (toks : list token) (keys : list string) :
  forall res seen_keys res',
    toks <> [] ->
    jm_walk res toks = VNone ->
    drop_keys_from res seen_keys keys = Ok res' ->
    jm_walk res' toks = VNone.
Proof.
  induction keys as [|key keys IH]; intros res seen_keys res' Hne Hn H;
    simpl in H.
  - injection H as <-. exact Hn.
  - destruct (drop_keys_body res seen_keys key) as [res1 seen1|v|e] eqn:Hb;
      [| |discriminate].
    + apply drop_keys_body_next in Hb as [_ Hnull].
      eapply IH; [exact Hne| |exact H].
      eapply nulled_keeps_none; eassumption.
    + injection H as <-. rewrite (drop_keys_body_return _ _ _ _ Hb).
      apply jm_walk_empty_dict, Hne.
Qed.

Lemma plain_key_get_default (key : string) (source D : value) :
  plain_key key = true ->
  jm_walk source (_get_tokenized_keypath key) = VNone ->
  _nested_get source key D = Ok D.
Proof.
  intros Hp Hn. unfold _nested_get.
  rewrite (plain_key_search key source Hp), Hn. reflexivity.
Qed.

(** X7. A prune pass never brings a value into existence: a plain path
    that resolves to nothing before [drop_keys] resolves to nothing in the
    tree it returns, whatever the requested keys are. *)
Theorem drop_keys_keeps_missing_paths_missing (source : value)
    (keys_to_drop : list string) (res : value) (key : string) (D : value) :
  plain_key key = true ->
  _nested_get source key VNone = Ok VNone ->
  drop_keys source keys_to_drop = Ok res ->
  _nested_get res key D = Ok D.
Proof.
  intros Hp Hn Hd. apply plain_key_get_default; [exact Hp|].
  rewrite (plain_key_get key source Hp) in Hn. injection Hn as Hn.
  eapply drop_keys_from_keeps_none;
    [apply tokenized_keypath_not_nil|exact Hn|exact Hd].
Qed.

Lemma drop_keys_keeps_missing_paths_missing_witness :
  _nested_get
    (VDict [(TStr "a", VDict [(TStr "b", VInt 1)]); (TStr "c", VInt 2)])
    "a.x" (VInt 0) = Ok (VInt 0)
  /\ _nested_get
       (VDict [(TStr "a", VDict [(TStr "b", VNone)]); (TStr "c", VNone)])
       "a.x" (VInt 0) = Ok (VInt 0).
Proof.
  split; [vm_compute; reflexivity|].
  apply (drop_keys_keeps_missing_paths_missing
           (VDict [(TStr "a", VDict [(TStr "b", VInt 1)]); (TStr "c", VInt 2)])
           ["a.b"; "c"]);
    vm_compute; reflexivity.
Defined.

(** The turn of the loop for a plain key, not yet recorded, whose value is
    truthy leaves nothing to read at that key. *)
Lemma drop_keys_body_plain_nulls (res : value) (seen_keys : gset (list token))
    (key : string) (v res1 : value) (seen1 : gset (list token)) :
  plain_key key = true ->
  _get_tokenized_keypath key ∉ seen_keys ->
  _nested_get res key VNone = Ok v ->
  truthy v = true ->
  drop_keys_body res seen_keys key = Next res1 seen1 ->
  exists m,
    take m (_get_tokenized_keypath key) <> []
    /\ walk_assign res (take m (_get_tokenized_keypath key)) VNone
       = (res1, Assigned)
    /\ seen1 = {[take m (_get_tokenized_keypath key)]} ∪ seen_keys
    /\ (forall level, v = VDrop level ->
          m = Z.to_nat (Z.of_nat (length (_get_tokenized_keypath key)) + level))
    /\ ((forall level, v <> VDrop level) ->
          m = length (_get_tokenized_keypath key))
    /\ jm_walk res1 (_get_tokenized_keypath key) = VNone.
Proof.
  intros Hp Hn Hv Ht Hb.
  set (kp := _get_tokenized_keypath key) in *.
  assert (Hf : jm_walk res kp = v).
  { pose proof Hv as Hv'. rewrite (plain_key_get key res Hp) in Hv'.
    injection Hv' as Hv'. exact Hv'. }
  assert (Hset : forall m,
    take m kp <> [] ->
    (let '(r1, r) := _nested_set res (take m kp) VNone in
     match r with
     | Raise e => Raised e
     | Ok updated =>
         Next match updated with
              | Some u => if truthy u then u else r1
              | None => r1
              end ({[take m kp]} ∪ seen_keys)
     end) = Next res1 seen1 ->
    walk_assign res (take m kp) VNone = (res1, Assigned)
    /\ seen1 = {[take m kp]} ∪ seen_keys
    /\ jm_walk res1 kp = VNone).
  { intros m Hm. unfold _nested_set.
    destruct (walk_assign_found (take m kp) res VNone Hm) as [s Hw].
    { apply jm_walk_prefix_found. rewrite Hf. destruct v; discriminate. }
    assert (Hs : jm_walk s kp = VNone).
    { replace (jm_walk s kp) with (jm_walk s (take m kp ++ drop m kp))
        by (rewrite take_drop; reflexivity).
      rewrite jm_walk_app.
      destruct (py_walk_jm_walk _ _ _ (walk_assign_read_back _ _ _ _ Hw))
        as [-> | ->]; apply jm_walk_none. }
    rewrite Hw. destruct (truthy s); intros [= <- <-]; auto. }
  assert (Hwhole : take (length kp) kp = kp) by apply firstn_all.
  unfold drop_keys_body in Hb. fold kp in Hb.
  destruct (decide (kp ∉ seen_keys)); [|contradiction].
  rewrite Hv, Ht in Hb.
  assert (Hplain : (forall level, v <> VDrop level) ->
    (let '(r1, r) := _nested_set res kp VNone in
     match r with
     | Raise e => Raised e
     | Ok updated =>
         Next match updated with
              | Some u => if truthy u then u else r1
              | None => r1
              end ({[kp]} ∪ seen_keys)
     end) = Next res1 seen1 ->
    exists m, take m kp <> []
      /\ walk_assign res (take m kp) VNone = (res1, Assigned)
      /\ seen1 = {[take m kp]} ∪ seen_keys
      /\ (forall level, v = VDrop level ->
            m = Z.to_nat (Z.of_nat (length kp) + level))
      /\ ((forall level, v <> VDrop level) -> m = length kp)
      /\ jm_walk res1 kp = VNone).
  { intros Hnd Hb'. exists (length kp). rewrite Hwhole.
    destruct (Hset (length kp)) as (Hw & Hs & Hnone).
    { rewrite Hwhole. apply tokenized_keypath_not_nil. }
    { rewrite Hwhole. exact Hb'. }
    rewrite Hwhole in Hw, Hs.
    split; [apply tokenized_keypath_not_nil|]. split; [exact Hw|].
    split; [exact Hs|]. split; [|split; [reflexivity|exact Hnone]].
    intros level ->. exfalso. eapply Hnd. reflexivity. }
  destruct v; try (apply Hplain; [discriminate|exact Hb]).
  destruct ((level >? 0) || (-1 * level >? Z.of_nat (length kp))) eqn:Hg;
    [discriminate|].
  destruct (length (keypath_upto kp level) =? 0)%nat eqn:Hlen; [discriminate|].
  apply orb_false_iff in Hg as [Hg1 Hg2].
  rewrite Z.gtb_ltb in Hg1, Hg2. apply Z.ltb_ge in Hg1, Hg2.
  assert (Hlt : level <> 0).
  { intros ->. unfold keypath_upto in Hlen. simpl in Hlen.
    rewrite Nat.min_0_r in Hlen. discriminate. }
  unfold keypath_upto in Hb, Hlen.
  replace (level <? 0) with true in Hb, Hlen
    by (symmetry; apply Z.ltb_lt; lia).
  replace (Z.max 0 (Z.of_nat (length kp) + level))
    with (Z.of_nat (length kp) + level) in Hb, Hlen by lia.
  exists (Z.to_nat (Z.of_nat (length kp) + level)).
  assert (Hm : take (Z.to_nat (Z.of_nat (length kp) + level)) kp <> []).
  { intros Hnil. rewrite Hnil in Hlen. discriminate. }
  destruct (Hset _ Hm Hb) as (Hw & Hs & Hnone).
  split; [exact Hm|]. split; [exact Hw|]. split; [exact Hs|].
  split; [intros ? [= <-]; reflexivity|].
  split; [|exact Hnone].
  intros Hnd. exfalso. eapply Hnd. reflexivity.
Qed.

(** X8. Pruning and then querying: once [drop_keys] has processed a plain
    key whose value was truthy, [_nested_get] finds nothing at that key in
    the tree the pass returns, and yields the default, whatever the other
    requested keys did. *)
Theorem drop_keys_then_get_default (source : value) (key : string)
    (rest : list string) (v res D : value) :
  plain_key key = true ->
  _nested_get source key VNone = Ok v ->
  truthy v = true ->
  drop_keys source (key :: rest) = Ok res ->
  _nested_get res key D = Ok D.
Proof.
  intros Hp Hv Ht Hd. apply plain_key_get_default; [exact Hp|].
  unfold drop_keys in Hd. simpl in Hd.
  destruct (drop_keys_body source ∅ key) as [res1 seen1|r|e] eqn:Hb;
    [| |discriminate].
  - destruct (drop_keys_body_plain_nulls source ∅ key v res1 seen1 Hp
                (not_elem_of_empty _) Hv Ht Hb) as (m & _ & _ & _ & _ & _ & Hn).
    eapply drop_keys_from_keeps_none;
      [apply tokenized_keypath_not_nil|exact Hn|exact Hd].
  - injection Hd as <-. rewrite (drop_keys_body_return _ _ _ _ Hb).
    apply jm_walk_empty_dict, tokenized_keypath_not_nil.
Qed.

Lemma drop_keys_then_get_default_witness :
  drop_keys (VDict [(TStr "a", VList [VDict [(TStr "b", VInt 5)]; VInt 7])])
    ["a[0].b"; "a[1]"]
  = Ok (VDict [(TStr "a", VList [VDict [(TStr "b", VNone)]; VNone])])
  /\ _nested_get (VDict [(TStr "a", VList [VDict [(TStr "b", VNone)]; VNone])])
       "a[0].b" (VInt 0) = Ok (VInt 0).
Proof.
  assert (H : drop_keys
                (VDict [(TStr "a", VList [VDict [(TStr "b", VInt 5)]; VInt 7])])
                ["a[0].b"; "a[1]"]
              = Ok (VDict [(TStr "a", VList [VDict [(TStr "b", VNone)]; VNone])]))
    by (vm_compute; reflexivity).
  split; [exact H|].
  apply (drop_keys_then_get_default
           (VDict [(TStr "a", VList [VDict [(TStr "b", VInt 5)]; VInt 7])])
           "a[0].b" ["a[1]"] (VInt 5) _ (VInt 0));
    [vm_compute; reflexivity..|exact H].
Defined.

(** X9. A prune directive of level [-k], with [k] at least 1 and less than
    the depth [d] of the plain path that resolves to it, gets null assigned
    at the first [d - k] tokens of the path, the ancestor [k] levels above
    the leaf; that shortened path is what the pass records as seen. *)
Theorem drop_keys_level_nulls_ancestor (res : value)
    (seen_keys : gset (list token)) (key : string) (level : Z) :
  plain_key key = true ->
  _get_tokenized_keypath key ∉ seen_keys ->
  _nested_get res key VNone = Ok (VDrop level) ->
  level < 0 ->
  - level < Z.of_nat (length (_get_tokenized_keypath key)) ->
  let ancestor :=
    take (Z.to_nat (Z.of_nat (length (_get_tokenized_keypath key)) + level))
      (_get_tokenized_keypath key) in
  exists res',
    drop_keys_body res seen_keys key = Next res' ({[ancestor]} ∪ seen_keys)
    /\ py_walk res' ancestor = inl VNone
    /\ nulled res res'.
Proof.
  intros Hp Hn Hv Hl Hd ancestor.
  set (kp := _get_tokenized_keypath key) in *.
  destruct (drop_keys_body res seen_keys key) as [res1 seen1|r|e] eqn:Hb.
  - destruct (drop_keys_body_plain_nulls res seen_keys key _ res1 seen1 Hp Hn
                Hv eq_refl Hb) as (m & _ & Hw & Hs & Hm & _ & _).
    fold kp in Hw, Hs, Hm. rewrite (Hm level eq_refl) in Hw, Hs.
    exists res1. subst seen1. split; [reflexivity|].
    split; [eapply walk_assign_read_back, Hw|eapply walk_assign_nulled, Hw].
  - exfalso. unfold drop_keys_body in Hb. fold kp in Hb.
    destruct (decide (kp ∉ seen_keys)); [|contradiction].
    rewrite Hv in Hb. simpl in Hb.
    destruct ((level >? 0) || (-1 * level >? Z.of_nat (length kp)));
      [discriminate|].
    unfold keypath_upto in Hb.
    replace (level <? 0) with true in Hb by (symmetry; apply Z.ltb_lt; lia).
    rewrite length_take in Hb.
    replace (Z.to_nat (Z.max 0 (Z.of_nat (length kp) + level))
             `min` length kp =? 0)%nat with false in Hb
      by (symmetry; apply Nat.eqb_neq; lia).
    destruct (_nested_set res _ VNone) as [r1 [u|e]]; discriminate.
  - exfalso. unfold drop_keys_body in Hb. fold kp in Hb.
    destruct (decide (kp ∉ seen_keys)); [|contradiction].
    rewrite Hv in Hb. simpl in Hb.
    replace ((level >? 0) || (-1 * level >? Z.of_nat (length kp)))
      with false in Hb
      by (symmetry; apply orb_false_iff; split; rewrite Z.gtb_ltb;
          apply Z.ltb_ge; lia).
    unfold keypath_upto in Hb.
    replace (level <? 0) with true in Hb by (symmetry; apply Z.ltb_lt; lia).
    rewrite length_take in Hb.
    replace (Z.to_nat (Z.max 0 (Z.of_nat (length kp) + level))
             `min` length kp =? 0)%nat with false in Hb
      by (symmetry; apply Nat.eqb_neq; lia).
    replace (Z.max 0 (Z.of_nat (length kp) + level))
      with (Z.of_nat (length kp) + level) in Hb by lia.
    assert (Hne : take (Z.to_nat (Z.of_nat (length kp) + level)) kp <> []).
    { intros Hnil. apply (f_equal length) in Hnil.
      rewrite length_take in Hnil. simpl in Hnil. lia. }
    destruct (walk_assign_found _ res VNone Hne) as [s Hw].
    { apply jm_walk_prefix_found.
      pose proof Hv as Hv'. rewrite (plain_key_get key res Hp) in Hv'.
      injection Hv' as Hv'. fold kp in Hv'. rewrite Hv'. discriminate. }
    unfold _nested_set in Hb. rewrite Hw in Hb. discriminate.
Qed.

Lemma drop_keys_level_nulls_ancestor_witness :
  exists res',
    drop_keys_body
      (VDict [(TStr "a", VDict [(TStr "b", VDict [(TStr "c", VDrop (-2))])])])
      ∅ "a.b.c"
    = Next res' ({[take 1 (_get_tokenized_keypath "a.b.c")]} ∪ ∅)
    /\ py_walk res' (take 1 (_get_tokenized_keypath "a.b.c")) = inl VNone
    /\ nulled
         (VDict [(TStr "a", VDict [(TStr "b", VDict [(TStr "c", VDrop (-2))])])])
         res'.
Proof.
  apply (drop_keys_level_nulls_ancestor
           (VDict [(TStr "a", VDict [(TStr "b", VDict [(TStr "c", VDrop (-2))])])])
           ∅ "a.b.c" (-2)).
  - vm_compute. reflexivity.
  - apply not_elem_of_empty.
  - vm_compute. reflexivity.
  - lia.
  - vm_compute. reflexivity.
Defined.

(** ** [_get_keys_to_drop_set] on trees without markers *)

Lemma keys_to_drop_no_marker_aux (source : value) :
  (forall key_prefix,
     has_rol source = false -> _get_keys_to_drop_set source key_prefix = ∅)
  /\ (forall l, source = VList l ->
        Forall (fun item => forall key_prefix,
                  has_rol item = false ->
                  _get_keys_to_drop_set item key_prefix = ∅) l).
Proof.
  induction source as [| | | |l IH|l IH|d IH| |] using value_ind';
    (split; [|try discriminate]); try reflexivity.
  - intros l' [= <-]. eapply Forall_impl; [exact IH|].
    intros item [Hitem _]. exact Hitem.
  - intros key_prefix Hd. simpl. simpl in Hd.
    induction IH as [|[k v] d [Hv Hmem] _ IHd]; [reflexivity|].
    apply orb_false_iff in Hd as [Hv0 Hd]. simpl in Hv, Hmem.
    rewrite (IHd Hd), union_empty_r_L.
    destruct v; try reflexivity.
    + (* a list: only its mappings are visited *)
      specialize (Hmem l eq_refl).
      match goal with
      | |- ?f l 0%nat = ∅ => assert (H : forall i, f l i = ∅); [|apply H]
      end.
      simpl in Hv0. clear Hv.
      induction Hmem as [|item l Hitem _ IHl]; intros i; [reflexivity|].
      apply orb_false_iff in Hv0 as [Hi Hl].
      rewrite (IHl Hl), union_empty_r_L.
      destruct item; try reflexivity. apply Hitem, Hi.
    + apply Hv, Hv0.
    + discriminate.
Qed.

(** X10. A tree in which no prune marker occurs yields no path to drop,
    under any key prefix. *)
Theorem keys_to_drop_empty_without_marker (source : value)
    (key_prefix : token) :
  has_rol source = false ->
  _get_keys_to_drop_set source key_prefix = ∅.
Proof. intros H. apply keys_to_drop_no_marker_aux, H. Qed.

Lemma keys_to_drop_empty_without_marker_witness :
  _get_keys_to_drop_set
    (VDict [(TStr "a", VList [VDict [(TStr "b", VInt 1)]; VKeep (LInt 2)]);
            (TStr "c", VDict [(TStr "d", VNone)])]) (TStr "")
  = ∅.
Proof.
  apply keys_to_drop_empty_without_marker. reflexivity.
Defined.

(** ** Reading back the text of a path *)

Lemma app_cons (c : ascii) (s t : string) :
  String c s +:+ t = String c (s +:+ t).
Proof. reflexivity. Qed.

Lemma app_nil_l (s : string) : "" +:+ s = s.
Proof. reflexivity. Qed.

Lemma app_nil_r (s : string) : s +:+ "" = s.
Proof. induction s as [|c s IH]; [reflexivity|]. rewrite app_cons, IH. reflexivity. Qed.

Lemma app_assoc (s t u : string) : (s +:+ t) +:+ u = s +:+ (t +:+ u).
Proof.
  induction s as [|c s IH]; [reflexivity|]. rewrite !app_cons, IH. reflexivity.
Qed.

(** *** Decimal numerals *)

Lemma digit_char_value (n : nat) :
  (n < 10)%nat -> nat_of_ascii (PyStr.digit_char n) = (48 + n)%nat.
Proof.
  intros H. unfold PyStr.digit_char. apply nat_ascii_embedding. lia.
Qed.

Lemma digit_char_is_digit (n : nat) :
  (n < 10)%nat -> PyStr.is_digit (PyStr.digit_char n) = true.
Proof.
  intros H. unfold PyStr.is_digit. rewrite (digit_char_value n H).
  apply andb_true_iff. split; apply Nat.leb_le; lia.
Qed.

Lemma nat_digits_value (fuel : nat) :
  forall n acc,
    (n < fuel)%nat ->
    PyStr.digits_value 0 (PyStr.nat_digits fuel n acc)
    = PyStr.digits_value (Z.of_nat n) acc.
Proof.
  induction fuel as [|fuel IH]; intros n acc Hn; [lia|].
  assert (Hmod : (n mod 10 < 10)%nat) by (apply Nat.mod_upper_bound; lia).
  pose proof (Nat.div_mod_eq n 10) as Hdm.
  assert (Hd : forall a,
    PyStr.digits_value a (String (PyStr.digit_char (n mod 10)) acc)
    = PyStr.digits_value (10 * a + Z.of_nat (n mod 10)) acc).
  { intros a. cbn [PyStr.digits_value].
    rewrite (digit_char_value _ Hmod). f_equal. lia. }
  cbn [PyStr.nat_digits]. destruct (n / 10)%nat as [|q] eqn:Hq.
  - rewrite Hd. f_equal. lia.
  - rewrite IH by lia. rewrite Hd. f_equal. lia.
Qed.

Lemma nat_digits_all_digits (fuel : nat) :
  forall n acc,
    PyStr.all_digits acc = true ->
    PyStr.all_digits (PyStr.nat_digits fuel n acc) = true.
Proof.
  induction fuel as [|fuel IH]; intros n acc Ha; [exact Ha|].
  assert (Hmod : (n mod 10 < 10)%nat) by (apply Nat.mod_upper_bound; lia).
  assert (Ha' : PyStr.all_digits (String (PyStr.digit_char (n mod 10)) acc)
                = true).
  { cbn [PyStr.all_digits].
    rewrite (digit_char_is_digit _ Hmod), Ha. reflexivity. }
  cbn [PyStr.nat_digits]. destruct (n / 10)%nat; [exact Ha'|apply IH, Ha'].
Qed.

Lemma nat_digits_not_empty (fuel : nat) :
  forall n acc, acc <> "" -> PyStr.nat_digits fuel n acc <> "".
Proof.
  induction fuel as [|fuel IH]; intros n acc Ha; [exact Ha|].
  cbn [PyStr.nat_digits].
  destruct (n / 10)%nat; [discriminate|apply IH; discriminate].
Qed.

(** The numeral of a natural number: digits only, at least one, and of
    the right value. *)
Lemma of_nat_spec (n : nat) :
  PyStr.all_digits (PyStr.of_nat n) = true
  /\ PyStr.of_nat n <> ""
  /\ PyStr.digits_value 0 (PyStr.of_nat n) = Z.of_nat n.
Proof.
  unfold PyStr.of_nat. split; [|split].
  - apply nat_digits_all_digits. reflexivity.
  - cbn [PyStr.nat_digits]. destruct (n / 10)%nat; [discriminate|].
    apply nat_digits_not_empty. discriminate.
  - rewrite nat_digits_value by lia. reflexivity.
Qed.

Lemma all_digits_head (s : string) :
  PyStr.all_digits s = true -> s <> "" ->
  exists c r, s = String c r /\ PyStr.is_digit c = true
              /\ PyStr.all_digits r = true.
Proof.
  destruct s as [|c r]; [contradiction|]. simpl. intros H _.
  apply andb_prop in H as [Hc Hr]. eauto.
Qed.

Lemma digit_not_minus (c : ascii) :
  PyStr.is_digit c = true -> Ascii.eqb "-" c = false.
Proof.
  intros H. apply Ascii.eqb_neq. intros <-. discriminate.
Qed.

Lemma substring_all (s : string) : String.substring 0 (String.length s) s = s.
Proof. induction s as [|c s IH]; [reflexivity|]. simpl. rewrite IH. reflexivity. Qed.

(** [int(str(i)) == i], and [str(i)] passes the integer test of the
    tokenizer. *)
Lemma of_Z_round_trip (i : Z) :
  PyStr.isnumeric (PyStr.removeprefix (PyStr.of_Z i) "-") = true
  /\ PyStr.to_int (PyStr.of_Z i) = i.
Proof.
  unfold PyStr.of_Z. destruct (i <? 0) eqn:Hi.
  - apply Z.ltb_lt in Hi.
    destruct (of_nat_spec (Z.to_nat (- i))) as (Hd & Hne & Hv).
    split.
    + unfold PyStr.removeprefix. simpl.
      rewrite Nat.sub_0_r, substring_all.
      destruct (PyStr.of_nat (Z.to_nat (- i))); [contradiction|exact Hd].
    + simpl. rewrite Hv. lia.
  - apply Z.ltb_ge in Hi.
    destruct (of_nat_spec (Z.to_nat i)) as (Hd & Hne & Hv).
    destruct (all_digits_head _ Hd Hne) as (c & r & Hs & Hc & Hr).
    rewrite Hs in *. clear Hs Hd Hne.
    destruct c as [[] [] [] [] [] [] [] []];
      try (vm_compute in Hc; discriminate Hc);
      (split; [unfold PyStr.removeprefix; simpl; exact Hr
              |unfold PyStr.to_int; rewrite Hv; lia]).
Qed.

(** *** The tokenizer on the text of a path *)

Lemma replace_app (a b : ascii) (s t : string) :
  PyStr.replace a b (s +:+ t) = PyStr.replace a b s +:+ PyStr.replace a b t.
Proof.
  induction s as [|c s IH]; [reflexivity|].
  rewrite app_cons. simpl. rewrite IH. reflexivity.
Qed.

Lemma remove_app (a : ascii) (s t : string) :
  PyStr.remove a (s +:+ t) = PyStr.remove a s +:+ PyStr.remove a t.
Proof.
  induction s as [|c s IH]; [reflexivity|].
  rewrite app_cons. simpl. rewrite IH. destruct (Ascii.eqb c a); reflexivity.
Qed.

Lemma replace_absent (a b : ascii) (s : string) :
  PyStr.contains a s = false -> PyStr.replace a b s = s.
Proof.
  induction s as [|c s IH]; [reflexivity|]. simpl.
  destruct (Ascii.eqb c a); [discriminate|]. intros H. rewrite (IH H).
  reflexivity.
Qed.

Lemma remove_absent (a : ascii) (s : string) :
  PyStr.contains a s = false -> PyStr.remove a s = s.
Proof.
  induction s as [|c s IH]; [reflexivity|]. simpl.
  destruct (Ascii.eqb c a); [discriminate|]. intros H. rewrite (IH H).
  reflexivity.
Qed.

Lemma contains_app (a : ascii) (s t : string) :
  PyStr.contains a (s +:+ t) = PyStr.contains a s || PyStr.contains a t.
Proof.
  induction s as [|c s IH]; [reflexivity|].
  rewrite app_cons. simpl. destruct (Ascii.eqb c a); [reflexivity|exact IH].
Qed.

Lemma all_digits_contains (a : ascii) (s : string) :
  PyStr.is_digit a = false -> PyStr.all_digits s = true ->
  PyStr.contains a s = false.
Proof.
  intros Ha. induction s as [|c s IH]; [reflexivity|]. simpl.
  intros H. apply andb_prop in H as [Hc Hs].
  destruct (Ascii.eqb_spec c a) as [->|_]; [congruence|apply IH, Hs].
Qed.

(** A numeral holds digits and at most a leading minus sign. *)
Lemma of_Z_contains (a : ascii) (i : Z) :
  PyStr.is_digit a = false -> a <> "-"%char ->
  PyStr.contains a (PyStr.of_Z i) = false.
Proof.
  intros Ha Hm. unfold PyStr.of_Z. destruct (i <? 0).
  - cbn [PyStr.contains].
    destruct (Ascii.eqb_spec "-" a) as [<-|_]; [contradiction|].
    apply all_digits_contains; [exact Ha|apply of_nat_spec].
  - apply all_digits_contains; [exact Ha|apply of_nat_spec].
Qed.

Lemma plain_name_facts (s : string) :
  plain_name s = true ->
  PyStr.contains "." s = false /\ PyStr.contains "[" s = false
  /\ PyStr.contains "]" s = false
  /\ PyStr.isnumeric (PyStr.removeprefix s "-") = false.
Proof.
  unfold plain_name. intros H.
  apply andb_prop in H as [H H4]. apply andb_prop in H as [H H3].
  apply andb_prop in H as [H1 H2].
  rewrite !negb_true_iff in *. auto.
Qed.

Lemma normalise_render_tail (path : list token) :
  plain_names path = true ->
  PyStr.remove "]" (PyStr.replace "[" "." (render_tail path))
  = dotted_tail path.
Proof.
  induction path as [|t path IH]; [reflexivity|]. simpl.
  intros H. apply andb_prop in H as [Ht Hp]. specialize (IH Hp).
  destruct t as [name|i].
  - destruct (plain_name_facts name Ht) as (_ & H1 & H2 & _).
    rewrite !replace_app, !remove_app, IH.
    rewrite (replace_absent _ _ name H1), (remove_absent _ name H2).
    reflexivity.
  - rewrite !replace_app, !remove_app, IH.
    rewrite (replace_absent "[" "." (PyStr.of_Z i))
      by (apply of_Z_contains; [reflexivity|discriminate]).
    rewrite (remove_absent "]" (PyStr.of_Z i))
      by (apply of_Z_contains; [reflexivity|discriminate]).
    reflexivity.
Qed.

Lemma split_piece (p rest : string) :
  PyStr.contains "." p = false ->
  PyStr.split "." (p +:+ String "." rest) = p :: PyStr.split "." rest.
Proof.
  induction p as [|c p IH]; [reflexivity|].
  rewrite app_cons. simpl. destruct (Ascii.eqb c "."); [discriminate|].
  intros H. rewrite (IH H). reflexivity.
Qed.

Lemma split_last_piece (p : string) :
  PyStr.contains "." p = false -> PyStr.split "." p = [p].
Proof.
  induction p as [|c p IH]; [reflexivity|]. simpl.
  destruct (Ascii.eqb c "."); [discriminate|].
  intros H. rewrite (IH H). reflexivity.
Qed.

Lemma format_token_no_dot (t : token) :
  (match t with TStr s => plain_name s | TInt _ => true end) = true ->
  PyStr.contains "." (format_token t) = false.
Proof.
  destruct t as [name|i]; simpl.
  - intros H. apply plain_name_facts, H.
  - intros _. apply of_Z_contains; [reflexivity|discriminate].
Qed.

Lemma split_dotted (p : string) (path : list token) :
  PyStr.contains "." p = false ->
  plain_names path = true ->
  PyStr.split "." (p +:+ dotted_tail path) = p :: List.map format_token path.
Proof.
  revert p. induction path as [|t path IH]; intros p Hp Hn.
  - simpl. rewrite app_nil_r. apply split_last_piece, Hp.
  - simpl in Hn. apply andb_prop in Hn as [Ht Hn]. simpl.
    change ("." +:+ format_token t +:+ dotted_tail path)
      with (String "." (format_token t +:+ dotted_tail path)).
    rewrite (split_piece _ _ Hp), (IH _ (format_token_no_dot t Ht) Hn).
    reflexivity.
Qed.

Lemma tokenize_rendered_path (name : string)
    (path : list token) :
  plain_name name = true ->
  plain_names path = true ->
  _get_tokenized_keypath (render_path name path) = TStr name :: path.
Proof.
  intros Hname Hpath. unfold _get_tokenized_keypath, render_path.
  destruct (plain_name_facts name Hname) as (H0 & H1 & H2 & H3).
  rewrite replace_app, remove_app, (normalise_render_tail path Hpath).
  rewrite (replace_absent _ _ name H1), (remove_absent _ name H2).
  rewrite (split_dotted name path H0 Hpath). simpl. rewrite H3. f_equal.
  clear -Hpath. induction path as [|t path IH]; [reflexivity|].
  simpl in Hpath. apply andb_prop in Hpath as [Ht Hp]. simpl.
  rewrite (IH Hp). f_equal. destruct t as [s|i]; simpl.
  - destruct (plain_name_facts s Ht) as (_ & _ & _ & ->). reflexivity.
  - destruct (of_Z_round_trip i) as [-> ->]. reflexivity.
Qed.

(** X11. The tokenizer reads back the text of a path: for ASCII names
    free of dots and brackets that do not read as integers, and any integer
    indices, the key written with dots before names and brackets around
    indices tokenizes to the name followed by the path, indices being
    integers again, negative ones included. *)
Theorem tokenized_keypath_of_rendered_path (name : string)
    (path : list token) :
  ascii_text name = true ->
  ascii_names path = true ->
  plain_name name = true ->
  plain_names path = true ->
  _get_tokenized_keypath (render_path name path) = TStr name :: path.
Proof. intros _ _. apply tokenize_rendered_path. Qed.

Lemma tokenized_keypath_of_rendered_path_witness :
  _get_tokenized_keypath
    (render_path "a" [TInt 0; TStr "first-name"; TInt (-12); TStr "c"])
  = [TStr "a"; TInt 0; TStr "first-name"; TInt (-12); TStr "c"].
Proof.
  apply tokenized_keypath_of_rendered_path; reflexivity.
Defined.

(** *** The lexer on the text of a path *)

Lemma tokenize_from_ident_step (buff : string) (c : ascii) (r : string) :
  JMESPath.tokenize_from (JMESPath.LxIdent buff) (String c r)
  = if JMESPath.valid_identifier c
    then JMESPath.tokenize_from (JMESPath.LxIdent (JMESPath.snoc buff c)) r
    else cons (JMESPath.TkIdent buff)
           <$> JMESPath.tokenize_from JMESPath.LxStart (String c r).
Proof. reflexivity. Qed.

Lemma tokenize_from_number_step (buff : string) (c : ascii) (r : string) :
  JMESPath.tokenize_from (JMESPath.LxNumber buff) (String c r)
  = if PyStr.is_digit c
    then JMESPath.tokenize_from (JMESPath.LxNumber (JMESPath.snoc buff c)) r
    else t ← JMESPath.number_token buff;
         cons t <$> JMESPath.tokenize_from JMESPath.LxStart (String c r).
Proof. reflexivity. Qed.

Lemma tokenize_from_dot (r : string) :
  JMESPath.tokenize_from JMESPath.LxStart (String "." r)
  = cons JMESPath.TkDot <$> JMESPath.tokenize_from JMESPath.LxStart r.
Proof. reflexivity. Qed.

Lemma tokenize_from_rbracket (r : string) :
  JMESPath.tokenize_from JMESPath.LxStart (String "]" r)
  = cons JMESPath.TkRBracket <$> JMESPath.tokenize_from JMESPath.LxStart r.
Proof. reflexivity. Qed.

Lemma tokenize_from_start_identifier (c : ascii) (r : string) :
  JMESPath.start_identifier c = true ->
  JMESPath.tokenize_from JMESPath.LxStart (String c r)
  = JMESPath.tokenize_from (JMESPath.LxIdent (String c "")) r.
Proof.
  intros H. destruct c as [[] [] [] [] [] [] [] []];
    try (vm_compute in H; discriminate H); reflexivity.
Qed.

Lemma tokenize_from_lbracket_numeral (c : ascii) (r : string) :
  numeral_start c = true ->
  JMESPath.tokenize_from JMESPath.LxStart (String "[" (String c r))
  = cons JMESPath.TkLBracket
      <$> JMESPath.tokenize_from (JMESPath.LxNumber (String c "")) r.
Proof.
  intros H. destruct c as [[] [] [] [] [] [] [] []];
    try (vm_compute in H; discriminate H); reflexivity.
Qed.

Lemma snoc_app (buff : string) (c : ascii) (s : string) :
  JMESPath.snoc buff c +:+ s = buff +:+ String c s.
Proof. unfold JMESPath.snoc. rewrite app_assoc. reflexivity. Qed.

Lemma tokenize_from_identifier_chars (s : string) :
  forall buff rest,
    all_valid_identifier s = true ->
    JMESPath.tokenize_from (JMESPath.LxIdent buff) (s +:+ rest)
    = JMESPath.tokenize_from (JMESPath.LxIdent (buff +:+ s)) rest.
Proof.
  induction s as [|c s IH]; intros buff rest H.
  - rewrite app_nil_l, app_nil_r. reflexivity.
  - simpl in H. apply andb_prop in H as [Hc Hs].
    rewrite app_cons, tokenize_from_ident_step, Hc, (IH _ _ Hs), snoc_app.
    reflexivity.
Qed.

Lemma tokenize_from_digits (s : string) :
  forall buff rest,
    PyStr.all_digits s = true ->
    JMESPath.tokenize_from (JMESPath.LxNumber buff) (s +:+ rest)
    = JMESPath.tokenize_from (JMESPath.LxNumber (buff +:+ s)) rest.
Proof.
  induction s as [|c s IH]; intros buff rest H.
  - rewrite app_nil_l, app_nil_r. reflexivity.
  - cbn [PyStr.all_digits] in H. apply andb_prop in H as [Hc Hs].
    rewrite app_cons, tokenize_from_number_step, Hc, (IH _ _ Hs), snoc_app.
    reflexivity.
Qed.

(** The shape of a numeral: a digit or a minus sign, then digits; it is
    not the lone minus sign, and the lexer reads its value back. *)
Lemma of_Z_shape (i : Z) :
  exists c r,
    PyStr.of_Z i = String c r /\ numeral_start c = true
    /\ PyStr.all_digits r = true
    /\ JMESPath.number_token (PyStr.of_Z i) = Some (JMESPath.TkNumber i).
Proof.
  destruct (of_Z_round_trip i) as [_ Hv].
  unfold JMESPath.number_token. rewrite Hv.
  unfold PyStr.of_Z in *. destruct (i <? 0).
  - destruct (of_nat_spec (Z.to_nat (- i))) as (Hd & Hne & _).
    exists "-"%char, (PyStr.of_nat (Z.to_nat (- i))).
    split; [reflexivity|]. split; [reflexivity|]. split; [exact Hd|].
    destruct (PyStr.of_nat (Z.to_nat (- i))); [contradiction|reflexivity].
  - destruct (of_nat_spec (Z.to_nat i)) as (Hd & Hne & _).
    destruct (all_digits_head _ Hd Hne) as (c & r & Hs & Hc & Hr).
    exists c, r. rewrite Hs. split; [reflexivity|].
    split; [unfold numeral_start; rewrite Hc; reflexivity|].
    split; [exact Hr|].
    destruct c as [[] [] [] [] [] [] [] []];
      try (vm_compute in Hc; discriminate Hc); reflexivity.
Qed.

(** What the lexer makes of the rest of a rendered path, from inside a name
    and from in between tokens. *)
Lemma tokenize_render_tail (path : list token) :
  identifiers path = true ->
  (forall buff,
     JMESPath.tokenize_from (JMESPath.LxIdent buff) (render_tail path)
     = Some (JMESPath.TkIdent buff :: lex_tail path))
  /\ JMESPath.tokenize_from JMESPath.LxStart (render_tail path)
     = Some (lex_tail path).
Proof.
  induction path as [|t path IH]; intros Hp.
  - split; reflexivity.
  - simpl in Hp. apply andb_prop in Hp as [Ht Hp].
    destruct (IH Hp) as [IH1 IH2]. clear IH.
    assert (Hstart :
      JMESPath.tokenize_from JMESPath.LxStart (render_tail (t :: path))
      = Some (lex_tail (t :: path))).
    { destruct t as [name|i]; cbn [render_tail lex_tail].
      - destruct name as [|c name]; [discriminate|].
        simpl in Ht. apply andb_prop in Ht as [Hc Hn].
        change ("." +:+ String c name +:+ render_tail path)
          with (String "." (String c (name +:+ render_tail path))).
        rewrite tokenize_from_dot, (tokenize_from_start_identifier _ _ Hc).
        rewrite (tokenize_from_identifier_chars _ _ _ Hn), app_cons, app_nil_l.
        rewrite IH1. reflexivity.
      - destruct (of_Z_shape i) as (c & r & Hs & Hc & Hr & Hn).
        rewrite Hs in *.
        change ("[" +:+ String c r +:+ "]" +:+ render_tail path)
          with (String "[" (String c (r +:+ String "]" (render_tail path)))).
        rewrite (tokenize_from_lbracket_numeral _ _ Hc).
        rewrite (tokenize_from_digits _ _ _ Hr), app_cons, app_nil_l.
        rewrite tokenize_from_number_step. simpl PyStr.is_digit. cbv iota.
        rewrite Hn, tokenize_from_rbracket, IH2. reflexivity. }
    split; [|exact Hstart].
    intros buff. destruct t as [name|i].
    + change (render_tail (TStr name :: path))
        with (String "." (name +:+ render_tail path)) in *.
      rewrite tokenize_from_ident_step. simpl JMESPath.valid_identifier.
      cbv iota. rewrite Hstart. reflexivity.
    + change (render_tail (TInt i :: path))
        with (String "[" (PyStr.of_Z i +:+ "]" +:+ render_tail path)) in *.
      rewrite tokenize_from_ident_step. simpl JMESPath.valid_identifier.
      cbv iota. rewrite Hstart. reflexivity.
Qed.

Lemma tokenize_rendered (name : string) (path : list token) :
  identifier name = true ->
  identifiers path = true ->
  JMESPath.tokenize (render_path name path)
  = Some (JMESPath.TkIdent name :: lex_tail path).
Proof.
  intros Hn Hp. destruct name as [|c name]; [discriminate|].
  simpl in Hn. apply andb_prop in Hn as [Hc Hn].
  unfold render_path. rewrite app_cons. unfold JMESPath.tokenize.
  rewrite (tokenize_from_start_identifier _ _ Hc).
  rewrite (tokenize_from_identifier_chars _ _ _ Hn), app_cons, app_nil_l.
  apply tokenize_render_tail, Hp.
Qed.

(** *** The parser on the tokens of a path *)

Lemma leading_after_indices (path : list token) :
  (leading_indices path ++ after_indices path)%list = path.
Proof.
  induction path as [|[name|i] path IH]; simpl; [reflexivity..|].
  rewrite IH. reflexivity.
Qed.

Lemma after_indices_length (path : list token) :
  (length (after_indices path) <= length path)%nat.
Proof.
  induction path as [|[name|i] path IH]; simpl; lia.
Qed.

Lemma linear_sub_snoc (cs : list JMESPath.expr) (r : JMESPath.expr) :
  forall acc a,
    linear (JMESPath.ESubexpression cs) = Some acc ->
    linear r = Some a ->
    linear (JMESPath.ESubexpression (cs ++ [r])) = Some (acc ++ a)%list.
Proof.
  induction cs as [|c cs IH]; intros acc a Hc Hr; simpl in *.
  - injection Hc as <-. rewrite Hr. simpl. rewrite List.app_nil_r.
    reflexivity.
  - destruct (linear c) as [x|]; [|discriminate]. simpl in *.
    match type of Hc with
    | context [mbind _ ?m] => destruct m as [y|] eqn:Hy; [|discriminate]
    end.
    simpl in Hc. injection Hc as <-.
    rewrite (IH y a eq_refl Hr). simpl. rewrite <- List.app_assoc.
    reflexivity.
Qed.

Lemma linear_index_snoc (cs : list JMESPath.expr) (r : JMESPath.expr) :
  forall acc a,
    linear (JMESPath.EIndexExpression cs) = Some acc ->
    linear r = Some a ->
    linear (JMESPath.EIndexExpression (cs ++ [r])) = Some (acc ++ a)%list.
Proof.
  induction cs as [|c cs IH]; intros acc a Hc Hr; simpl in *.
  - injection Hc as <-. rewrite Hr. simpl. rewrite List.app_nil_r.
    reflexivity.
  - destruct (linear c) as [x|]; [|discriminate]. simpl in *.
    match type of Hc with
    | context [mbind _ ?m] => destruct m as [y|] eqn:Hy; [|discriminate]
    end.
    simpl in Hc. injection Hc as <-.
    rewrite (IH y a eq_refl Hr). simpl. rewrite <- List.app_assoc.
    reflexivity.
Qed.

Lemma linear_pair (wrap : list JMESPath.expr -> JMESPath.expr)
    (l r : JMESPath.expr) (acc a : list token) :
  wrap = JMESPath.ESubexpression \/ wrap = JMESPath.EIndexExpression ->
  linear l = Some acc -> linear r = Some a ->
  linear (wrap [l; r]) = Some (acc ++ a)%list.
Proof.
  intros [-> | ->] Hl Hr; simpl; rewrite Hl, Hr; simpl;
    rewrite List.app_nil_r; reflexivity.
Qed.

Lemma led_loop_stop (f bp : nat) (lhs : JMESPath.expr)
    (ts : list JMESPath.jtoken) :
  (bp <? JMESPath.binding_power ts)%nat = false ->
  JMESPath.led_loop (S f) bp lhs ts = Some (lhs, ts).
Proof. intros H. simpl. rewrite H. reflexivity. Qed.

Lemma led_loop_index (f bp : nat) (lhs : JMESPath.expr) (i : Z)
    (ts : list JMESPath.jtoken) :
  (bp <? JMESPath.bp_lbracket)%nat = true ->
  JMESPath.led_loop (S (S f)) bp lhs
    (JMESPath.TkLBracket :: JMESPath.TkNumber i :: JMESPath.TkRBracket :: ts)
  = JMESPath.led_loop (S f) bp
      (match lhs with
       | JMESPath.EIndexExpression cs =>
           JMESPath.EIndexExpression (cs ++ [JMESPath.EIndex i])
       | _ => JMESPath.EIndexExpression [lhs; JMESPath.EIndex i]
       end) ts.
Proof.
  intros H.
  change (JMESPath.led_loop (S (S f)) bp lhs
            (JMESPath.TkLBracket :: JMESPath.TkNumber i
             :: JMESPath.TkRBracket :: ts))
    with (if (bp <? JMESPath.bp_lbracket)%nat
          then match lhs with
               | JMESPath.EIndexExpression cs =>
                   JMESPath.led_loop (S f) bp
                     (JMESPath.EIndexExpression (cs ++ [JMESPath.EIndex i])) ts
               | _ =>
                   JMESPath.led_loop (S f) bp
                     (JMESPath.EIndexExpression [lhs; JMESPath.EIndex i]) ts
               end
          else Some (lhs, JMESPath.TkLBracket :: JMESPath.TkNumber i
                          :: JMESPath.TkRBracket :: ts)).
  rewrite H. destruct lhs; reflexivity.
Qed.

Lemma led_loop_dot (f bp : nat) (lhs : JMESPath.expr) (name : string)
    (ts : list JMESPath.jtoken) :
  (bp <? JMESPath.bp_dot)%nat = true ->
  JMESPath.led_loop (S (S (S (S f)))) bp lhs
    (JMESPath.TkDot :: JMESPath.TkIdent name :: ts)
  = '(rhs, ts') ← JMESPath.led_loop (S f) JMESPath.bp_dot
                     (JMESPath.EField name) ts;
    JMESPath.led_loop (S (S (S f))) bp
      (match lhs with
       | JMESPath.ESubexpression cs => JMESPath.ESubexpression (cs ++ [rhs])
       | _ => JMESPath.ESubexpression [lhs; rhs]
       end) ts'.
Proof.
  intros H.
  change (JMESPath.led_loop (S (S (S (S f)))) bp lhs
            (JMESPath.TkDot :: JMESPath.TkIdent name :: ts))
    with (if (bp <? JMESPath.bp_dot)%nat
          then '(rhs, ts') ← JMESPath.led_loop (S f) JMESPath.bp_dot
                                (JMESPath.EField name) ts;
               match lhs with
               | JMESPath.ESubexpression cs =>
                   JMESPath.led_loop (S (S (S f))) bp
                     (JMESPath.ESubexpression (cs ++ [rhs])) ts'
               | _ =>
                   JMESPath.led_loop (S (S (S f))) bp
                     (JMESPath.ESubexpression [lhs; rhs]) ts'
               end
          else Some (lhs, JMESPath.TkDot :: JMESPath.TkIdent name :: ts)).
  rewrite H.
  destruct (JMESPath.led_loop (S f) JMESPath.bp_dot (JMESPath.EField name) ts)
    as [[rhs ts']|]; [|reflexivity].
  destruct lhs; reflexivity.
Qed.

Lemma expression_identifier (f bp : nat) (name : string)
    (ts : list JMESPath.jtoken) :
  JMESPath.expression (S (S f)) bp (JMESPath.TkIdent name :: ts)
  = JMESPath.led_loop (S f) bp (JMESPath.EField name) ts.
Proof. reflexivity. Qed.

Lemma linear_after_index (lhs : JMESPath.expr) (i : Z) (acc : list token) :
  linear lhs = Some acc ->
  linear (match lhs with
          | JMESPath.EIndexExpression cs =>
              JMESPath.EIndexExpression (cs ++ [JMESPath.EIndex i])
          | _ => JMESPath.EIndexExpression [lhs; JMESPath.EIndex i]
          end) = Some (acc ++ [TInt i])%list.
Proof.
  intros H.
  destruct lhs;
    try (apply (linear_pair JMESPath.EIndexExpression); auto; reflexivity).
  apply linear_index_snoc; [exact H|reflexivity].
Qed.

Lemma linear_after_dot (lhs rhs : JMESPath.expr) (acc a : list token) :
  linear lhs = Some acc -> linear rhs = Some a ->
  linear (match lhs with
          | JMESPath.ESubexpression cs => JMESPath.ESubexpression (cs ++ [rhs])
          | _ => JMESPath.ESubexpression [lhs; rhs]
          end) = Some (acc ++ a)%list.
Proof.
  intros H Hr.
  destruct lhs;
    try (apply (linear_pair JMESPath.ESubexpression); auto; reflexivity).
  apply linear_sub_snoc; assumption.
Qed.

(** To the right of a dot, the loop takes the indices that follow the name
    and stops at the next dot or at the end. *)
Lemma led_loop_indices (path : list token) :
  forall fuel lhs acc,
    (length path + 2 <= fuel)%nat ->
    linear lhs = Some acc ->
    exists e,
      JMESPath.led_loop fuel JMESPath.bp_dot lhs (lex_tail path)
      = Some (e, lex_tail (after_indices path))
      /\ linear e = Some (acc ++ leading_indices path)%list.
Proof.
  induction path as [|[name|i] path IH]; intros fuel lhs acc Hf Hl.
  - destruct fuel as [|f]; [simpl in Hf; lia|].
    exists lhs. rewrite led_loop_stop by reflexivity.
    simpl. rewrite List.app_nil_r. auto.
  - destruct fuel as [|f]; [simpl in Hf; lia|].
    exists lhs. rewrite led_loop_stop by reflexivity.
    simpl. rewrite List.app_nil_r. auto.
  - simpl in Hf. destruct fuel as [|[|f]]; [lia..|].
    cbn [lex_tail after_indices leading_indices].
    rewrite led_loop_index by reflexivity.
    destruct (IH (S f) _ _ ltac:(lia) (linear_after_index lhs i acc Hl))
      as (e & He & Hle).
    exists e. split; [exact He|].
    rewrite Hle, <- List.app_assoc. reflexivity.
Qed.

(** At the top level, the loop takes the whole rest of the path. *)
Lemma led_loop_path (n : nat) :
  forall path fuel lhs acc,
    (length path <= n)%nat ->
    (length path + 5 <= fuel)%nat ->
    linear lhs = Some acc ->
    exists e,
      JMESPath.led_loop fuel 0 lhs (lex_tail path) = Some (e, [])
      /\ linear e = Some (acc ++ path)%list.
Proof.
  induction n as [|n IH]; intros path fuel lhs acc Hn Hf Hl.
  - destruct path; [|simpl in Hn; lia].
    destruct fuel as [|f]; [simpl in Hf; lia|].
    exists lhs. rewrite led_loop_stop by reflexivity.
    rewrite List.app_nil_r. auto.
  - destruct path as [|[name|i] path].
    + destruct fuel as [|f]; [simpl in Hf; lia|].
      exists lhs. rewrite led_loop_stop by reflexivity.
      rewrite List.app_nil_r. auto.
    + simpl in Hn, Hf. destruct fuel as [|[|[|[|f]]]]; [lia..|].
      cbn [lex_tail]. rewrite led_loop_dot by reflexivity.
      destruct (led_loop_indices path (S f) (JMESPath.EField name)
                  [TStr name] ltac:(lia) eq_refl) as (rhs & Hr & Hlr).
      rewrite Hr. simpl.
      pose proof (after_indices_length path) as Hlen.
      destruct (IH (after_indices path) (S (S (S f))) _ _ ltac:(lia)
                  ltac:(lia) (linear_after_dot lhs rhs _ _ Hl Hlr))
        as (e & He & Hle).
      exists e. split; [exact He|].
      rewrite Hle, <- List.app_assoc. simpl.
      rewrite leading_after_indices. reflexivity.
    + simpl in Hn, Hf. destruct fuel as [|[|f]]; [lia..|].
      cbn [lex_tail]. rewrite led_loop_index by reflexivity.
      destruct (IH path (S f) _ _ ltac:(lia) ltac:(lia)
                  (linear_after_index lhs i acc Hl)) as (e & He & Hle).
      exists e. split; [exact He|].
      rewrite Hle, <- List.app_assoc. reflexivity.
Qed.

Lemma lex_tail_length (path : list token) :
  (length path <= length (lex_tail path))%nat.
Proof. induction path as [|[name|i] path IH]; simpl; lia. Qed.

Lemma option_bind_some {A B : Type} (x : A) (f : A -> option B) :
  (Some x ≫= f) = f x.
Proof. reflexivity. Qed.

(** [jmespath] parses the text of a path of identifiers and indices into
    an expression that reads the location the path names. *)
Lemma parse_rendered_path (name : string) (path : list token) :
  identifier name = true ->
  identifiers path = true ->
  exists e,
    JMESPath.parse (render_path name path) = Some e
    /\ linear e = Some (TStr name :: path).
Proof.
  intros Hn Hp. unfold JMESPath.parse.
  rewrite (tokenize_rendered name path Hn Hp), option_bind_some.
  pose proof (lex_tail_length path) as Hlen.
  assert (Hfuel : exists g,
    (8 * length (JMESPath.TkIdent name :: lex_tail path) + 8 = S (S g))%nat
    /\ (length path + 5 <= S g)%nat).
  { exists (8 * length (JMESPath.TkIdent name :: lex_tail path) + 6)%nat.
    simpl length. lia. }
  destruct Hfuel as (g & -> & Hg).
  rewrite expression_identifier.
  destruct (led_loop_path (length path) path (S g) (JMESPath.EField name)
              [TStr name] (le_n _) Hg eq_refl) as (e & He & Hle).
  rewrite He. exists e. split; [reflexivity|exact Hle].
Qed.

(** *** Paths of identifiers are plain keys *)

Lemma start_is_valid_identifier (c : ascii) :
  JMESPath.start_identifier c = true -> JMESPath.valid_identifier c = true.
Proof.
  unfold JMESPath.start_identifier, JMESPath.valid_identifier.
  intros H. apply orb_true_iff in H as [-> | ->]; [reflexivity|].
  apply orb_true_r.
Qed.

Lemma identifier_all_valid (s : string) :
  identifier s = true -> all_valid_identifier s = true.
Proof.
  destruct s as [|c r]; [discriminate|]. simpl. intros H.
  apply andb_prop in H as [Hc Hr].
  rewrite (start_is_valid_identifier c Hc), Hr. reflexivity.
Qed.

Lemma all_valid_contains (a : ascii) (s : string) :
  JMESPath.valid_identifier a = false -> all_valid_identifier s = true ->
  PyStr.contains a s = false.
Proof.
  intros Ha. induction s as [|c s IH]; [reflexivity|]. simpl.
  intros H. apply andb_prop in H as [Hc Hs].
  destruct (Ascii.eqb_spec c a) as [->|_]; [congruence|apply IH, Hs].
Qed.

Lemma identifier_not_numeric (s : string) :
  identifier s = true -> PyStr.isnumeric (PyStr.removeprefix s "-") = false.
Proof.
  destruct s as [|c r]; [discriminate|]. simpl. intros H.
  apply andb_prop in H as [Hc _].
  destruct c as [[] [] [] [] [] [] [] []];
    try (vm_compute in Hc; discriminate Hc); reflexivity.
Qed.

Lemma identifier_plain_name (s : string) :
  identifier s = true -> plain_name s = true.
Proof.
  intros H. pose proof (identifier_all_valid s H) as Hv.
  unfold plain_name.
  rewrite !(all_valid_contains _ s) by (exact Hv || reflexivity).
  rewrite (identifier_not_numeric s H). reflexivity.
Qed.

Lemma identifiers_plain_names (path : list token) :
  identifiers path = true -> plain_names path = true.
Proof.
  unfold identifiers, plain_names. rewrite !forallb_forall.
  intros H t Ht. specialize (H t Ht). destruct t; [|reflexivity].
  apply identifier_plain_name, H.
Qed.

(** A character that is neither an identifier character, nor a digit, a
    dot, a bracket or a minus sign does not occur in the text of a path. *)
Lemma render_tail_contains (a : ascii) (path : list token) :
  JMESPath.valid_identifier a = false ->
  a <> "."%char -> a <> "["%char -> a <> "]"%char -> a <> "-"%char ->
  identifiers path = true ->
  PyStr.contains a (render_tail path) = false.
Proof.
  intros Ha H1 H2 H3 H4.
  assert (Hd : PyStr.is_digit a = false).
  { unfold JMESPath.valid_identifier in Ha.
    apply orb_false_iff in Ha as [Ha _]. apply orb_false_iff in Ha as [_ Ha].
    exact Ha. }
  induction path as [|t path IH]; [reflexivity|]. simpl.
  intros H. apply andb_prop in H as [Ht Hp]. specialize (IH Hp).
  destruct t as [name|i]; rewrite !contains_app, IH.
  - rewrite (all_valid_contains a name Ha (identifier_all_valid _ Ht)).
    cbn [PyStr.contains].
    destruct (Ascii.eqb_spec "." a) as [<-|_]; [contradiction|reflexivity].
  - rewrite (of_Z_contains a i Hd H4). cbn [PyStr.contains].
    destruct (Ascii.eqb_spec "[" a) as [<-|_]; [contradiction|].
    destruct (Ascii.eqb_spec "]" a) as [<-|_]; [contradiction|reflexivity].
Qed.

Lemma render_path_contains (a : ascii) (name : string) (path : list token) :
  JMESPath.valid_identifier a = false ->
  a <> "."%char -> a <> "["%char -> a <> "]"%char -> a <> "-"%char ->
  identifier name = true -> identifiers path = true ->
  PyStr.contains a (render_path name path) = false.
Proof.
  intros Ha H1 H2 H3 H4 Hn Hp. unfold render_path.
  rewrite contains_app, (render_tail_contains a path Ha H1 H2 H3 H4 Hp).
  rewrite (all_valid_contains a name Ha (identifier_all_valid _ Hn)).
  reflexivity.
Qed.

Lemma endswith_wildcard_absent (s : string) :
  PyStr.contains "*" s = false -> PyStr.endswith s "[*]" = false.
Proof.
  induction s as [|c s IH]; [reflexivity|]. intros H.
  cbn [PyStr.endswith].
  destruct (String.eqb_spec (String c s) "[*]") as [He|_].
  - rewrite He in H. discriminate.
  - apply IH. simpl in H. destruct (Ascii.eqb c "*"); [discriminate|exact H].
Qed.

Lemma rendered_path_plain (name : string) (path : list token) :
  identifier name = true ->
  identifiers path = true ->
  plain_key (render_path name path) = true.
Proof.
  intros Hn Hp. unfold plain_key.
  rewrite (endswith_wildcard_absent _
             (render_path_contains "*" name path eq_refl ltac:(discriminate)
                ltac:(discriminate) ltac:(discriminate) ltac:(discriminate)
                Hn Hp)).
  rewrite (render_path_contains "(" name path eq_refl ltac:(discriminate)
             ltac:(discriminate) ltac:(discriminate) ltac:(discriminate)
             Hn Hp).
  destruct (parse_rendered_path name path Hn Hp) as (e & -> & He).
  rewrite (tokenize_rendered_path name path (identifier_plain_name _ Hn)
             (identifiers_plain_names _ Hp)).
  simpl. apply bool_decide_eq_true. exact He.
Qed.

(** X12. A key written as an identifier followed by dotted identifiers
    and bracketed integer indices is a plain key: [jmespath] parses it, and
    its resolution reads the tree token by token, a name in a mapping and an
    index in a list, exactly at the location [_get_tokenized_keypath]
    names. *)
Theorem rendered_path_resolves_by_walking (name : string)
    (path : list token) (source : value) :
  identifier name = true ->
  identifiers path = true ->
  plain_key (render_path name path) = true
  /\ _nested_search source (render_path name path)
     = Ok (jm_walk source (_get_tokenized_keypath (render_path name path)))
  /\ _get_tokenized_keypath (render_path name path) = TStr name :: path.
Proof.
  intros Hn Hp. pose proof (rendered_path_plain name path Hn Hp) as Hk.
  split; [exact Hk|]. split; [apply plain_key_search, Hk|].
  apply tokenize_rendered_path;
    [apply identifier_plain_name, Hn|apply identifiers_plain_names, Hp].
Qed.

Lemma rendered_path_resolves_by_walking_witness :
  plain_key (render_path "a" [TStr "b_1"; TInt 2; TInt (-1); TStr "c"]) = true
  /\ _nested_search
       (VDict [(TStr "a", VDict [(TStr "b_1",
          VList [VInt 0; VInt 1; VList [VDict [(TStr "c", VInt 7)]]])])])
       (render_path "a" [TStr "b_1"; TInt 2; TInt (-1); TStr "c"])
     = Ok (jm_walk
             (VDict [(TStr "a", VDict [(TStr "b_1",
                VList [VInt 0; VInt 1; VList [VDict [(TStr "c", VInt 7)]]])])])
             (_get_tokenized_keypath
                (render_path "a" [TStr "b_1"; TInt 2; TInt (-1); TStr "c"])))
  /\ _get_tokenized_keypath
       (render_path "a" [TStr "b_1"; TInt 2; TInt (-1); TStr "c"])
     = [TStr "a"; TStr "b_1"; TInt 2; TInt (-1); TStr "c"].
Proof.
  apply rendered_path_resolves_by_walking; reflexivity.
Defined.

(** X13. On such a key resolution agrees with manual indexing: where
    [T[name][k1]...[kn]] evaluates to a value, [_nested_search] returns that
    value or null, never anything else; where manual indexing raises
    (missing key, index out of range, wrong shape), it returns null. *)
Theorem rendered_path_agrees_with_indexing (name : string)
    (path : list token) (source : value) :
  identifier name = true ->
  identifiers path = true ->
  match py_walk source (TStr name :: path) with
  | inl x =>
      _nested_search source (render_path name path) = Ok x
      \/ _nested_search source (render_path name path) = Ok VNone
  | inr _ => _nested_search source (render_path name path) = Ok VNone
  end.
Proof.
  intros Hn Hp.
  rewrite (plain_key_search _ source (rendered_path_plain name path Hn Hp)).
  rewrite (tokenize_rendered_path name path (identifier_plain_name _ Hn)
             (identifiers_plain_names _ Hp)).
  destruct (py_walk source (TStr name :: path)) as [x|o] eqn:Hw.
  - destruct (py_walk_jm_walk _ _ _ Hw) as [-> | ->]; auto.
  - rewrite (py_walk_fails_jm_walk _ _ _ Hw). reflexivity.
Qed.

Lemma rendered_path_agrees_with_indexing_witness :
  _nested_search
    (VDict [(TStr "a", VDict [(TStr "b", VList [VDict [(TStr "c", VInt 1)]])])])
    (render_path "a" [TStr "b"; TInt 0; TStr "c"]) = Ok (VInt 1)
  \/ _nested_search
       (VDict [(TStr "a", VDict [(TStr "b", VList [VDict [(TStr "c", VInt 1)]])])])
       (render_path "a" [TStr "b"; TInt 0; TStr "c"]) = Ok VNone.
Proof.
  exact (rendered_path_agrees_with_indexing "a" [TStr "b"; TInt 0; TStr "c"]
           (VDict [(TStr "a", VDict [(TStr "b",
              VList [VDict [(TStr "c", VInt 1)]])])]) eq_refl eq_refl).
Defined.

(** *** The paths [_get_keys_to_drop_set] collects *)

Lemma keys_to_drop_cons (k : token) (v : value) (d : list (token * value))
    (key_prefix : token) :
  _get_keys_to_drop_set (VDict ((k, v) :: d)) key_prefix
  = item_keys v (curr_key_of key_prefix k)
    ∪ _get_keys_to_drop_set (VDict d) key_prefix.
Proof. destruct v; reflexivity. Qed.

Lemma list_keys_cons (v : value) (curr_key : token) (item : value)
    (l : list value) (i : nat) :
  list_keys v curr_key (item :: l) i
  = match item with
    | VDict _ =>
        _get_keys_to_drop_set item
          (TStr (format_token curr_key +:+ "[" +:+ PyStr.of_nat i +:+ "]"))
    | _ =>
        if is_rol v
        then {[TStr (format_token curr_key +:+ "[" +:+ PyStr.of_nat i +:+ "]")]}
        else ∅
    end ∪ list_keys v curr_key l (S i).
Proof. reflexivity. Qed.

Lemma keys_to_drop_member (d : list (token * value)) (key_prefix k : token)
    (v : value) (key : token) :
  (k, v) ∈ d ->
  key ∈ item_keys v (curr_key_of key_prefix k) ->
  key ∈ _get_keys_to_drop_set (VDict d) key_prefix.
Proof.
  induction d as [|[k' v'] d IH]; intros Hin Hk.
  - apply elem_of_nil in Hin. contradiction.
  - rewrite keys_to_drop_cons. apply elem_of_union.
    apply elem_of_cons in Hin as [[= <- <-]|Hin]; [left; exact Hk|].
    right. apply IH; assumption.
Qed.

Lemma list_keys_member (v : value) (curr_key : token) (l : list value) :
  forall (i j : nat) (d : list (token * value)) (key : token),
    l !! j = Some (VDict d) ->
    key ∈ _get_keys_to_drop_set (VDict d)
            (TStr (format_token curr_key +:+ "[" +:+ PyStr.of_nat (i + j)
                   +:+ "]")) ->
    key ∈ list_keys v curr_key l i.
Proof.
  induction l as [|item l IH]; intros i j d key Hj Hk; [discriminate|].
  rewrite list_keys_cons. apply elem_of_union.
  destruct j as [|j].
  - injection Hj as ->. left. rewrite Nat.add_0_r in Hk. exact Hk.
  - right. apply (IH (S i) j d); [exact Hj|].
    replace (S i + j)%nat with (i + S j)%nat by lia. exact Hk.
Qed.

Lemma dict_get_elem_of (k : token) (d : list (token * value)) (v : value) :
  dict_get k d = Some v -> (k, v) ∈ d.
Proof.
  induction d as [|[k' v'] d IH]; [discriminate|]. simpl.
  destruct (decide (k' = k)) as [->|_].
  - intros [= ->]. apply elem_of_cons. left. reflexivity.
  - intros H. apply elem_of_cons. right. apply IH, H.
Qed.

Lemma of_Z_of_nat (i : Z) : 0 <= i -> PyStr.of_Z i = PyStr.of_nat (Z.to_nat i).
Proof.
  intros H. unfold PyStr.of_Z.
  destruct (Z.ltb_spec i 0); [lia|reflexivity].
Qed.

Lemma py_index_front (l : list value) (i : Z) :
  0 <= i -> py_index l i = l !! Z.to_nat i.
Proof.
  intros H. unfold py_index, py_position.
  destruct (Z.leb_spec 0 i); [|lia]. simpl.
  destruct (Z.ltb_spec i (Z.of_nat (length l))) as [Hlt|Hge]; simpl.
  - reflexivity.
  - destruct (Z.ltb_spec i 0); [lia|]. simpl. symmetry.
    apply lookup_ge_None. lia.
Qed.

Lemma curr_key_of_prefix (c : string) (k : token) :
  c <> "" -> curr_key_of (TStr c) k = TStr (c +:+ "." +:+ format_token k).
Proof.
  intros Hc. unfold curr_key_of.
  destruct (decide (TStr c ≠ TStr "")) as [_|Hn]; [reflexivity|].
  exfalso. apply Hn. congruence.
Qed.

Lemma app_not_empty (s t : string) : s <> "" -> s +:+ t <> "".
Proof. destruct s; [contradiction|discriminate]. Qed.

(** Every marker at the end of a path the traversal can follow is
    collected, under the text of that path. *)
Lemma item_keys_complete (path : list token) :
  forall (x : value) (c : string) (level : Z),
    c <> "" ->
    collectable path = true ->
    jm_walk x path = VDrop level ->
    TStr (c +:+ render_tail path) ∈ item_keys x (TStr c).
Proof.
  induction path as [|t path IH]; intros x c level Hc Hp Hw.
  - simpl in Hw. subst x. simpl. rewrite app_nil_r.
    apply elem_of_singleton. reflexivity.
  - change (jm_walk x (t :: path)) with (jm_walk (jm_step x t) path) in Hw.
    destruct t as [s|i].
    + destruct x as [| | | | | |d| |];
        try (simpl in Hw; rewrite jm_walk_none in Hw; discriminate Hw).
      simpl in Hw. destruct (dict_get (TStr s) d) as [x'|] eqn:Hg;
        [|simpl in Hw; rewrite jm_walk_none in Hw; discriminate Hw].
      simpl in Hw. simpl in Hp.
      change (item_keys (VDict d) (TStr c))
        with (_get_keys_to_drop_set (VDict d) (TStr c)).
      apply (keys_to_drop_member d (TStr c) (TStr s) x');
        [apply dict_get_elem_of, Hg|].
      rewrite (curr_key_of_prefix c (TStr s) Hc).
      cbn [render_tail format_token].
      rewrite <- !app_assoc. rewrite (app_assoc c "." s).
      apply (IH x' _ level); [|exact Hp|exact Hw].
      apply app_not_empty, Hc.
    + cbn [collectable] in Hp. apply andb_prop in Hp as [Hi Hp].
      apply Z.leb_le in Hi.
      destruct path as [|[s|] path]; try discriminate Hp.
      destruct x as [| | | |l| | | |];
        try (simpl in Hw; rewrite jm_walk_none in Hw; discriminate Hw).
      cbn [jm_step JMESPath.visit] in Hw.
      rewrite (py_index_front l i Hi) in Hw.
      destruct (l !! Z.to_nat i) as [item|] eqn:Hl;
        [|simpl in Hw; rewrite jm_walk_none in Hw; discriminate Hw].
      cbn [default] in Hw.
      assert (Hd : exists d, item = VDict d).
      { destruct item; try (simpl in Hw; rewrite jm_walk_none in Hw;
                            discriminate Hw). eauto. }
      destruct Hd as [d ->].
      change (item_keys (VList l) (TStr c))
        with (list_keys (VList l) (TStr c) l 0).
      apply (list_keys_member _ _ l 0 (Z.to_nat i) d); [exact Hl|].
      cbn [Nat.add format_token].
      specialize (IH (VDict d) (c +:+ "[" +:+ PyStr.of_nat (Z.to_nat i) +:+ "]")
                    level).
      change (item_keys (VDict d) ?k) with (_get_keys_to_drop_set (VDict d) k)
        in IH.
      change (render_tail (TInt i :: TStr s :: path))
        with ("[" +:+ PyStr.of_Z i +:+ "]" +:+ render_tail (TStr s :: path)).
      rewrite (of_Z_of_nat i Hi).
      rewrite ?app_assoc in IH. rewrite ?app_assoc.
      apply IH; [|exact Hp|exact Hw].
      apply app_not_empty, Hc.
Qed.

Lemma keys_to_drop_complete (source : value) (name : string)
    (path : list token) (level : Z) :
  name <> "" ->
  collectable path = true ->
  jm_walk source (TStr name :: path) = VDrop level ->
  TStr (render_path name path) ∈ _get_keys_to_drop_set source (TStr "").
Proof.
  intros Hn Hp Hw.
  change (jm_walk source (TStr name :: path))
    with (jm_walk (jm_step source (TStr name)) path) in Hw.
  destruct source as [| | | | | |d| |];
    try (simpl in Hw; rewrite jm_walk_none in Hw; discriminate Hw).
  simpl in Hw. destruct (dict_get (TStr name) d) as [x|] eqn:Hg;
    [|simpl in Hw; rewrite jm_walk_none in Hw; discriminate Hw].
  apply (keys_to_drop_member d (TStr "") (TStr name) x);
    [apply dict_get_elem_of, Hg|].
  change (curr_key_of (TStr "") (TStr name)) with (TStr name).
  apply (item_keys_complete path x name level Hn Hp Hw).
Qed.

Lemma keys_to_drop_member_inv (d : list (token * value)) (key_prefix : token)
    (key : token) :
  key ∈ _get_keys_to_drop_set (VDict d) key_prefix ->
  exists k v, (k, v) ∈ d /\ key ∈ item_keys v (curr_key_of key_prefix k).
Proof.
  induction d as [|[k v] d IH]; intros H.
  - apply elem_of_empty in H. contradiction.
  - rewrite keys_to_drop_cons in H. apply elem_of_union in H as [H|H].
    + exists k, v. split; [apply elem_of_cons; left; reflexivity|exact H].
    + destruct (IH H) as (k' & v' & Hin & Hk). exists k', v'.
      split; [apply elem_of_cons; right; exact Hin|exact Hk].
Qed.

Lemma list_keys_member_inv (v : value) (curr_key : token) (l : list value) :
  forall (i : nat) (key : token),
    is_rol v = false ->
    key ∈ list_keys v curr_key l i ->
    exists j d,
      l !! j = Some (VDict d)
      /\ key ∈ _get_keys_to_drop_set (VDict d)
                 (TStr (format_token curr_key +:+ "["
                        +:+ PyStr.of_nat (i + j) +:+ "]")).
Proof.
  induction l as [|item l IH]; intros i key Hv H.
  - apply elem_of_empty in H. contradiction.
  - rewrite list_keys_cons, Hv in H. apply elem_of_union in H as [H|H].
    + destruct item; try (apply elem_of_empty in H; contradiction).
      exists 0%nat, d. rewrite Nat.add_0_r. split; [reflexivity|exact H].
    + destruct (IH (S i) key Hv H) as (j & d & Hj & Hk).
      exists (S j), d. split; [exact Hj|].
      replace (i + S j)%nat with (S i + j)%nat by lia. exact Hk.
Qed.

Lemma well_keyed_dict (d : list (token * value)) :
  well_keyed (VDict d) = true ->
  NoDup (List.map fst d)
  /\ forall k v, (k, v) ∈ d ->
       (exists s, k = TStr s /\ identifier s = true) /\ well_keyed v = true.
Proof.
  cbn [well_keyed]. intros H. apply andb_prop in H as [Hn H].
  split; [apply bool_decide_eq_true in Hn; exact Hn|]. clear Hn.
  induction d as [|[k x] d IH]; intros k0 v0 Hin.
  - apply elem_of_nil in Hin. contradiction.
  - apply andb_prop in H as [H Hr]. apply andb_prop in H as [Hk Hx].
    apply elem_of_cons in Hin as [[= -> ->]|Hin]; [|apply IH; assumption].
    split; [|exact Hx]. destruct k as [s|]; [eauto|discriminate].
Qed.

Lemma well_keyed_list (l : list value) :
  well_keyed (VList l) = true ->
  forall j x, l !! j = Some x -> well_keyed x = true.
Proof.
  cbn [well_keyed]. induction l as [|y l IH]; intros H j x Hj; [discriminate|].
  apply andb_prop in H as [Hy Hl]. destruct j as [|j].
  - injection Hj as <-. exact Hy.
  - apply (IH Hl j x Hj).
Qed.

Lemma dict_get_nodup (d : list (token * value)) (k : token) (v : value) :
  NoDup (List.map fst d) -> (k, v) ∈ d -> dict_get k d = Some v.
Proof.
  induction d as [|[k' v'] d IH]; intros Hn Hin.
  - apply elem_of_nil in Hin. contradiction.
  - simpl in Hn. apply NoDup_cons in Hn as [Hk Hn]. simpl.
    apply elem_of_cons in Hin as [[= <- <-]|Hin].
    + destruct (decide (k = k)); [reflexivity|contradiction].
    + destruct (decide (k' = k)) as [->|_]; [|apply IH; assumption].
      exfalso. apply Hk. clear -Hin.
      induction d as [|kv d IH]; [apply elem_of_nil in Hin; contradiction|].
      simpl. apply elem_of_cons.
      apply elem_of_cons in Hin as [<-|Hin]; [left; reflexivity|].
      right. apply IH, Hin.
Qed.

Lemma identifier_not_empty (s : string) : identifier s = true -> s <> "".
Proof. destruct s; [discriminate|discriminate]. Qed.

(** What one item of a well-keyed mapping contributes are texts of paths
    of identifiers and front indices that lead from the item to a marker. *)
Lemma item_keys_sound (x : value) :
  forall (c : string) (key : token),
    c <> "" ->
    well_keyed x = true ->
    key ∈ item_keys x (TStr c) ->
    exists path level,
      key = TStr (c +:+ render_tail path)
      /\ collectable path = true
      /\ identifiers path = true
      /\ jm_walk x path = VDrop level.
Proof.
  induction x as [| | | |l IH|l IH|d IH|level|] using value_ind';
    intros c key Hc Hwk Hk;
    try (apply elem_of_empty in Hk; contradiction).
  - change (item_keys (VList l) (TStr c))
      with (list_keys (VList l) (TStr c) l 0) in Hk.
    destruct (list_keys_member_inv (VList l) (TStr c) l 0%nat key eq_refl Hk)
      as (j & d & Hj & Hd).
    cbn [Nat.add format_token] in Hd.
    rewrite Forall_lookup in IH. specialize (IH j (VDict d) Hj).
    destruct (IH (c +:+ "[" +:+ PyStr.of_nat j +:+ "]") key)
      as (path & level & -> & Hcol & Hid & Hw).
    { apply app_not_empty, Hc. }
    { apply (well_keyed_list l Hwk j _ Hj). }
    { exact Hd. }
    assert (Hs : exists s r, path = TStr s :: r).
    { destruct path as [|[s|i] r]; [discriminate Hw|eauto|].
      change (jm_walk (VDict d) (TInt i :: r)) with (jm_walk VNone r) in Hw.
      rewrite jm_walk_none in Hw. discriminate Hw. }
    destruct Hs as (s & r & ->).
    exists (TInt (Z.of_nat j) :: TStr s :: r), level.
    split; [|split; [|split]].
    + change (render_tail (TInt (Z.of_nat j) :: TStr s :: r))
        with ("[" +:+ PyStr.of_Z (Z.of_nat j) +:+ "]"
              +:+ render_tail (TStr s :: r)).
      rewrite (of_Z_of_nat (Z.of_nat j)) by lia. rewrite Nat2Z.id.
      rewrite ?app_assoc. reflexivity.
    + cbn [collectable]. cbn [collectable] in Hcol. rewrite Hcol.
      destruct (Z.leb_spec 0 (Z.of_nat j)); [reflexivity|lia].
    + exact Hid.
    + change (jm_walk (VList l) (TInt (Z.of_nat j) :: TStr s :: r))
        with (jm_walk (default VNone (py_index l (Z.of_nat j))) (TStr s :: r)).
      rewrite py_index_front by lia. rewrite Nat2Z.id, Hj. exact Hw.
  - change (item_keys (VDict d) (TStr c))
      with (_get_keys_to_drop_set (VDict d) (TStr c)) in Hk.
    destruct (keys_to_drop_member_inv d _ key Hk) as (k & v & Hin & Hv).
    destruct (well_keyed_dict d Hwk) as [Hnd Hall].
    destruct (Hall k v Hin) as [(s & -> & Hs) Hwv].
    rewrite (curr_key_of_prefix c (TStr s) Hc) in Hv.
    rewrite Forall_forall in IH. specialize (IH (TStr s, v) Hin). simpl in IH.
    destruct (IH _ key (app_not_empty c _ Hc) Hwv Hv)
      as (path & level & -> & Hcol & Hid & Hw).
    exists (TStr s :: path), level. split; [|split; [|split]].
    + cbn [render_tail format_token]. rewrite ?app_assoc. reflexivity.
    + exact Hcol.
    + cbn [identifiers forallb]. rewrite Hs. exact Hid.
    + change (jm_walk (VDict d) (TStr s :: path))
        with (jm_walk (default VNone (dict_get (TStr s) d)) path).
      rewrite (dict_get_nodup d _ v Hnd Hin). exact Hw.
  - apply elem_of_singleton in Hk. subst key.
    exists [], level. rewrite app_nil_r. repeat split.
Qed.

Lemma keys_to_drop_sound (source : value) (key : token) :
  well_keyed source = true ->
  key ∈ _get_keys_to_drop_set source (TStr "") ->
  exists name path level,
    key = TStr (render_path name path)
    /\ identifier name = true
    /\ identifiers path = true
    /\ collectable path = true
    /\ jm_walk source (TStr name :: path) = VDrop level.
Proof.
  intros Hwk Hk.
  destruct source as [| | | | | |d| |];
    try (apply elem_of_empty in Hk; contradiction).
  destruct (keys_to_drop_member_inv d _ key Hk) as (k & v & Hin & Hv).
  destruct (well_keyed_dict d Hwk) as [Hnd Hall].
  destruct (Hall k v Hin) as [(s & -> & Hs) Hwv].
  change (curr_key_of (TStr "") (TStr s)) with (TStr s) in Hv.
  destruct (item_keys_sound v s key (identifier_not_empty s Hs) Hwv Hv)
    as (path & level & -> & Hcol & Hid & Hw).
  exists s, path, level. repeat split; try assumption.
  change (jm_walk (VDict d) (TStr s :: path))
    with (jm_walk (default VNone (dict_get (TStr s) d)) path).
  rewrite (dict_get_nodup d _ v Hnd Hin). exact Hw.
Qed.

(** X14. In a tree whose mappings are keyed by distinct identifiers,
    every key [_get_keys_to_drop_set] collects is the text of a path of
    names and front indices, is a plain key, and is resolved by
    [_nested_get] to a prune marker of the tree. *)
Theorem keys_to_drop_resolve_to_markers (source : value) (key : token) :
  well_keyed source = true ->
  key ∈ _get_keys_to_drop_set source (TStr "") ->
  exists name path level,
    key = TStr (render_path name path)
    /\ collectable path = true
    /\ plain_key (render_path name path) = true
    /\ _nested_get source (render_path name path) VNone = Ok (VDrop level).
Proof.
  intros Hwk Hk.
  destruct (keys_to_drop_sound source key Hwk Hk)
    as (name & path & level & -> & Hn & Hp & Hc & Hw).
  exists name, path, level. split; [reflexivity|]. split; [exact Hc|].
  pose proof (rendered_path_plain name path Hn Hp) as Hpl.
  split; [exact Hpl|].
  rewrite (plain_key_get _ source Hpl).
  rewrite (tokenize_rendered_path name path (identifier_plain_name _ Hn)
             (identifiers_plain_names _ Hp)).
  rewrite Hw. reflexivity.
Qed.

Lemma keys_to_drop_resolve_to_markers_witness :
  exists name path level,
    TStr "a.b[1].c" = TStr (render_path name path)
    /\ collectable path = true
    /\ plain_key (render_path name path) = true
    /\ _nested_get
         (VDict [(TStr "a", VDict [(TStr "b",
            VList [VInt 0; VDict [(TStr "c", VDrop (-2))]])])])
         (render_path name path) VNone = Ok (VDrop level).
Proof.
  apply (keys_to_drop_resolve_to_markers
           (VDict [(TStr "a", VDict [(TStr "b",
              VList [VInt 0; VDict [(TStr "c", VDrop (-2))]])])])
           (TStr "a.b[1].c")).
  - vm_compute. reflexivity.
  - vm_compute. reflexivity.
Defined.

(** X15. Conversely, every path of identifiers and front indices, each
    index followed by a name, that [_nested_get] resolves to a prune marker
    is collected by [_get_keys_to_drop_set], under its text. *)
Theorem keys_to_drop_collects_markers (source : value) (name : string)
    (path : list token) (level : Z) :
  identifier name = true ->
  identifiers path = true ->
  collectable path = true ->
  _nested_get source (render_path name path) VNone = Ok (VDrop level) ->
  TStr (render_path name path) ∈ _get_keys_to_drop_set source (TStr "").
Proof.
  intros Hn Hp Hc Hg.
  rewrite (plain_key_get _ source (rendered_path_plain name path Hn Hp)) in Hg.
  rewrite (tokenize_rendered_path name path (identifier_plain_name _ Hn)
             (identifiers_plain_names _ Hp)) in Hg.
  injection Hg as Hw.
  apply (keys_to_drop_complete source name path level
           (identifier_not_empty name Hn) Hc Hw).
Qed.

Lemma keys_to_drop_collects_markers_witness :
  TStr (render_path "a" [TStr "b"; TInt 1; TStr "c"])
  ∈ _get_keys_to_drop_set
      (VDict [(TStr "a", VDict [(TStr "b",
         VList [VInt 0; VDict [(TStr "c", VDrop (-2))]])])])
      (TStr "").
Proof.
  apply (keys_to_drop_collects_markers
           (VDict [(TStr "a", VDict [(TStr "b",
              VList [VInt 0; VDict [(TStr "c", VDrop (-2))]])])])
           "a" [TStr "b"; TInt 1; TStr "c"] (-2));
    vm_compute; reflexivity.
Defined.

(** ** [_unpack_tuple_keys] *)

Lemma mdict_get_elem_of (k : mkey) (d : list (mkey * mvalue)) (v : mvalue) :
  mdict_get k d = Some v -> (k, v) ∈ d.
Proof.
  induction d as [|[k' v'] d IH]; [discriminate|]. simpl.
  destruct (decide (k' = k)) as [->|_].
  - intros [= ->]. apply elem_of_cons. left. reflexivity.
  - intros H. apply elem_of_cons. right. apply IH, H.
Qed.

Lemma elem_of_keys (k : mkey) (v : mvalue) (d : list (mkey * mvalue)) :
  (k, v) ∈ d -> k ∈ List.map fst d.
Proof.
  induction d as [|kv d IH]; intros Hin;
    [apply elem_of_nil in Hin; contradiction|].
  simpl. apply elem_of_cons.
  apply elem_of_cons in Hin as [<-|Hin]; [left; reflexivity|].
  right. apply IH, Hin.
Qed.

Lemma keys_elem_of (k : mkey) (d : list (mkey * mvalue)) :
  k ∈ List.map fst d -> exists v, mdict_get k d = Some v.
Proof.
  induction d as [|[k' v'] d IH]; intros Hin;
    [apply elem_of_nil in Hin; contradiction|].
  simpl. destruct (decide (k' = k)) as [->|Hne]; [eauto|].
  simpl in Hin. apply elem_of_cons in Hin as [->|Hin]; [contradiction|].
  apply IH, Hin.
Qed.

Lemma mdict_get_nodup (d : list (mkey * mvalue)) (k : mkey) (v : mvalue) :
  NoDup (List.map fst d) -> (k, v) ∈ d -> mdict_get k d = Some v.
Proof.
  induction d as [|[k' v'] d IH]; intros Hn Hin.
  - apply elem_of_nil in Hin. contradiction.
  - simpl in Hn. apply NoDup_cons in Hn as [Hk Hn]. simpl.
    apply elem_of_cons in Hin as [[= <- <-]|Hin].
    + destruct (decide (k = k)); [reflexivity|contradiction].
    + destruct (decide (k' = k)) as [->|_]; [|apply IH; assumption].
      exfalso. apply Hk. apply (elem_of_keys k v d Hin).
Qed.

Lemma mdict_set_same (k : mkey) (v : mvalue) (d : list (mkey * mvalue)) :
  mdict_get k d = Some v -> mdict_set k v d = d.
Proof.
  induction d as [|[k' v'] d IH]; [discriminate|]. simpl.
  destruct (decide (k' = k)) as [->|_].
  - intros [= ->]. reflexivity.
  - intros H. rewrite (IH H). reflexivity.
Qed.


Lemma mdict_get_set (k k' : mkey) (v : mvalue) (d : list (mkey * mvalue)) :
  mdict_get k' (mdict_set k v d)
  = if decide (k = k') then Some v else mdict_get k' d.
Proof.
  induction d as [|[k0 v0] d IH]; simpl.
  - destruct (decide (k = k')); reflexivity.
  - destruct (decide (k0 = k)) as [->|Hne]; simpl.
    + destruct (decide (k = k')); reflexivity.
    + rewrite IH. destruct (decide (k0 = k')) as [->|_]; [|reflexivity].
      destruct (decide (k = k')) as [->|_]; [contradiction|reflexivity].
Qed.

Lemma mdict_pop_spec (k : mkey) (d : list (mkey * mvalue)) (v : mvalue)
    (d' : list (mkey * mvalue)) :
  mdict_pop k d = Some (v, d') ->
  mdict_get k d = Some v
  /\ (forall k', k' <> k -> mdict_get k' d' = mdict_get k' d)
  /\ (forall k', k' ∈ List.map fst d' -> k' ∈ List.map fst d)
  /\ (NoDup (List.map fst d) ->
      NoDup (List.map fst d') /\ k ∉ List.map fst d').
Proof.
  revert v d'. induction d as [|[k0 v0] d IH]; intros v d'; [discriminate|].
  simpl. destruct (decide (k0 = k)) as [->|Hne].
  - intros [= <- <-]. split; [reflexivity|]. split; [|split].
    + intros k' Hk'. destruct (decide (k = k')); [congruence|reflexivity].
    + intros k' Hk'. apply elem_of_cons. right. exact Hk'.
    + intros Hn. apply NoDup_cons in Hn as [Hk Hn]. split; assumption.
  - destruct (mdict_pop k d) as [[v1 d1]|] eqn:Hp; [|discriminate].
    simpl. intros [= <- <-].
    destruct (IH v1 d1 eq_refl) as (Hg & Ho & Hk & Hnd).
    split; [exact Hg|]. split; [|split].
    + intros k' Hk'. simpl. rewrite (Ho k' Hk'). reflexivity.
    + intros k'. simpl. rewrite !elem_of_cons. intros [->|H]; [auto|].
      right. apply Hk, H.
    + intros Hn. apply NoDup_cons in Hn as [Hk0 Hn].
      destruct (Hnd Hn) as [Hn1 Hk1]. split.
      * simpl. apply NoDup_cons. split; [|exact Hn1].
        intros Hin. apply Hk0, Hk, Hin.
      * simpl. rewrite elem_of_cons. intros [->|Hin]; [contradiction|].
        apply Hk1, Hin.
Qed.

Lemma mdict_pop_found (k : mkey) (d : list (mkey * mvalue)) (v : mvalue) :
  mdict_get k d = Some v -> exists d', mdict_pop k d = Some (v, d').
Proof.
  induction d as [|[k0 v0] d IH]; [discriminate|]. simpl.
  destruct (decide (k0 = k)) as [->|Hne].
  - intros [= ->]. eauto.
  - intros H. destruct (IH H) as [d' ->]. simpl. eauto.
Qed.

Lemma insert_back_get (ks : list token) :
  forall (vs : list mvalue) (res : list (mkey * mvalue)) (k : mkey)
         (x : mvalue),
    mdict_get k (insert_back ks vs res) = Some x ->
    mdict_get k res = Some x \/ x ∈ vs.
Proof.
  induction ks as [|new_key ks IH]; intros vs res k x H; [left; exact H|].
  destruct vs as [|v vs]; [left; exact H|]. simpl in H.
  destruct (IH vs _ k x H) as [Hg|Hin].
  - rewrite mdict_get_set in Hg.
    destruct (decide (KTok new_key = k)) as [_|_]; [|left; exact Hg].
    injection Hg as <-. right. apply elem_of_cons. left. reflexivity.
  - right. apply elem_of_cons. right. exact Hin.
Qed.


(** What a tree holds is no deeper than the tree, and has distinct keys
    where the tree has. *)
Lemma mdepth_dict_value (d : list (mkey * mvalue)) (k : mkey) (x : mvalue) :
  (k, x) ∈ d -> (mdepth x < mdepth (MDict d))%nat.
Proof.
  cbn [mdepth]. induction d as [|[k0 x0] d IH]; intros Hin;
    [apply elem_of_nil in Hin; contradiction|].
  apply elem_of_cons in Hin as [[= <- <-]|Hin]; [lia|].
  specialize (IH Hin). lia.
Qed.

Lemma mdepth_member (l : list mvalue) (x : mvalue) :
  x ∈ l ->
  (mdepth x < mdepth (MList l))%nat /\ (mdepth x < mdepth (MTuple l))%nat.
Proof.
  cbn [mdepth]. induction l as [|x0 l IH]; intros Hin;
    [apply elem_of_nil in Hin; contradiction|].
  apply elem_of_cons in Hin as [<-|Hin]; [lia|].
  specialize (IH Hin). lia.
Qed.

Lemma distinct_keys_dict (d : list (mkey * mvalue)) :
  distinct_keys (MDict d) = true ->
  NoDup (List.map fst d)
  /\ forall k x, (k, x) ∈ d -> distinct_keys x = true.
Proof.
  cbn [distinct_keys]. intros H. apply andb_prop in H as [Hn H].
  split; [apply bool_decide_eq_true in Hn; exact Hn|]. clear Hn.
  induction d as [|[k0 x0] d IH]; intros k x Hin;
    [apply elem_of_nil in Hin; contradiction|].
  apply andb_prop in H as [Hx Hr].
  apply elem_of_cons in Hin as [[= -> ->]|Hin]; [exact Hx|].
  apply (IH Hr k x Hin).
Qed.

Lemma distinct_keys_member (l : list mvalue) (x : mvalue) :
  distinct_keys (MList l) = true \/ distinct_keys (MTuple l) = true ->
  x ∈ l -> distinct_keys x = true.
Proof.
  intros H. assert (H' : distinct_keys (MList l) = true).
  { destruct H as [H|H]; exact H. }
  clear H. cbn [distinct_keys] in H'.
  induction l as [|x0 l IH]; intros Hin;
    [apply elem_of_nil in Hin; contradiction|].
  apply andb_prop in H' as [Hx Hr].
  apply elem_of_cons in Hin as [->|Hin]; [exact Hx|apply (IH Hr Hin)].
Qed.

(** The mappings an iteration yields are members of a list or a tuple. *)
Lemma py_iter_dict_member (x : mvalue) (objs : list mvalue)
    (d : list (mkey * mvalue)) :
  py_iter x = Some objs -> MDict d ∈ objs ->
  (x = MList objs \/ x = MTuple objs).
Proof.
  destruct x as [p| |l|l|d0]; simpl; try discriminate.
  - destruct p; try discriminate. intros [= <-] Hin. exfalso.
    induction s as [|c s IH]; [apply elem_of_nil in Hin; contradiction|].
    simpl in Hin. apply elem_of_cons in Hin as [Hin|Hin];
      [discriminate|auto].
  - intros [= <-] _. left. reflexivity.
  - intros [= <-] _. right. reflexivity.
  - intros [= <-] Hin. exfalso.
    induction d0 as [|[k v] d0 IH]; [apply elem_of_nil in Hin; contradiction|].
    simpl in Hin. apply elem_of_cons in Hin as [Hin|Hin]; [|auto].
    destruct k as [[s|i]|ks]; discriminate.
Qed.

Lemma unpack_members_enough (rec : mvalue -> unpacked mvalue)
    (objs : list mvalue) :
  (forall d, MDict d ∈ objs -> rec (MDict d) <> OutOfFuel) ->
  unpack_members rec objs <> OutOfFuel.
Proof.
  induction objs as [|obj objs IH]; intros H; [discriminate|].
  cbn [unpack_members].
  assert (Hobj : match obj with MDict _ => rec obj | _ => Unpacked obj end
                 <> OutOfFuel).
  { destruct obj; try discriminate. apply H, elem_of_cons. left. reflexivity. }
  destruct (match obj with MDict _ => rec obj | _ => Unpacked obj end);
    [|discriminate|contradiction].
  assert (Hr : unpack_members rec objs <> OutOfFuel).
  { apply IH. intros d Hd. apply H, elem_of_cons. right. exact Hd. }
  destruct (unpack_members rec objs); [discriminate|discriminate|contradiction].
Qed.

(** The loop never lacks allowance when the recursive call has enough of
    it for everything bound to a key still to be visited. *)
Lemma unpack_loop_enough (rec : mvalue -> unpacked mvalue) (n : nat) :
  (forall x, distinct_keys x = true -> (mdepth x <= n)%nat ->
             rec x <> OutOfFuel) ->
  forall (items res : list (mkey * mvalue)),
    NoDup (List.map fst items) ->
    (forall k x, k ∈ List.map fst items -> mdict_get k res = Some x ->
                 distinct_keys x = true /\ (mdepth x <= n)%nat) ->
    unpack_loop rec items res <> OutOfFuel.
Proof.
  intros Hrec. induction items as [|[k v] rest IH]; intros res Hnd Hinv;
    [discriminate|].
  simpl in Hnd. apply NoDup_cons in Hnd as [Hk Hnd].
  assert (Hhere : forall x, mdict_get k res = Some x ->
                            distinct_keys x = true /\ (mdepth x <= n)%nat).
  { intros x Hx. apply (Hinv k x); [|exact Hx]. simpl. apply elem_of_cons.
    left. reflexivity. }
  assert (Hset : forall x' k' x,
            k' ∈ List.map fst rest ->
            mdict_get k' (mdict_set k x' res) = Some x ->
            distinct_keys x = true /\ (mdepth x <= n)%nat).
  { intros x' k' x Hk' Hx. rewrite mdict_get_set in Hx.
    destruct (decide (k = k')) as [->|_]; [contradiction|].
    apply (Hinv k' x); [|exact Hx]. simpl. apply elem_of_cons. right.
    exact Hk'. }
  assert (Hsame : forall k' x,
            k' ∈ List.map fst rest -> mdict_get k' res = Some x ->
            distinct_keys x = true /\ (mdepth x <= n)%nat).
  { intros k' x Hk' Hx. apply (Hinv k' x); [|exact Hx]. simpl.
    apply elem_of_cons. right. exact Hk'. }
  assert (Htuple : forall ks,
            k = KTuple ks ->
            match mdict_pop k res with
            | None => UnpackRaise (MissingKey k)
            | Some (vals, res') =>
                if mtruthy vals then
                  match vals with
                  | MTuple vs =>
                      if (length ks =? length vs)%nat
                      then unpack_loop rec rest (insert_back ks vs res')
                      else UnpackRaise (TupleKeyMismatch ks vals)
                  | _ => UnpackRaise (TupleKeyMismatch ks vals)
                  end
                else unpack_loop rec rest res'
            end <> OutOfFuel).
  { intros ks Hks.
    destruct (mdict_pop k res) as [[vals res']|] eqn:Hp; [|discriminate].
    destruct (mdict_pop_spec k res vals res' Hp) as (Hg & Ho & _ & _).
    assert (Hrest : forall k' x,
              k' ∈ List.map fst rest -> mdict_get k' res' = Some x ->
              distinct_keys x = true /\ (mdepth x <= n)%nat).
    { intros k' x Hk' Hx. apply (Hsame k' x Hk').
      rewrite <- Ho; [exact Hx|]. intros ->. contradiction. }
    destruct (mtruthy vals); [|apply IH; assumption].
    destruct vals as [| | |vs|]; try discriminate.
    destruct (length ks =? length vs)%nat; [|discriminate].
    apply IH; [exact Hnd|]. intros k' x Hk' Hx.
    destruct (insert_back_get ks vs res' k' x Hx) as [Hold|Hin];
      [apply (Hrest k' x Hk' Hold)|].
    destruct (Hhere _ Hg) as [Hdv Hdp]. split.
    - apply (distinct_keys_member vs x (or_intror Hdv) Hin).
    - pose proof (mdepth_member vs x Hin) as [_ Hlt]. lia. }
  cbn [unpack_loop].
  destruct v as [p|level|l|l|d].
  - destruct k as [t|ks]; [apply IH; assumption|apply (Htuple ks eq_refl)].
  - destruct k as [t|ks]; [apply IH; assumption|apply (Htuple ks eq_refl)].
  - destruct (mdict_get k res) as [x|] eqn:Hx; [|discriminate].
    destruct (Hhere x eq_refl) as [Hdx Hpx].
    destruct (py_iter x) as [objs|] eqn:Hit; [|discriminate].
    assert (Hm : unpack_members rec objs <> OutOfFuel).
    { apply unpack_members_enough. intros d Hd. apply Hrec.
      - destruct (py_iter_dict_member x objs d Hit Hd) as [-> | ->].
        + apply (distinct_keys_member objs _ (or_introl Hdx) Hd).
        + apply (distinct_keys_member objs _ (or_intror Hdx) Hd).
      - pose proof (mdepth_member objs _ Hd) as [H1 H2].
        destruct (py_iter_dict_member x objs d Hit Hd) as [-> | ->]; lia. }
    destruct (unpack_members rec objs) as [objs'| |];
      [|discriminate|contradiction].
    apply IH; [exact Hnd|apply Hset].
  - destruct k as [t|ks]; [apply IH; assumption|apply (Htuple ks eq_refl)].
  - destruct (mdict_get k res) as [x|] eqn:Hx; [|discriminate].
    destruct (Hhere x eq_refl) as [Hdx Hpx].
    pose proof (Hrec x Hdx Hpx) as Hr.
    destruct (rec x) as [x'| |]; [|discriminate|contradiction].
    apply IH; [exact Hnd|apply Hset].
Qed.

Lemma unpack_fuel_enough (fuel : nat) :
  forall source,
    distinct_keys source = true -> (mdepth source <= fuel)%nat ->
    _unpack_tuple_keys_fuel fuel source <> OutOfFuel.
Proof.
  induction fuel as [|fuel IH]; intros source Hd Hf.
  - destruct source; try discriminate. cbn [mdepth] in Hf. lia.
  - destruct source as [| | | |d]; try discriminate.
    cbn [_unpack_tuple_keys_fuel].
    destruct (distinct_keys_dict d Hd) as [Hnd Hall].
    apply (unpack_loop_enough _ fuel IH d d Hnd).
    intros k x _ Hx. apply mdict_get_elem_of in Hx. split.
    + apply (Hall k x Hx).
    + pose proof (mdepth_dict_value d k x Hx). lia.
Qed.

(** A larger allowance changes no outcome other than the lack of it. *)
Lemma unpack_members_more (rec rec' : mvalue -> unpacked mvalue)
    (objs : list mvalue) :
  (forall x, rec x <> OutOfFuel -> rec' x = rec x) ->
  unpack_members rec objs <> OutOfFuel ->
  unpack_members rec' objs = unpack_members rec objs.
Proof.
  intros Hrec. induction objs as [|obj objs IH]; [reflexivity|].
  cbn [unpack_members]. intros H.
  assert (Hobj : match obj with MDict _ => rec obj | _ => Unpacked obj end
                 <> OutOfFuel ->
                 match obj with MDict _ => rec' obj | _ => Unpacked obj end
                 = match obj with MDict _ => rec obj | _ => Unpacked obj end).
  { destruct obj; try reflexivity. apply Hrec. }
  destruct (match obj with MDict _ => rec obj | _ => Unpacked obj end)
    as [obj'|e|] eqn:Ho; [| |contradiction];
    rewrite Hobj by discriminate; [|reflexivity].
  destruct (unpack_members rec objs) as [r'|e|] eqn:Hr; [| |contradiction];
    rewrite IH by discriminate; reflexivity.
Qed.

Lemma unpack_loop_more (rec rec' : mvalue -> unpacked mvalue) :
  (forall x, rec x <> OutOfFuel -> rec' x = rec x) ->
  forall (items res : list (mkey * mvalue)),
    unpack_loop rec items res <> OutOfFuel ->
    unpack_loop rec' items res = unpack_loop rec items res.
Proof.
  intros Hrec. induction items as [|[k v] rest IH]; intros res H;
    [reflexivity|].
  cbn [unpack_loop] in H |- *.
  assert (Htuple :
    match k with
    | KTuple ks =>
        match mdict_pop k res with
        | None => UnpackRaise (MissingKey k)
        | Some (vals, res') =>
            if mtruthy vals then
              match vals with
              | MTuple vs =>
                  if (length ks =? length vs)%nat
                  then unpack_loop rec rest (insert_back ks vs res')
                  else UnpackRaise (TupleKeyMismatch ks vals)
              | _ => UnpackRaise (TupleKeyMismatch ks vals)
              end
            else unpack_loop rec rest res'
        end
    | KTok _ => unpack_loop rec rest res
    end <> OutOfFuel ->
    match k with
    | KTuple ks =>
        match mdict_pop k res with
        | None => UnpackRaise (MissingKey k)
        | Some (vals, res') =>
            if mtruthy vals then
              match vals with
              | MTuple vs =>
                  if (length ks =? length vs)%nat
                  then unpack_loop rec' rest (insert_back ks vs res')
                  else UnpackRaise (TupleKeyMismatch ks vals)
              | _ => UnpackRaise (TupleKeyMismatch ks vals)
              end
            else unpack_loop rec' rest res'
        end
    | KTok _ => unpack_loop rec' rest res
    end
    = match k with
      | KTuple ks =>
          match mdict_pop k res with
          | None => UnpackRaise (MissingKey k)
          | Some (vals, res') =>
              if mtruthy vals then
                match vals with
                | MTuple vs =>
                    if (length ks =? length vs)%nat
                    then unpack_loop rec rest (insert_back ks vs res')
                    else UnpackRaise (TupleKeyMismatch ks vals)
                | _ => UnpackRaise (TupleKeyMismatch ks vals)
                end
              else unpack_loop rec rest res'
          end
      | KTok _ => unpack_loop rec rest res
      end).
  { destruct k as [t|ks]; [apply IH|].
    destruct (mdict_pop (KTuple ks) res) as [[vals res']|]; [|reflexivity].
    destruct (mtruthy vals); [|apply IH].
    destruct vals as [| | |vs|]; try reflexivity.
    destruct (length ks =? length vs)%nat; [apply IH|reflexivity]. }
  destruct v as [p|level|l|l|d]; try (apply Htuple; exact H).
  - destruct (mdict_get k res) as [x|]; [|reflexivity].
    destruct (py_iter x) as [objs|]; [|reflexivity].
    destruct (unpack_members rec objs) as [objs'|e|] eqn:Hm;
      [| |contradiction];
      rewrite (unpack_members_more rec rec' objs Hrec) by (rewrite Hm; discriminate);
      rewrite Hm; [apply IH; exact H|reflexivity].
  - destruct (mdict_get k res) as [x|]; [|reflexivity].
    destruct (rec x) as [x'|e|] eqn:Hx; [| |contradiction];
      rewrite (Hrec x) by (rewrite Hx; discriminate); rewrite Hx;
      [apply IH; exact H|reflexivity].
Qed.

Lemma unpack_fuel_more (fuel : nat) :
  forall (fuel' : nat) (source : mvalue),
    (fuel <= fuel')%nat ->
    _unpack_tuple_keys_fuel fuel source <> OutOfFuel ->
    _unpack_tuple_keys_fuel fuel' source = _unpack_tuple_keys_fuel fuel source.
Proof.
  induction fuel as [|fuel IH]; intros fuel' source Hle H.
  - destruct source; try (destruct fuel'; reflexivity).
    exfalso. apply H. reflexivity.
  - destruct fuel' as [|fuel']; [lia|].
    destruct source as [| | | |d]; try reflexivity.
    cbn [_unpack_tuple_keys_fuel] in H |- *.
    apply unpack_loop_more; [|exact H].
    intros x Hx. apply IH; [lia|exact Hx].
Qed.

(** X16. [_unpack_tuple_keys] terminates on every tree whose mappings
    have distinct keys: its nested calls go no deeper than the tree is
    nested, so the call returns a tree or raises, and a larger allowance of
    nested calls gives the same outcome. *)
Theorem unpack_tuple_keys_terminates (source : mvalue) (fuel : nat) :
  distinct_keys source = true ->
  (mdepth source <= fuel)%nat ->
  _unpack_tuple_keys source <> OutOfFuel
  /\ _unpack_tuple_keys_fuel fuel source = _unpack_tuple_keys source.
Proof.
  intros Hd Hf. unfold _unpack_tuple_keys.
  pose proof (unpack_fuel_enough (mdepth source) source Hd (le_n _)) as He.
  split; [exact He|].
  apply (unpack_fuel_more (mdepth source) fuel source Hf He).
Qed.

Lemma unpack_tuple_keys_terminates_witness :
  _unpack_tuple_keys
    (MDict [(KTuple [TStr "a"; TStr "b"],
             MTuple [MLit (LInt 1); MDict [(KTok (TStr "c"), MLit LNone)]]);
            (KTok (TStr "b"), MDict [])]) <> OutOfFuel
  /\ _unpack_tuple_keys_fuel 7
       (MDict [(KTuple [TStr "a"; TStr "b"],
                MTuple [MLit (LInt 1); MDict [(KTok (TStr "c"), MLit LNone)]]);
               (KTok (TStr "b"), MDict [])])
     = _unpack_tuple_keys
         (MDict [(KTuple [TStr "a"; TStr "b"],
                  MTuple [MLit (LInt 1); MDict [(KTok (TStr "c"), MLit LNone)]]);
                 (KTok (TStr "b"), MDict [])]).
Proof.
  apply unpack_tuple_keys_terminates; [vm_compute; reflexivity|].
  simpl. lia.
Defined.

(** *** Trees without tuple keys *)

Lemma no_tuple_keys_dict (d : list (mkey * mvalue)) :
  no_tuple_keys (MDict d) = true ->
  forall k x, (k, x) ∈ d -> (exists t, k = KTok t) /\ no_tuple_keys x = true.
Proof.
  cbn [no_tuple_keys]. induction d as [|[k0 x0] d IH]; intros H k x Hin;
    [apply elem_of_nil in Hin; contradiction|].
  apply andb_prop in H as [H Hr]. apply andb_prop in H as [Hk Hx].
  apply elem_of_cons in Hin as [[= -> ->]|Hin]; [|apply (IH Hr k x Hin)].
  split; [|exact Hx]. destruct k0 as [t|]; [eauto|discriminate].
Qed.

Lemma no_tuple_keys_member (l : list mvalue) (x : mvalue) :
  no_tuple_keys (MList l) = true -> x ∈ l -> no_tuple_keys x = true.
Proof.
  cbn [no_tuple_keys]. induction l as [|x0 l IH]; intros H Hin;
    [apply elem_of_nil in Hin; contradiction|].
  apply andb_prop in H as [Hx Hr].
  apply elem_of_cons in Hin as [->|Hin]; [exact Hx|apply (IH Hr Hin)].
Qed.

Lemma unpack_members_identity (rec : mvalue -> unpacked mvalue)
    (l : list mvalue) :
  (forall d, MDict d ∈ l -> rec (MDict d) = Unpacked (MDict d)) ->
  unpack_members rec l = Unpacked l.
Proof.
  induction l as [|obj l IH]; intros H; [reflexivity|].
  cbn [unpack_members].
  assert (Hobj : match obj with MDict _ => rec obj | _ => Unpacked obj end
                 = Unpacked obj).
  { destruct obj; try reflexivity. apply H, elem_of_cons. left. reflexivity. }
  rewrite Hobj, IH; [reflexivity|].
  intros d Hd. apply H, elem_of_cons. right. exact Hd.
Qed.

Lemma unpack_loop_identity (rec : mvalue -> unpacked mvalue)
    (d : list (mkey * mvalue)) :
  forall items,
    (forall k v, (k, v) ∈ items ->
       mdict_get k d = Some v
       /\ (exists t, k = KTok t)
       /\ (forall d', v = MDict d' -> rec v = Unpacked v)
       /\ (forall l d', v = MList l -> MDict d' ∈ l ->
             rec (MDict d') = Unpacked (MDict d'))) ->
    unpack_loop rec items d = Unpacked (MDict d).
Proof.
  induction items as [|[k v] rest IH]; intros H; [reflexivity|].
  assert (Hrest : unpack_loop rec rest d = Unpacked (MDict d)).
  { apply IH. intros k' v' Hin. apply H, elem_of_cons. right. exact Hin. }
  destruct (H k v) as (Hg & (t & ->) & Hd & Hl);
    [apply elem_of_cons; left; reflexivity|].
  cbn [unpack_loop]. destruct v as [p|level|l|l|d']; try exact Hrest.
  - rewrite Hg. cbn [py_iter].
    rewrite (unpack_members_identity rec l (fun d' => Hl l d' eq_refl)).
    rewrite (mdict_set_same _ _ _ Hg). exact Hrest.
  - rewrite Hg, (Hd d' eq_refl), (mdict_set_same _ _ _ Hg). exact Hrest.
Qed.

Lemma unpack_fuel_identity (fuel : nat) :
  forall d,
    distinct_keys (MDict d) = true ->
    no_tuple_keys (MDict d) = true ->
    (mdepth (MDict d) <= fuel)%nat ->
    _unpack_tuple_keys_fuel fuel (MDict d) = Unpacked (MDict d).
Proof.
  induction fuel as [|fuel IH]; intros d Hd Hn Hf;
    [cbn [mdepth] in Hf; lia|].
  cbn [_unpack_tuple_keys_fuel].
  destruct (distinct_keys_dict d Hd) as [Hnd Hall].
  apply unpack_loop_identity. intros k v Hin.
  destruct (no_tuple_keys_dict d Hn k v Hin) as [Hk Hv].
  pose proof (mdepth_dict_value d k v Hin) as Hlt.
  split; [apply (mdict_get_nodup d k v Hnd Hin)|]. split; [exact Hk|]. split.
  - intros d' ->. apply IH; [apply (Hall k _ Hin)|exact Hv|lia].
  - intros l d' -> Hm. apply IH.
    + apply (distinct_keys_member l _ (or_introl (Hall k _ Hin)) Hm).
    + apply (no_tuple_keys_member l _ Hv Hm).
    + pose proof (mdepth_member l _ Hm) as [H1 _]. lia.
Qed.

(** X17. On a mapping without tuple keys, in itself and in the mappings
    and lists below it, [_unpack_tuple_keys] returns a tree equal to its
    argument. *)
Theorem unpack_tuple_keys_identity (d : list (mkey * mvalue)) :
  distinct_keys (MDict d) = true ->
  no_tuple_keys (MDict d) = true ->
  _unpack_tuple_keys (MDict d) = Unpacked (MDict d).
Proof.
  intros Hd Hn. apply (unpack_fuel_identity _ d Hd Hn (le_n _)).
Qed.

Lemma unpack_tuple_keys_identity_witness :
  _unpack_tuple_keys
    (MDict [(KTok (TStr "a"),
             MList [MDict [(KTok (TStr "b"), MLit (LInt 1))]; MLit LNone]);
            (KTok (TInt 2), MDict [(KTok (TStr "c"), MTuple [MDrop (-1)])])])
  = Unpacked
      (MDict [(KTok (TStr "a"),
               MList [MDict [(KTok (TStr "b"), MLit (LInt 1))]; MLit LNone]);
              (KTok (TInt 2), MDict [(KTok (TStr "c"), MTuple [MDrop (-1)])])]).
Proof.
  apply unpack_tuple_keys_identity; vm_compute; reflexivity.
Defined.

(** *** Tuple keys in the result *)






(** *** One tuple key among plain items *)

Lemma unpack_loop_flat_app (rec : mvalue -> unpacked mvalue)
    (d1 rest res : list (mkey * mvalue)) :
  flat_items d1 = true ->
  unpack_loop rec (d1 ++ rest)%list res = unpack_loop rec rest res.
Proof.
  induction d1 as [|[k v] d1 IH]; intros H; [reflexivity|].
  simpl in H. apply andb_prop in H as [H Hr]. apply andb_prop in H as [Hk Hv].
  destruct k as [t|]; [|discriminate].
  change (((KTok t, v) :: d1) ++ rest)%list
    with ((KTok t, v) :: (d1 ++ rest))%list.
  cbn [unpack_loop]. destruct v; try discriminate Hv; apply (IH Hr).
Qed.

Lemma unpack_loop_flat (rec : mvalue -> unpacked mvalue)
    (d res : list (mkey * mvalue)) :
  flat_items d = true -> unpack_loop rec d res = Unpacked (MDict res).
Proof.
  intros H. rewrite <- (List.app_nil_r d).
  rewrite (unpack_loop_flat_app rec d [] res H). reflexivity.
Qed.

Lemma flat_items_no_tuple (d : list (mkey * mvalue)) (ks : list token) :
  flat_items d = true -> KTuple ks ∉ List.map fst d.
Proof.
  induction d as [|[k v] d IH]; intros H; [apply not_elem_of_nil|].
  simpl in H. apply andb_prop in H as [H Hr]. apply andb_prop in H as [Hk _].
  simpl. intros Hin. apply elem_of_cons in Hin as [<-|Hin]; [discriminate|].
  apply (IH Hr Hin).
Qed.

Lemma mdict_pop_after_flat (d1 d2 : list (mkey * mvalue)) (ks : list token)
    (v : mvalue) :
  flat_items d1 = true ->
  mdict_pop (KTuple ks) (d1 ++ (KTuple ks, v) :: d2)%list
  = Some (v, (d1 ++ d2)%list).
Proof.
  induction d1 as [|[k0 v0] d1 IH]; intros H.
  - simpl. destruct (decide (KTuple ks = KTuple ks)); [reflexivity|contradiction].
  - simpl in H. apply andb_prop in H as [H Hr]. apply andb_prop in H as [Hk _].
    destruct k0 as [t|]; [|discriminate]. simpl.
    destruct (decide (KTok t = KTuple ks)); [discriminate|].
    rewrite (IH Hr). reflexivity.
Qed.

Lemma mdict_get_not_key (k : mkey) (d : list (mkey * mvalue)) :
  k ∉ List.map fst d -> mdict_get k d = None.
Proof.
  intros H. destruct (mdict_get k d) as [v|] eqn:Hg; [|reflexivity].
  exfalso. apply H, (elem_of_keys k v), mdict_get_elem_of, Hg.
Qed.

Lemma insert_back_get_other (ks : list token) :
  forall (vs : list mvalue) (res : list (mkey * mvalue)) (k : mkey),
    (forall t, k = KTok t -> t ∉ ks) ->
    mdict_get k (insert_back ks vs res) = mdict_get k res.
Proof.
  induction ks as [|new_key ks IH]; intros vs res k H; [reflexivity|].
  destruct vs as [|v vs]; [reflexivity|]. simpl.
  rewrite IH.
  - rewrite mdict_get_set.
    destruct (decide (KTok new_key = k)) as [<-|_]; [|reflexivity].
    exfalso. apply (H new_key eq_refl), elem_of_cons. left. reflexivity.
  - intros t Ht Hin. apply (H t Ht), elem_of_cons. right. exact Hin.
Qed.

Lemma insert_back_get_new (ks : list token) :
  forall (vs : list mvalue) (res : list (mkey * mvalue)) (i : nat)
         (new_key : token) (v : mvalue),
    NoDup ks -> ks !! i = Some new_key -> vs !! i = Some v ->
    mdict_get (KTok new_key) (insert_back ks vs res) = Some v.
Proof.
  induction ks as [|k0 ks IH]; intros vs res i new_key v Hn Hk Hv;
    [discriminate|].
  destruct vs as [|v0 vs]; [discriminate|].
  apply NoDup_cons in Hn as [Hk0 Hn]. simpl. destruct i as [|i].
  - injection Hk as ->. injection Hv as ->.
    rewrite insert_back_get_other, mdict_get_set.
    + destruct (decide (KTok new_key = KTok new_key)); [reflexivity|contradiction].
    + intros t [= <-]. exact Hk0.
  - apply (IH vs _ i new_key v Hn Hk Hv).
Qed.

Lemma unpack_one_tuple_key (d1 d2 : list (mkey * mvalue)) (ks : list token)
    (vals : mvalue) :
  flat_items d1 = true ->
  is_container vals = false ->
  _unpack_tuple_keys (MDict (d1 ++ (KTuple ks, vals) :: d2)%list)
  = if mtruthy vals then
      match vals with
      | MTuple vs =>
          if (length ks =? length vs)%nat
          then unpack_loop
                 (_unpack_tuple_keys_fuel
                    (pred (mdepth (MDict (d1 ++ (KTuple ks, vals) :: d2)%list))))
                 d2 (insert_back ks vs (d1 ++ d2)%list)
          else UnpackRaise (TupleKeyMismatch ks vals)
      | _ => UnpackRaise (TupleKeyMismatch ks vals)
      end
    else unpack_loop
           (_unpack_tuple_keys_fuel
              (pred (mdepth (MDict (d1 ++ (KTuple ks, vals) :: d2)%list))))
           d2 (d1 ++ d2)%list.
Proof.
  intros H1 Hc. unfold _unpack_tuple_keys.
  set (d := (d1 ++ (KTuple ks, vals) :: d2)%list).
  change (mdepth (MDict d)) with (S (pred (mdepth (MDict d)))).
  set (f := pred (mdepth (MDict d))).
  cbn [_unpack_tuple_keys_fuel]. unfold d at 1.
  rewrite (unpack_loop_flat_app _ d1 _ d H1).
  cbn [unpack_loop]. unfold d.
  rewrite (mdict_pop_after_flat d1 d2 ks vals H1).
  destruct vals; try discriminate Hc; reflexivity.
Qed.

(** X19. A tuple key bound to a tuple of the same length, among items
    that have names or integers as keys and neither a mapping nor a list as
    value: the key is taken out and its members are put back at the same
    level, each bound to the member of the value at its position, the
    other keys keeping what they had. *)
Theorem unpack_tuple_keys_unpacks (d1 d2 : list (mkey * mvalue))
    (ks : list token) (vs : list mvalue) :
  flat_items d1 = true ->
  flat_items d2 = true ->
  vs <> [] ->
  length ks = length vs ->
  exists r,
    _unpack_tuple_keys (MDict (d1 ++ (KTuple ks, MTuple vs) :: d2)%list)
    = Unpacked (MDict r)
    /\ r = insert_back ks vs (d1 ++ d2)%list
    /\ mdict_get (KTuple ks) r = None
    /\ (NoDup ks ->
        forall i new_key v,
          ks !! i = Some new_key -> vs !! i = Some v ->
          mdict_get (KTok new_key) r = Some v)
    /\ (forall t, t ∉ ks ->
          mdict_get (KTok t) r = mdict_get (KTok t) (d1 ++ d2)%list).
Proof.
  intros H1 H2 Hvs Hlen. exists (insert_back ks vs (d1 ++ d2)%list).
  split; [|split; [reflexivity|split; [|split]]].
  - rewrite (unpack_one_tuple_key d1 d2 ks (MTuple vs) H1 eq_refl).
    replace (mtruthy (MTuple vs)) with true by (destruct vs; [contradiction|reflexivity]).
    rewrite Hlen, Nat.eqb_refl. apply unpack_loop_flat, H2.
  - rewrite insert_back_get_other by discriminate.
    apply mdict_get_not_key. rewrite List.map_app. intros Hin.
    apply elem_of_app in Hin as [Hin|Hin].
    + apply (flat_items_no_tuple d1 ks H1 Hin).
    + apply (flat_items_no_tuple d2 ks H2 Hin).
  - intros Hn i new_key v Hk Hv.
    apply (insert_back_get_new ks vs _ i new_key v Hn Hk Hv).
  - intros t Ht. apply insert_back_get_other. intros t' [= <-]. exact Ht.
Qed.

Lemma unpack_tuple_keys_unpacks_witness :
  exists r,
    _unpack_tuple_keys
      (MDict ([(KTok (TStr "x"), MLit (LInt 0))]
              ++ (KTuple [TStr "a"; TStr "x"],
                  MTuple [MLit (LInt 1); MLit (LInt 2)])
                 :: [(KTok (TStr "y"), MLit LNone)])%list)
    = Unpacked (MDict r)
    /\ r = insert_back [TStr "a"; TStr "x"] [MLit (LInt 1); MLit (LInt 2)]
             ([(KTok (TStr "x"), MLit (LInt 0))]
              ++ [(KTok (TStr "y"), MLit LNone)])%list
    /\ mdict_get (KTuple [TStr "a"; TStr "x"]) r = None
    /\ (NoDup [TStr "a"; TStr "x"] ->
        forall i new_key v,
          [TStr "a"; TStr "x"] !! i = Some new_key ->
          [MLit (LInt 1); MLit (LInt 2)] !! i = Some v ->
          mdict_get (KTok new_key) r = Some v)
    /\ (forall t, t ∉ [TStr "a"; TStr "x"] ->
          mdict_get (KTok t) r
          = mdict_get (KTok t)
              ([(KTok (TStr "x"), MLit (LInt 0))]
               ++ [(KTok (TStr "y"), MLit LNone)])%list).
Proof.
  apply (unpack_tuple_keys_unpacks
           [(KTok (TStr "x"), MLit (LInt 0))]
           [(KTok (TStr "y"), MLit LNone)]
           [TStr "a"; TStr "x"] [MLit (LInt 1); MLit (LInt 2)]);
    [reflexivity|reflexivity|discriminate|reflexivity].
Defined.

(** X20. A tuple key bound to a truthy value that is neither a mapping nor
    a list, and is not a tuple of the length of the key, makes
    [_unpack_tuple_keys] raise its [RuntimeError], whatever follows the
    item, when the items before it have names or integers as keys and
    neither a mapping nor a list as value. *)
Theorem unpack_tuple_keys_mismatch_raises (d1 d2 : list (mkey * mvalue))
    (ks : list token) (vals : mvalue) :
  flat_items d1 = true ->
  is_container vals = false ->
  mtruthy vals = true ->
  (forall vs, vals = MTuple vs -> length ks <> length vs) ->
  _unpack_tuple_keys (MDict (d1 ++ (KTuple ks, vals) :: d2)%list)
  = UnpackRaise (TupleKeyMismatch ks vals).
Proof.
  intros H1 Hc Ht Hm.
  rewrite (unpack_one_tuple_key d1 d2 ks vals H1 Hc), Ht.
  destruct vals as [| | |vs|]; try reflexivity.
  destruct (Nat.eqb_spec (length ks) (length vs)) as [He|_]; [|reflexivity].
  exfalso. apply (Hm vs eq_refl He).
Qed.

Lemma unpack_tuple_keys_mismatch_raises_witness :
  _unpack_tuple_keys
    (MDict ([(KTok (TStr "x"), MLit (LInt 0))]
            ++ (KTuple [TStr "a"; TStr "b"], MTuple [MLit (LInt 1)])
               :: [(KTok (TStr "y"), MDict [])])%list)
  = UnpackRaise (TupleKeyMismatch [TStr "a"; TStr "b"] (MTuple [MLit (LInt 1)])).
Proof.
  apply (unpack_tuple_keys_mismatch_raises
           [(KTok (TStr "x"), MLit (LInt 0))] [(KTok (TStr "y"), MDict [])]
           [TStr "a"; TStr "b"] (MTuple [MLit (LInt 1)]));
    [reflexivity|reflexivity|reflexivity|].
  intros vs [= <-]. discriminate.
Defined.

(** X21. A tuple key bound to a falsy value other than an empty mapping or
    list (null, false, zero, the empty string, the empty tuple) is removed
    and nothing is put back, without an error, whatever the length of the
    key. *)
Theorem unpack_tuple_keys_drops_falsy (d1 d2 : list (mkey * mvalue))
    (ks : list token) (vals : mvalue) :
  flat_items d1 = true ->
  flat_items d2 = true ->
  is_container vals = false ->
  mtruthy vals = false ->
  _unpack_tuple_keys (MDict (d1 ++ (KTuple ks, vals) :: d2)%list)
  = Unpacked (MDict (d1 ++ d2)%list).
Proof.
  intros H1 H2 Hc Ht.
  rewrite (unpack_one_tuple_key d1 d2 ks vals H1 Hc), Ht.
  apply unpack_loop_flat, H2.
Qed.

Lemma unpack_tuple_keys_drops_falsy_witness :
  _unpack_tuple_keys
    (MDict ([(KTok (TStr "x"), MLit (LInt 0))]
            ++ (KTuple [TStr "a"; TStr "b"], MLit LNone)
               :: [(KTok (TStr "y"), MLit (LStr "z"))])%list)
  = Unpacked
      (MDict ([(KTok (TStr "x"), MLit (LInt 0))]
              ++ [(KTok (TStr "y"), MLit (LStr "z"))])%list).
Proof.
  apply (unpack_tuple_keys_drops_falsy
           [(KTok (TStr "x"), MLit (LInt 0))]
           [(KTok (TStr "y"), MLit (LStr "z"))]
           [TStr "a"; TStr "b"] (MLit LNone)); reflexivity.
Defined.

(** ** [impute_enum_values] at the requested keys *)

Lemma imputes_walk (toks : list token) :
  forall t t', imputes t t' -> imputes (jm_walk t toks) (jm_walk t' toks).
Proof.
  induction toks as [|k toks IH]; intros t t' H; [exact H|].
  apply (IH (jm_step t k) (jm_step t' k)), imputes_step, H.
Qed.

(** X22. A pass of [impute_enum_values] over plain keys puts the payload
    where the wrapper was: a requested key that resolves to a literal
    wrapper in the source resolves to the payload of that wrapper in the
    tree the pass returns, wherever the key stands among the requested keys
    and whatever the other keys are. *)
Theorem impute_replaces_requested_wrappers (source : value)
    (keys_to_impute : list string) (key : string) (p : literal) :
  Forall (fun key => plain_key key = true) keys_to_impute ->
  key ∈ keys_to_impute ->
  _nested_get source key VNone = Ok (VKeep p) ->
  exists res,
    impute_enum_values source keys_to_impute = Ok res
    /\ _nested_get res key VNone = Ok (value_of_literal p).
Proof.
  intros Hp Hin Hg.
  destruct (impute_pass keys_to_impute source Hp) as (res & Hr & Hi & Hall).
  exists res. split; [exact Hr|].
  rewrite Forall_forall in Hp, Hall.
  specialize (Hp key Hin). specialize (Hall key Hin). cbv beta in Hall.
  rewrite (plain_key_get key source Hp) in Hg. injection Hg as Hw.
  rewrite (plain_key_get key res Hp). f_equal.
  pose proof (imputes_walk (_get_tokenized_keypath key) source res Hi) as Hk.
  rewrite Hw in Hk.
  inversion Hk.
  - match goal with
    | H : VKeep p = jm_walk res _ |- _ => rewrite <- H in Hall
    end.
    discriminate Hall.
  - reflexivity.
Qed.

Lemma impute_replaces_requested_wrappers_witness :
  exists res,
    impute_enum_values
      (VDict [(TStr "a", VList [VKeep (LInt 1); VInt 2]);
              (TStr "b", VDict [(TStr "c", VKeep (LStr "x"))])])
      ["a[0]"; "z"; "b.c"] = Ok res
    /\ _nested_get res "b.c" VNone = Ok (value_of_literal (LStr "x")).
Proof.
  apply (impute_replaces_requested_wrappers
           (VDict [(TStr "a", VList [VKeep (LInt 1); VInt 2]);
                   (TStr "b", VDict [(TStr "c", VKeep (LStr "x"))])])
           ["a[0]"; "z"; "b.c"] "b.c" (LStr "x")).
  - repeat constructor.
  - apply elem_of_cons. right. apply elem_of_cons. right.
    apply elem_of_cons. left. reflexivity.
  - vm_compute. reflexivity.
Defined.

(** ** [get] on a list *)

(** X23. [get] on a list: with the list put under the key ["_"] and the
    key prefixed by it, a key made of bracketed indices and dotted
    identifiers is resolved by reading the list token by token; with the
    default settings [get] returns what is found there, or null, and calls
    nothing. *)
Theorem get_list_source_walks (l : list value) (path : list token) :
  identifiers path = true ->
  get (VList l) (render_tail path) VNone [] None None false
  = ([], Ok (jm_walk (VList l) path)).
Proof.
  intros Hp. unfold get, list_source, get_before_apply.
  change (String.append "_" (render_tail path)) with (render_path "_" path).
  pose proof (rendered_path_plain "_" path eq_refl Hp) as Hk.
  rewrite (plain_key_get _ _ Hk).
  rewrite (tokenize_rendered_path "_" path eq_refl
             (identifiers_plain_names _ Hp)).
  reflexivity.
Qed.

Lemma get_list_source_walks_witness :
  get (VList [VDict [(TStr "a", VInt 1)]; VDict [(TStr "a", VInt 2)]])
    (render_tail [TInt (-1); TStr "a"]) VNone [] None None false
  = ([], Ok (jm_walk
               (VList [VDict [(TStr "a", VInt 1)]; VDict [(TStr "a", VInt 2)]])
               [TInt (-1); TStr "a"])).
Proof.
  apply (get_list_source_walks
           [VDict [(TStr "a", VInt 1)]; VDict [(TStr "a", VInt 2)]]
           [TInt (-1); TStr "a"]).
  reflexivity.
Defined.
